(** * lambda-shearer: the sweep runner of [lib/Runner.js]

    A shallow embedding of the [Runner] class and proofs about the
    statistics it reports and the order of its adapter calls and events. *)

From Stdlib Require Import ZArith QArith Qround Qabs Qpower Lqa Lia.
From stdpp Require Import base list strings gmap.

Local Open Scope Z_scope.

(** * JavaScript numbers

    A number is an IEEE 754 double.  A finite double is kept as the
    rational it denotes, and every operation that can leave the doubles
    ([+], [/], [Number]) rounds its exact result back to one with
    [to_double]; [Math.round], [Math.min] and [Math.max] are exact on
    doubles.  The three non-finite values are kept, because [Math.min],
    [Math.max], a division by a zero length and an overflow produce them.
    The sign of a zero is not tracked: every zero is +0. *)

Inductive number : Type :=
  | Num (q : Q)
  | PosInfinity
  | NegInfinity
  | NaN.

(** What an invocation resolves to: [null] when the log tail carried no
    REPORT line, and else a number. *)
Definition duration : Type := option number.

(** [ToNumber]: a number is itself and [null] is [+0]. *)
Definition ToNumber (d : duration) : number :=
  match d with
  | Some x => x
  | None => Num 0%Q
  end.

(** The nearest integer, a tie going to the even one. *)
Definition round_half_even (t : Q) : Z :=
  let f := Qfloor t in
  match (t - inject_Z f ?= 1 # 2)%Q with
  | Lt => f
  | Gt => f + 1
  | Eq => if Z.even f then f else f + 1
  end.

(** The exponent [e] of a positive rational: [2^e <= q < 2^(e+1)]. *)
Definition binade (q : Q) : Z :=
  let e := Z.log2 (Qnum q) - Z.log2 (Zpos (Qden q)) in
  if Qle_bool (2 ^ e) q then e else e - 1.

(** The double nearest to a rational, a tie going to the even mantissa
    (roundTiesToEven of binary64): 53 bits of mantissa, subnormals below
    [2^-1022], and an infinity once the rounded value reaches [2^1024]. *)
Definition to_double (q : Q) : number :=
  match (q ?= 0)%Q with
  | Eq => Num 0%Q
  | sign =>
      let a := Qabs q in
      let ulp := (2 ^ (Z.max (binade a) (-1022) - 52))%Q in
      let nearest := (inject_Z (round_half_even (a / ulp)) * ulp)%Q in
      if Qle_bool (2 ^ 1024) nearest then
        match sign with Lt => NegInfinity | _ => PosInfinity end
      else
        match sign with
        | Lt => Num (Qred (- nearest))
        | _ => Num (Qred nearest)
        end
  end.

(** [a + b] on numbers. *)
Definition number_add (a b : number) : number :=
  match a, b with
  | NaN, _ | _, NaN => NaN
  | Num x, Num y => to_double (x + y)
  | PosInfinity, NegInfinity | NegInfinity, PosInfinity => NaN
  | PosInfinity, _ | _, PosInfinity => PosInfinity
  | NegInfinity, _ | _, NegInfinity => NegInfinity
  end.

(** [a / b] on numbers. *)
Definition number_div (a b : number) : number :=
  match a, b with
  | NaN, _ | _, NaN => NaN
  | Num x, Num y =>
      if Qeq_bool y 0 then
        match (x ?= 0)%Q with
        | Gt => PosInfinity
        | Lt => NegInfinity
        | Eq => NaN
        end
      else to_double (x / y)
  | Num _, _ => Num 0%Q
  | PosInfinity, Num y => if Qle_bool 0 y then PosInfinity else NegInfinity
  | NegInfinity, Num y => if Qle_bool 0 y then NegInfinity else PosInfinity
  | _, _ => NaN
  end.

(** [a < b] and [a <= b]; both are false as soon as one side is [NaN]. *)
Definition number_ltb (a b : number) : bool :=
  match a, b with
  | NaN, _ | _, NaN => false
  | Num x, Num y => negb (Qle_bool y x)
  | NegInfinity, NegInfinity => false
  | NegInfinity, _ => true
  | _, NegInfinity => false
  | PosInfinity, _ => false
  | _, PosInfinity => true
  end.

Definition number_leb (a b : number) : bool :=
  match a, b with
  | NaN, _ | _, NaN => false
  | Num x, Num y => Qle_bool x y
  | NegInfinity, _ => true
  | _, NegInfinity => false
  | _, PosInfinity => true
  | PosInfinity, _ => false
  end.

(** [Math.round]: the nearest integer, a tie going towards +Infinity. *)
Definition Math_round (x : number) : number :=
  match x with
  | Num q => Num (inject_Z (Qfloor (q + (1 # 2))))
  | other => other
  end.

(** [Math.min(...xs)] and [Math.max(...xs)]: the scan of ECMAScript, which
    starts from the opposite infinity and gives [NaN] once an argument is. *)
Definition Math_min (xs : list number) : number :=
  fold_left
    (fun lowest x =>
       match lowest, x with
       | NaN, _ | _, NaN => NaN
       | _, _ => if number_ltb x lowest then x else lowest
       end)
    xs PosInfinity.

Definition Math_max (xs : list number) : number :=
  fold_left
    (fun highest x =>
       match highest, x with
       | NaN, _ | _, NaN => NaN
       | _, _ => if number_ltb highest x then x else highest
       end)
    xs NegInfinity.

(** * The statistics of a cycle *)

Module Runner.

Definition PERCENTILES : list Z := [50; 66; 75; 80; 90; 95; 98; 99].

Section Reducer.

(** [Rank] is what the [percentile] package returns.  The package is not
    part of the repository: it is a parameter here, taken to return a value
    for every rank and every list, and nothing more is assumed about it. *)
Context {Rank : Type}.
Variable percentile : Z -> list duration -> Rank.

Record StepReport : Type := mkStepReport {
  min : number;
  max : number;
  avg : number;
  percentiles : gmap Z Rank
}.

(** [static _getAverage(durations)] *)
Definition _getAverage (durations : list duration) : number :=
  let average :=
    number_div
      (fold_left (fun acc duration => number_add acc (ToNumber duration))
                 durations (Num 0%Q))
      (Num (inject_Z (Z.of_nat (length durations)))) in
  Math_round average.

(** [static _parseCycleResult(cycleResult)] *)
Definition _parseCycleResult (cycleResult : list duration) : StepReport :=
  let percentiles :=
    fold_left (fun memo i => <[i := percentile i cycleResult]> memo)
              PERCENTILES (∅ : gmap Z Rank) in
  {| min := Math_min (ToNumber <$> cycleResult);
     max := Math_max (ToNumber <$> cycleResult);
     avg := _getAverage cycleResult;
     percentiles := percentiles |}.

End Reducer.

(** An integer sample as [_invokeLambda] delivers it, and the exact sum of
    a sequence of samples. *)
Definition sample (z : Z) : duration := Some (Num (inject_Z z)).

Definition exact_sum (samples : list Z) : Z := foldr Z.add 0 samples.

(** A cycle result with every [null] replaced by the number it counts as. *)
Definition as_zero (cycleResult : list duration) : list duration :=
  (fun d => Some (ToNumber d)) <$> cycleResult.

(** * The REPORT line of a log tail

    [_invokeLambda] decodes the log tail of a response and reads the
    duration from its REPORT line with [REPORT_REGEX].  A JavaScript string
    is the list of its UTF-16 code units. *)

Definition js_string : Type := list N.

Definition units (s : string) : js_string :=
  Ascii.N_of_ascii <$> String.list_ascii_of_string s.

(** The character classes of [REPORT_REGEX]: [[0-9]] and [\d], [[0-9a-f]],
    [[0-9.]], and [\s], the white space and line terminators of ECMAScript. *)
Definition digit (c : N) : bool := ((48 <=? c) && (c <=? 57))%N.

Definition hex_digit (c : N) : bool :=
  digit c || ((97 <=? c) && (c <=? 102))%N.

Definition digit_or_point (c : N) : bool := digit c || (c =? 46)%N.

Definition white_space (c : N) : bool :=
  (((9 <=? c) && (c <=? 13)) || (c =? 32) || (c =? 160) || (c =? 5760)
   || ((8192 <=? c) && (c <=? 8202)) || (c =? 8232) || (c =? 8233)
   || (c =? 8239) || (c =? 8287) || (c =? 12288) || (c =? 65279))%N.

(** The pieces of the pattern, each giving what is left of the input after
    it.  A literal text: *)
Fixpoint literal (text s : js_string) : option js_string :=
  match text, s with
  | [], _ => Some s
  | a :: text', c :: s' => if (a =? c)%N then literal text' s' else None
  | _ :: _, [] => None
  end.

(** [class{n}]: *)
Fixpoint exactly (n : nat) (class : N -> bool) (s : js_string)
    : option js_string :=
  match n, s with
  | O, _ => Some s
  | S n', c :: s' => if class c then exactly n' class s' else None
  | S _, [] => None
  end.

(** [class+], which takes as many characters as there are: in
    [REPORT_REGEX] what follows it never begins with a character of the
    class, so giving one back cannot help. *)
Fixpoint many (class : N -> bool) (s : js_string) : js_string * js_string :=
  match s with
  | c :: s' =>
      if class c then let '(m, rest) := many class s' in (c :: m, rest)
      else ([], s)
  | [] => ([], [])
  end.

Definition at_least_one (class : N -> bool) (s : js_string)
    : option (js_string * js_string) :=
  match many class s with
  | ([], _) => None
  | found => Some found
  end.

(** [REPORT_REGEX] matched at the start of [s]; the result is the second
    group, the text of the duration. *)
Definition REPORT_REGEX_at (s : js_string) : option js_string :=
  s ← literal (units "REPORT RequestId: ") s;
  s ← exactly 8 hex_digit s;
  s ← literal (units "-") s;
  s ← exactly 4 hex_digit s;
  s ← literal (units "-") s;
  s ← exactly 4 hex_digit s;
  s ← literal (units "-") s;
  s ← exactly 4 hex_digit s;
  s ← literal (units "-") s;
  s ← exactly 12 hex_digit s;
  '(_, s) ← at_least_one white_space s;
  s ← literal (units "Duration: ") s;
  '(parsedLog_2, s) ← at_least_one digit_or_point s;
  s ← literal (units " ms") s;
  '(_, s) ← at_least_one white_space s;
  s ← literal (units "Billed Duration: ") s;
  '(_, s) ← at_least_one digit s;
  s ← literal (units " ms") s;
  '(_, s) ← at_least_one white_space s;
  s ← literal (units "Memory Size: ") s;
  '(_, s) ← at_least_one digit s;
  s ← literal (units " MB") s;
  '(_, s) ← at_least_one white_space s;
  s ← literal (units "Max Memory Used: ") s;
  '(_, s) ← at_least_one digit s;
  s ← literal (units " MB") s;
  '(_, s) ← at_least_one white_space s;
  match s with
  | [] => Some parsedLog_2
  | _ :: _ => None
  end.

(** [REPORT_REGEX.exec(log)], of which only the second group is used: the
    match that starts first, [None] when there is none. *)
Fixpoint REPORT_REGEX_exec_2 (log : js_string) : option js_string :=
  match REPORT_REGEX_at log with
  | Some parsedLog_2 => Some parsedLog_2
  | None =>
      match log with
      | [] => None
      | _ :: rest => REPORT_REGEX_exec_2 rest
      end
  end.

(** [Number(text)] for a text of digits and points, which is all the
    second group can be: a decimal numeral has at most one point and at
    least one digit, and its value is rounded to the nearest double; any
    other such text is [NaN]. *)
Definition decimal (digits : js_string) : Z :=
  foldl (fun acc c => 10 * acc + (Z.of_N c - 48)) 0 digits.

Definition Number (text : js_string) : number :=
  let '(whole, rest) := many digit text in
  match rest with
  | [] =>
      match whole with
      | [] => Num 0%Q
      | _ :: _ => to_double (inject_Z (decimal whole))
      end
  | c :: fraction =>
      if (c =? 46)%N && forallb digit fraction
         && negb (bool_decide (whole = []) && bool_decide (fraction = []))
      then to_double (inject_Z (decimal (whole ++ fraction))
                      / inject_Z (10 ^ Z.of_nat (length fraction)))
      else NaN
  end.

(** What [_invokeLambda] makes of the decoded log:
    [parsedLog ? Math.round(Number(parsedLog[2])) : null]. *)
Definition read_duration (log : js_string) : duration :=
  let parsedLog := REPORT_REGEX_exec_2 log in
  match parsedLog with
  | Some parsedLog_2 => Some (Math_round (Number parsedLog_2))
  | None => None
  end.

(** The texts [REPORT_REGEX] matches from their first character to their
    last: a REPORT line with the five groups of its request id, its four
    fields, and the white space after the id and after each field. *)
Record REPORT : Type := mkREPORT {
  id_1 : js_string;
  id_2 : js_string;
  id_3 : js_string;
  id_4 : js_string;
  id_5 : js_string;
  gap_1 : js_string;
  Duration : js_string;
  gap_2 : js_string;
  Billed_Duration : js_string;
  gap_3 : js_string;
  Memory_Size : js_string;
  gap_4 : js_string;
  Max_Memory_Used : js_string;
  gap_5 : js_string
}.

Definition report_line (r : REPORT) : js_string :=
  units "REPORT RequestId: "
  ++ id_1 r ++ units "-" ++ id_2 r ++ units "-" ++ id_3 r ++ units "-"
  ++ id_4 r ++ units "-" ++ id_5 r
  ++ gap_1 r ++ units "Duration: " ++ Duration r ++ units " ms"
  ++ gap_2 r ++ units "Billed Duration: " ++ Billed_Duration r ++ units " ms"
  ++ gap_3 r ++ units "Memory Size: " ++ Memory_Size r ++ units " MB"
  ++ gap_4 r ++ units "Max Memory Used: " ++ Max_Memory_Used r ++ units " MB"
  ++ gap_5 r.

Definition group_of (n : nat) (class : N -> bool) (m : js_string) : bool :=
  (length m =? n)%nat && forallb class m.

Definition some_of (class : N -> bool) (m : js_string) : bool :=
  negb (length m =? 0)%nat && forallb class m.

Definition well_formed (r : REPORT) : bool :=
  group_of 8 hex_digit (id_1 r) && group_of 4 hex_digit (id_2 r)
  && group_of 4 hex_digit (id_3 r) && group_of 4 hex_digit (id_4 r)
  && group_of 12 hex_digit (id_5 r)
  && some_of white_space (gap_1 r) && some_of digit_or_point (Duration r)
  && some_of white_space (gap_2 r) && some_of digit (Billed_Duration r)
  && some_of white_space (gap_3 r) && some_of digit (Memory_Size r)
  && some_of white_space (gap_4 r) && some_of digit (Max_Memory_Used r)
  && some_of white_space (gap_5 r).

(** Whether [text] is found in [log] at one of its first [k] positions. *)
Fixpoint occurs_before (text log : js_string) (k : nat) : bool :=
  match k with
  | O => false
  | S k' =>
      bool_decide (is_Some (literal text log))
      || match log with
         | [] => false
         | _ :: rest => occurs_before text rest k'
         end
  end.

(** A log tail as the service writes it: the START and END lines, and the
    REPORT line with the given text for its duration. *)
Definition sample_report (duration_text : string) : REPORT :=
  {| id_1 := units "6f1e9f9a"; id_2 := units "0c2b"; id_3 := units "11e8";
     id_4 := units "ba89"; id_5 := units "0ed5f89f718b";
     gap_1 := [9%N]; Duration := units duration_text;
     gap_2 := [9%N]; Billed_Duration := units "200";
     gap_3 := [32%N; 9%N]; Memory_Size := units "128";
     gap_4 := [9%N]; Max_Memory_Used := units "20";
     gap_5 := [9%N; 10%N] |}.

Definition sample_preamble : js_string :=
  units "START RequestId: 6f1e9f9a-0c2b-11e8-ba89-0ed5f89f718b Version: $LATEST"
  ++ [10%N]
  ++ units "END RequestId: 6f1e9f9a-0c2b-11e8-ba89-0ed5f89f718b" ++ [10%N].

Definition sample_log (duration_text : string) : js_string :=
  sample_preamble ++ report_line (sample_report duration_text).

(** * Promises, adapter requests and the trace of a run *)

(** How a promise settles. *)
Inductive outcome (E A : Type) : Type :=
  | Fulfilled (a : A)
  | Rejected (e : E).
Arguments Fulfilled {E A} a.
Arguments Rejected {E A} e.

Section Model.

(** The adapter's side of the world.  [Response] is what
    [lambdaClient.invoke] resolves to, [Payload] what it is given, [Err]
    what a promise is rejected with and [Rank] what [percentile] returns. *)
Context {Response Payload Err Rank : Type}.

(** The named events of the emitter. *)
Inductive event : Type :=
  | EvStart (originalMemorySize : Z)
  | EvStep (memoryStep : Z)
  | EvWarmup
  | EvInvoke (invocationDuration : duration)
  | EvResult (parsedResult : @StepReport Rank)
  | EvFinish.

(** The requests sent to [lambdaClient].  [Invoke] also carries the index
    [_invokeLambda] was called with, which identifies the attempt. *)
Inductive request : Type :=
  | GetFunctionConfiguration
  | UpdateFunctionConfiguration (MemorySize : Z)
  | Invoke (i : nat) (payload : Payload).

Inductive reply : Type :=
  | Configuration (MemorySize : Z)
  | Updated
  | Invoked (response : Response).

(** What can be observed of a run, in the order it happens: an event is
    emitted, a Bluebird timer of [ms] milliseconds fires, a request is
    sent, the promise of a request settles. *)
Inductive action : Type :=
  | Emit (e : event)
  | Delay (ms : Z)
  | Call (r : request)
  | Settled (r : request) (o : outcome Err reply).

Definition trace : Type := list action.

(** [this.payload]: a value, or a function of the invocation index. *)
Inductive payload_source : Type :=
  | Value (p : Payload)
  | Function (f : nat -> Payload).

(** The options [Object.assign] copies onto the runner. *)
Record options : Type := mkOptions {
  steps : list Z;
  repeats : nat;
  concurrency : nat;
  warmup : bool;
  delay : Z;
  payload : payload_source
}.

(** One mapper of [_cycle] that has been started: it waits for its timer,
    then to send its invocation, then for the reply, and then for its
    [tap] to announce the duration read from the reply. *)
Inductive stage : Type :=
  | Delaying
  | Sending
  | Invoking (p : Payload)
  | Announcing (invocationDuration : duration).

Definition task : Type := (nat * stage)%type.

(** The state threaded through a run: what has happened so far, and the
    mappers still running although the [BPromise.map] that started them
    has been rejected. *)
Record state : Type := mkState {
  log : trace;
  stray : list task
}.

Definition init : state := {| log := []; stray := [] |}.

Definition record (a : action) (s : state) : state :=
  {| log := log s ++ [a]; stray := stray s |}.

(** A promise-returning computation. *)
Definition M (A : Type) : Type := state -> outcome Err A * state.

Definition ret {A} (a : A) : M A := fun s => (Fulfilled a, s).

(** [p.then(f)] *)
Definition bind {A B} (m : M A) (f : A -> M B) : M B :=
  fun s =>
    match m s with
    | (Fulfilled a, s') => f a s'
    | (Rejected e, s') => (Rejected e, s')
    end.

(** [p.finally(handler)]: the handler runs however [p] settled; its own
    rejection replaces the outcome of [p], otherwise that outcome stands. *)
Definition finally {A B} (m : M A) (handler : M B) : M A :=
  fun s =>
    match m s with
    | (o, s') =>
        match handler s' with
        | (Fulfilled _, s'') => (o, s'')
        | (Rejected e, s'') => (Rejected e, s'')
        end
    end.

(** [this.emit(...)]; listeners are taken not to throw. *)
Definition emit (e : event) : M unit :=
  fun s => (Fulfilled tt, record (Emit e) s).

(** [.delay(ms)] *)
Definition BPromise_delay (ms : Z) : M unit :=
  fun s => (Fulfilled tt, record (Delay ms) s).

(** [BPromise.reduce(items, fn, initial)]: one item after the other. *)
Fixpoint BPromise_reduce {A B} (items : list A) (fn : B -> A -> M B)
    (acc : B) : M B :=
  match items with
  | [] => ret acc
  | item :: rest => bind (fn acc item) (BPromise_reduce rest fn)
  end.

(** The element at position [k] of a non-empty list and the others; the
    head when there is no position [k]. *)
Definition pick {A} (k : nat) (x : A) (xs : list A) : A * list A :=
  match (x :: xs) !! k with
  | Some y => (y, base.delete k (x :: xs))
  | None => (x, xs)
  end.

(** The remote side and the schedulers.  The client may answer according
    to everything that happened before.  [LogResult] stands for
    [Buffer.from(response.LogResult, 'base64').toString('utf8')], the
    decoded log tail of a response, which the service sends with every
    answer to a request with [LogType: 'Tail'].  The last three fields are
    what the event loop and Bluebird leave open: which running mapper is
    resumed next, which queued item [BPromise.map] starts next when a
    mapper is done (Bluebird 3 pops the item queued last), and whether a
    stray mapper is resumed before the run goes on. *)
Record world : Type := mkWorld {
  getFunctionConfiguration : trace -> outcome Err Z;
  updateFunctionConfiguration : trace -> Z -> outcome Err unit;
  invoke : trace -> nat -> Payload -> outcome Err Response;
  LogResult : Response -> js_string;
  percentile : Z -> list duration -> Rank;
  next_ready : trace -> nat;
  next_started : list nat -> nat;
  stray_first : trace -> bool
}.

Section World.

Variable w : world.
Variable this : options.

(** The first half of [_invokeLambda(i)]: the payload is resolved and
    the request is sent. *)
Definition send_invoke (i : nat) (tr : trace) : Payload * trace :=
  let payload :=
    match payload this with
    | Function f => f i
    | Value p => p
    end in
  (payload, tr ++ [Call (Invoke i payload)]).

(** [REPORT_REGEX.exec(log)] on the decoded log tail of a response, of
    which only the second group is used. *)
Definition REPORT_REGEX_exec (response : Response) : option js_string :=
  let log := LogResult w response in
  REPORT_REGEX_exec_2 log.

(** What [_invokeLambda] makes of a response:
    [parsedLog ? Math.round(Number(parsedLog[2])) : null]. *)
Definition duration_of (response : Response) : duration :=
  let parsedLog := REPORT_REGEX_exec response in
  match parsedLog with
  | Some parsedLog_2 => Some (Math_round (Number parsedLog_2))
  | None => None
  end.

(** The second half: the reply arrives and the duration is read. *)
Definition receive_invoke (i : nat) (p : Payload) (tr : trace)
    : outcome Err duration * trace :=
  match invoke w tr i p with
  | Fulfilled response =>
      (Fulfilled (duration_of response),
       tr ++ [Settled (Invoke i p) (Fulfilled (Invoked response))])
  | Rejected e => (Rejected e, tr ++ [Settled (Invoke i p) (Rejected e)])
  end.

(** What resuming a mapper leads to. *)
Inductive progress : Type :=
  | Running (t : task)
  | Finished (i : nat) (invocationDuration : duration)
  | Failed (e : Err).

(** The mapper of [_cycle] for item [i],
    [BPromise.delay(..).then(() => this._invokeLambda(i + 1)).tap(..)],
    resumed once.  Its callbacks run in different turns of the event loop,
    between which other mappers can be resumed: its timer fires; the
    invocation is sent; the reply arrives and the duration is read; the
    [tap] emits 'invoke' and the mapper is done. *)
Definition resume (t : task) (tr : trace) : progress * trace :=
  match t with
  | (i, Delaying) =>
      let ms := if (concurrency this =? 1)%nat then delay this else 0 in
      (Running (i, Sending), tr ++ [Delay ms])
  | (i, Sending) =>
      let '(p, tr') := send_invoke (i + 1) tr in
      (Running (i, Invoking p), tr')
  | (i, Invoking p) =>
      match receive_invoke (i + 1) p tr with
      | (Fulfilled invocationDuration, tr') =>
          (Running (i, Announcing invocationDuration), tr')
      | (Rejected e, tr') => (Failed e, tr')
      end
  | (i, Announcing invocationDuration) =>
      (Finished i invocationDuration,
       tr ++ [Emit (EvInvoke invocationDuration)])
  end.

(** Stray mappers go on while the run does: each has at most four
    resumptions left, and what they resolve to is no longer looked at. *)
Fixpoint strays (n : nat) (s : state) : state :=
  match n, stray s with
  | S n', t :: ts =>
      if stray_first w (log s) then
        let '(t', rest) := pick (next_ready w (log s)) t ts in
        match resume t' (log s) with
        | (Running t'', tr) =>
            strays n' {| log := tr; stray := rest ++ [t''] |}
        | (_, tr) => strays n' {| log := tr; stray := rest |}
        end
      else s
  | _, _ => s
  end.

(** A request to [lambdaClient] and the settling of its promise. *)
Definition call {A} (r : request) (answer : trace -> outcome Err A)
    (wrap : A -> reply) : M A :=
  fun s =>
    let s1 := record (Call r) s in
    let s2 := strays (4 * length (stray s1)) s1 in
    match answer (log s2) with
    | Fulfilled a => (Fulfilled a, record (Settled r (Fulfilled (wrap a))) s2)
    | Rejected e => (Rejected e, record (Settled r (Rejected e)) s2)
    end.

(** [_getAllocatedMemory()] *)
Definition _getAllocatedMemory : M Z :=
  call GetFunctionConfiguration (getFunctionConfiguration w) Configuration.

(** [_setAllocatedMemory(memorySize)] *)
Definition _setAllocatedMemory (memorySize : Z) : M unit :=
  call (UpdateFunctionConfiguration memorySize)
       (fun tr => updateFunctionConfiguration w tr memorySize)
       (fun _ => Updated).

(** [_invokeLambda(i)] *)
Definition _invokeLambda (i : nat) : M duration :=
  fun s =>
    let '(p, tr) := send_invoke i (log s) in
    let s1 := {| log := tr; stray := stray s |} in
    let s2 := strays (4 * length (stray s1)) s1 in
    let '(o, tr') := receive_invoke i p (log s2) in
    (o, {| log := tr'; stray := stray s2 |}).

(** The bookkeeping of [BPromise.map]: the items whose mapper has not
    been called, the mappers running, and the array of results. *)
Record pool : Type := mkPool {
  queue : list nat;
  inflight : list task;
  values : list duration
}.

(** [concurrency: limit] holds mappers back only when [limit >= 1]. *)
Definition saturated (limit : nat) (p : pool) : bool :=
  (1 <=? limit)%nat && (limit <=? length (inflight p))%nat.

(** Mappers are started while the limit allows, the queued item to start
    being the one [choose] says.  Starting one sets its timer, which is not
    yet an action. *)
Fixpoint start_mappers (choose : list nat -> nat) (limit n : nat) (p : pool)
    : pool :=
  match n, queue p with
  | S n', i :: q =>
      if saturated limit p then p
      else
        let '(j, q') := pick (choose (i :: q)) i q in
        start_mappers choose limit n'
          {| queue := q';
             inflight := inflight p ++ [(j, Delaying)];
             values := values p |}
  | _, _ => p
  end.

(** The running mappers are resumed one at a time, in the order
    [next_ready] says.  A result is stored at the index of its item and
    frees a slot, for the queued item [next_started] says; a failure
    rejects the whole map and leaves the other running mappers stray, and
    these can be resumed before the rejection is handled.  Every mapper is
    resumed four times, so [n] starts at four times the number of items. *)
Fixpoint map_loop (limit n : nat) (p : pool) (s : state)
    : outcome Err (list duration) * state :=
  match n, inflight p with
  | S n', t :: ts =>
      let '(t', rest) := pick (next_ready w (log s)) t ts in
      match resume t' (log s) with
      | (Running t'', tr) =>
          map_loop limit n'
            {| queue := queue p; inflight := rest ++ [t''];
               values := values p |}
            {| log := tr; stray := stray s |}
      | (Finished i r, tr) =>
          let p' := {| queue := queue p; inflight := rest;
                       values := <[i := r]> (values p) |} in
          map_loop limit n'
            (start_mappers (next_started w) limit (length (queue p')) p')
            {| log := tr; stray := stray s |}
      | (Failed e, tr) =>
          let s' := {| log := tr; stray := stray s ++ rest |} in
          (Rejected e, strays (4 * length (stray s')) s')
      end
  | _, _ => (Fulfilled (values p), s)
  end.

(** How often a running mapper is still to be resumed. *)
Definition resumptions_left (t : task) : nat :=
  match t.2 with
  | Delaying => 4
  | Sending => 3
  | Invoking _ => 2
  | Announcing _ => 1
  end.

(** The items [BPromise.map] has no result for yet, and the resumptions it
    takes to have one for each. *)
Definition pending (p : pool) : list nat := queue p ++ (inflight p).*1.

Definition resumptions (p : pool) : nat :=
  4 * length (queue p) + sum_list_with resumptions_left (inflight p).

(** [BPromise.map(Array.from(Array(count)).keys(), mapper, { concurrency })]
    with the mapper of [_cycle]: the mapper is first called for the items
    in index order, as far as the limit allows. *)
Definition BPromise_map (count : nat) : M (list duration) :=
  fun s =>
    let p := {| queue := seq 0 count; inflight := [];
                values := replicate count None |} in
    map_loop (concurrency this) (4 * count)
             (start_mappers (fun _ => 0%nat) (concurrency this) count p) s.

(** [_cycle(count)] *)
Definition _cycle (count : nat) : M (list duration) :=
  bind
    (bind
       (if warmup this && (concurrency this =? 1)%nat then
          bind (emit EvWarmup) (fun _ =>
          bind (_invokeLambda 0) (fun _ => ret tt))
        else ret tt)
       (fun _ => BPromise_delay (if warmup this then delay this else 0)))
    (fun _ => BPromise_map count).

(** The callback [run] gives to [BPromise.reduce]:
    [(report, memoryStep) => this._setAllocatedMemory(memoryStep).then(..)] *)
Definition sweep_step (report : gmap Z (@StepReport Rank)) (memoryStep : Z)
    : M (gmap Z (@StepReport Rank)) :=
  bind (_setAllocatedMemory memoryStep) (fun _ =>
  bind (emit (EvStep memoryStep)) (fun _ =>
  bind (_cycle (repeats this)) (fun cycleResult =>
    let parsedResult := _parseCycleResult (percentile w) cycleResult in
    bind (emit (EvResult parsedResult)) (fun _ =>
    ret (<[memoryStep := parsedResult]> report))))).

(** The handler [run] gives to [finally]. *)
Definition restore (originalMemorySize : Z) : M unit :=
  bind (emit EvFinish) (fun _ => _setAllocatedMemory originalMemorySize).

(** [run()] *)
Definition run : M (gmap Z (@StepReport Rank)) :=
  bind _getAllocatedMemory (fun originalMemorySize =>
    bind (emit (EvStart originalMemorySize)) (fun _ =>
      finally (BPromise_reduce (steps this) sweep_step ∅)
              (restore originalMemorySize))).

End World.

(** ** Reading a trace *)

(** The memory sizes [updateFunctionConfiguration] was called with. *)
Definition updates (tr : trace) : list Z :=
  omap (fun a => match a with
                 | Call (UpdateFunctionConfiguration m) => Some m
                 | _ => None
                 end) tr.

(** The events emitted. *)
Definition emitted (tr : trace) : list event :=
  omap (fun a => match a with Emit e => Some e | _ => None end) tr.

(** The memory steps announced by a 'step' event. *)
Definition emitted_steps (tr : trace) : list Z :=
  omap (fun a => match a with Emit (EvStep m) => Some m | _ => None end) tr.

(** The reports announced by a 'result' event. *)
Definition reports (tr : trace) : list (@StepReport Rank) :=
  omap (fun a => match a with Emit (EvResult r) => Some r | _ => None end) tr.

(** The durations announced by an 'invoke' event. *)
Definition observed (tr : trace) : list duration :=
  omap (fun a => match a with Emit (EvInvoke d) => Some d | _ => None end) tr.

(** How often 'finish' was emitted. *)
Definition finishes (tr : trace) : nat :=
  length (omap (fun a => match a with Emit EvFinish => Some tt | _ => None end) tr).

(** The indices of the invocations sent. *)
Definition attempts (tr : trace) : list nat :=
  omap (fun a => match a with Call (Invoke i _) => Some i | _ => None end) tr.

(** How the invocations of index [i] settled. *)
Definition responses_of (i : nat) (tr : trace) : list (outcome Err reply) :=
  omap (fun a => match a with
                 | Settled (Invoke j _) o => if decide (j = i) then Some o else None
                 | _ => None
                 end) tr.

(** The errors requests were rejected with. *)
Definition rejections (tr : trace) : list Err :=
  omap (fun a => match a with Settled _ (Rejected e) => Some e | _ => None end) tr.

(** The actions of a cycle, and those of its timed part, whose
    invocations have an index of 1 or more. *)
Definition cycle_action (a : action) : Prop :=
  match a with
  | Delay _ | Call (Invoke _ _) | Settled (Invoke _ _) _
  | Emit EvWarmup | Emit (EvInvoke _) => True
  | _ => False
  end.

Definition timed_action (a : action) : Prop :=
  match a with
  | Delay _ | Emit (EvInvoke _) => True
  | Call (Invoke i _) | Settled (Invoke i _) _ => i <> 0%nat
  | _ => False
  end.

(** How a cycle, or a part of one made of actions [allowed], leaves the
    run: fulfilled, it has seen no rejection and left no mapper behind;
    rejected, it is with the first rejection, that of an invocation, after
    which only mappers left behind have acted. *)
Definition cycle_outcome {A} (allowed : action -> Prop) (s0 : state)
    (res : outcome Err A * state) : Prop :=
  exists suf,
    log res.2 = log s0 ++ suf
    /\ Forall allowed suf
    /\ match res.1 with
       | Fulfilled _ => stray res.2 = stray s0 /\ rejections suf = []
       | Rejected e =>
           exists suf0 i p after,
             suf = suf0 ++ [Settled (Invoke i p) (Rejected e)] ++ after
             /\ rejections suf0 = []
             /\ Forall timed_action after
       end.

(** Whether the invocation of a running mapper has been answered, which
    its stage tells, and with what. *)
Definition answered_as_staged (w : world) (suf : trace) (t : task) : Prop :=
  match t.2 with
  | Announcing invocationDuration =>
      exists response,
        responses_of (t.1 + 1) suf = [Fulfilled (Invoked response)]
        /\ invocationDuration = duration_of w response
  | _ => responses_of (t.1 + 1) suf = []
  end.

(** What holds of the pool of a map over [count] items whenever a mapper
    is about to be resumed, [suf] being what has happened since the map
    began and [n] the resumptions allowed: a pending item is pending once;
    a queued one has not been answered, a running one has or has not as
    its stage tells; any other item has been answered once, and its result
    is stored at its index; there are resumptions enough. *)
Definition pool_invariant (w : world) (count n : nat) (p : pool)
    (suf : trace) : Prop :=
  NoDup (pending p)
  /\ length (values p) = count
  /\ (forall i, i ∈ pending p -> (i < count)%nat)
  /\ (forall i, i ∈ queue p -> responses_of (i + 1) suf = [])
  /\ Forall (answered_as_staged w suf) (inflight p)
  /\ (forall i, (i < count)%nat -> i ∉ pending p ->
                exists response,
                  responses_of (i + 1) suf = [Fulfilled (Invoked response)]
                  /\ values p !! i = Some (duration_of w response))
  /\ (resumptions p <= n)%nat.

(** What the sweep over [memorySteps] adds to the trace, with the mappers
    it leaves behind: fulfilled, every step was configured and announced
    and nothing was rejected; rejected, it stopped in step [k + 1] at the
    first rejection, of the configuration request or of an invocation,
    and after the latter mappers left behind may have acted. *)
Definition sweep_shape {A} (memorySteps : list Z) (o : outcome Err A)
    (suf : trace) (left : list task) : Prop :=
  finishes suf = 0%nat
  /\ match o with
     | Fulfilled _ =>
         updates suf = memorySteps /\ emitted_steps suf = memorySteps
         /\ rejections suf = [] /\ left = []
     | Rejected e =>
         exists (k : nat) suf0 r after,
           suf = suf0 ++ [Settled r (Rejected e)] ++ after
           /\ rejections suf0 = []
           /\ Forall timed_action after
           /\ (k < length memorySteps)%nat
           /\ updates suf = take (S k) memorySteps
           /\ match r with
              | UpdateFunctionConfiguration _ =>
                  emitted_steps suf = take k memorySteps
                  /\ left = [] /\ after = []
              | Invoke _ _ => emitted_steps suf = take (S k) memorySteps
              | GetFunctionConfiguration => False
              end
     end.

(** ** The sentences of the specification that the code does not follow,
    as properties of a trace *)

(** "restore [OriginalConfiguration] via the adapter ..., then emit
    'finish'": whenever 'finish' is emitted, the restoring request has
    been sent. *)
Definition finish_after_restore (originalMemorySize : Z) (tr : trace) : Prop :=
  forall pre post,
    tr = pre ++ Emit EvFinish :: post ->
    Call (UpdateFunctionConfiguration originalMemorySize) ∈ pre.

(** "perform exactly one extra invocation ..., emit a 'warmup' event":
    whenever 'warmup' is emitted, invocation 0 has been sent. *)
Definition warmup_event_after_invocation (tr : trace) : Prop :=
  forall pre post,
    tr = pre ++ Emit EvWarmup :: post ->
    exists p, Call (Invoke 0 p) ∈ pre.

(** "Warm-up is skipped entirely when concurrency > 1": no wait of a
    positive length happens. *)
Definition no_positive_delay (tr : trace) : Prop :=
  forall ms, Delay ms ∈ tr -> ms = 0.

(** "with a pacing delay observed before each": the action just before
    an invocation is sent is a wait of [ms]. *)
Definition delay_before_each (ms : Z) (tr : trace) : Prop :=
  forall pre i p post,
    tr = pre ++ Call (Invoke i p) :: post ->
    exists pre', pre = pre' ++ [Delay ms].

(** "Collect all non-null durations into a CycleSample": in a run of one
    step, the report announced is the reduction of the durations observed
    that are not null. *)
Definition non_null (cycleResult : list duration) : list duration :=
  filter (fun d => is_Some d) cycleResult.

Definition reduced_without_nulls (percentile : Z -> list duration -> Rank)
    (tr : trace) : Prop :=
  reports tr = [_parseCycleResult percentile (non_null (observed tr))].

(** "the run fails with [NoMeasurableInvocationsError]": at least, it fails. *)
Definition fails {A} (o : outcome Err A) : Prop := exists e, o = Rejected e.

End Model.

(** ** A small world to run the model in

    Responses are their decoded log tail, the memory size found at the
    start is 512, answers depend on the index of the invocation and on the
    memory size asked for only, the running mapper resumed is the one that
    was resumed longest ago, a queued item is started last-first as
    Bluebird 3 does, stray mappers go on before the run does, and
    [percentile] is the nearest-rank method. *)

Inductive error : Type :=
  | InvocationError
  | ConfigurationUpdateError
  | Combined (original later : error).

(** [carries original e]: the error [e] is [original] or wraps it. *)
Fixpoint carries (original e : error) : bool :=
  match e with
  | Combined a b => carries original a || carries original b
  | InvocationError =>
      match original with InvocationError => true | _ => false end
  | ConfigurationUpdateError =>
      match original with ConfigurationUpdateError => true | _ => false end
  end.

(** "surface a combined/wrapped error rather than silently swallowing the
    original": the run is rejected with an error that carries [original]. *)
Definition surfaces {A} (original : error) (o : outcome error A) : Prop :=
  exists e, o = Rejected e /\ carries original e = true.

Fixpoint insert_by_value (x : duration) (l : list duration) : list duration :=
  match l with
  | [] => [x]
  | y :: l' =>
      if number_leb (ToNumber x) (ToNumber y) then x :: l
      else y :: insert_by_value x l'
  end.

Definition nearest_rank (p : Z) (l : list duration) : duration :=
  let sorted := foldr insert_by_value [] l in
  let k := (Z.of_nat (length l) * p + 99) / 100 - 1 in
  default None (sorted !! Z.to_nat k).

Definition sample_world (inv : nat -> outcome error js_string)
    (upd : Z -> outcome error unit)
    : @world js_string unit error duration :=
  {| getFunctionConfiguration := fun _ => Fulfilled 512;
     updateFunctionConfiguration := fun _ m => upd m;
     invoke := fun _ i _ => inv i;
     LogResult := fun response => response;
     percentile := nearest_rank;
     next_ready := fun _ => 0%nat;
     next_started := fun items => pred (length items);
     stray_first := fun _ => true |}.

Definition sample_options (steps : list Z) (repeats concurrency : nat)
    (warmup : bool) (delay : Z) : @options unit :=
  {| steps := steps; repeats := repeats; concurrency := concurrency;
     warmup := warmup; delay := delay; payload := Value tt |}.

(** Every invocation takes 100.5 ms and every request succeeds. *)
Definition steady_world : @world js_string unit error duration :=
  sample_world (fun _ => Fulfilled (sample_log "100.5"))
               (fun _ => Fulfilled ()).

(** Invocation 1 is answered without a REPORT line, the others take 5 ms. *)
Definition first_unmeasured_world : @world js_string unit error duration :=
  sample_world (fun i => if decide (i = 1%nat) then Fulfilled sample_preamble
                         else Fulfilled (sample_log "5.00"))
               (fun _ => Fulfilled ()).

(** No invocation is answered with a REPORT line. *)
Definition unmeasured_world : @world js_string unit error duration :=
  sample_world (fun _ => Fulfilled sample_preamble) (fun _ => Fulfilled ()).

(** The REPORT line of every answer has a duration that is no numeral. *)
Definition malformed_world : @world js_string unit error duration :=
  sample_world (fun _ => Fulfilled (sample_log "1.2.3"))
               (fun _ => Fulfilled ()).

(** Invocation 2 fails. *)
Definition failing_world : @world js_string unit error duration :=
  sample_world (fun i => if decide (i = 2%nat) then Rejected InvocationError
                         else Fulfilled (sample_log "100.5"))
               (fun _ => Fulfilled ()).

(** Invocation 2 fails, and so does setting the memory size back to 512. *)
Definition twice_failing_world : @world js_string unit error duration :=
  sample_world (fun i => if decide (i = 2%nat) then Rejected InvocationError
                         else Fulfilled (sample_log "100.5"))
               (fun m => if decide (m = 512) then Rejected ConfigurationUpdateError
                         else Fulfilled ()).

(** The memory size cannot be read. *)
Definition unreadable_world : @world js_string unit error duration :=
  {| getFunctionConfiguration := fun _ => Rejected ConfigurationUpdateError;
     updateFunctionConfiguration := fun _ _ => Fulfilled ();
     invoke := fun _ _ _ => Fulfilled (sample_log "100.5");
     LogResult := fun response => response;
     percentile := nearest_rank;
     next_ready := fun _ => 0%nat;
     next_started := fun items => pred (length items);
     stray_first := fun _ => true |}.

(** The memory size cannot be set to 256. *)
Definition unconfigurable_world : @world js_string unit error duration :=
  sample_world (fun _ => Fulfilled (sample_log "100.5"))
               (fun m => if decide (m = 256) then Rejected ConfigurationUpdateError
                         else Fulfilled ()).

(** * More ways to read a report and a trace *)

(** What [_invokeLambda] can resolve to, with the duration as an integer:
    [reading] is the value the reducer is given for it, [millis] the integer
    it counts as there. *)
Definition reading (d : option Z) : duration :=
  match d with
  | Some z => sample z
  | None => None
  end.

Definition millis (d : option Z) : Z := default 0 d.

Section Readings.

Context {Response Payload Err Rank : Type}.

(** The payload [_invokeLambda(i)] sends: [this.payload(i)] when
    [this.payload] is a function, [this.payload] otherwise. *)
Definition payload_of (this : @options Payload) (i : nat) : Payload :=
  match payload this with
  | Function f => f i
  | Value p => p
  end.

(** An action that mentions an invocation mentions it with the payload of
    its index. *)
Definition payload_by_index (this : @options Payload)
    (a : @action Response Payload Err Rank) : Prop :=
  match a with
  | Call (Invoke i q) | Settled (Invoke i q) _ => q = payload_of this i
  | _ => True
  end.

(** The indices of the invocations answered, with a response or an error. *)
Definition settlements (tr : @trace Response Payload Err Rank) : list nat :=
  omap (fun a => match a with Settled (Invoke i _) _ => Some i | _ => None end) tr.

(** The items of the mappers that have not sent their invocation yet, and
    of those that wait for the answer to it. *)
Definition delaying (running : list (@task Payload)) : list nat :=
  omap (fun t : @task Payload =>
          match t.2 with Delaying | Sending => Some t.1 | _ => None end)
       running.

Definition invoking (running : list (@task Payload)) : list nat :=
  omap (fun t : @task Payload =>
          match t.2 with Invoking _ => Some t.1 | _ => None end)
       running.

(** What one mapper adds to the trace when it is not interrupted: its wait,
    its invocation, the answer and the 'invoke' event. *)
Definition round (w : @world Response Payload Err Rank)
    (this : @options Payload) (jr : nat * Response)
    : @trace Response Payload Err Rank :=
  [Delay (if (concurrency this =? 1)%nat then delay this else 0);
   Call (Invoke (jr.1 + 1) (payload_of this (jr.1 + 1)));
   Settled (Invoke (jr.1 + 1) (payload_of this (jr.1 + 1)))
     (Fulfilled (Invoked jr.2));
   Emit (EvInvoke (duration_of w jr.2))].

(** What holds of the pool of a map over [count] items and of what has
    happened since the map began, whenever a mapper is about to be resumed. *)

(** Every item has had its invocation sent, or waits for it, and never both. *)
Definition sent_or_waiting (count : nat) (p : @pool Payload)
    (suf : @trace Response Payload Err Rank) : Prop :=
  attempts suf
  ++ ((fun i => (i + 1)%nat) <$> (queue p ++ delaying (inflight p)))
  ≡ₚ seq 1 count.

(** The results stored are the durations announced, the others are null. *)
Definition announced_or_pending (p : @pool Payload)
    (suf : @trace Response Payload Err Rank) : Prop :=
  NoDup (pending p)
  /\ (forall i, i ∈ pending p -> values p !! i = Some None)
  /\ observed suf ++ replicate (length (pending p)) None ≡ₚ values p.

(** No more than [limit] mappers run, the invocations not yet answered are
    those of running mappers, and it has been so all along. *)
Definition within_limit (limit : nat) (p : @pool Payload)
    (suf : @trace Response Payload Err Rank) : Prop :=
  (length (inflight p) <= limit)%nat
  /\ length (attempts suf)
     = (length (settlements suf) + length (invoking (inflight p)))%nat
  /\ forall pre post,
       suf = pre ++ post ->
       (length (attempts pre) <= length (settlements pre) + limit)%nat.

(** Every invocation was sent with the payload of its index. *)
Definition payloads_by_index (this : @options Payload) (p : @pool Payload)
    (suf : @trace Response Payload Err Rank) : Prop :=
  Forall (payload_by_index this) suf
  /\ Forall (fun t : @task Payload =>
               match t.2 with
               | Invoking q => q = payload_of this (t.1 + 1)
               | _ => True
               end) (inflight p).

(** The events of one step of the sweep whose cycle announced the durations
    [c.1] and resolved to the results [c.2]. *)
Definition step_events (w : @world Response Payload Err Rank)
    (this : @options Payload) (memoryStep : Z)
    (c : list duration * list duration) : list (@event Rank) :=
  EvStep memoryStep
  :: (if warmup this && (concurrency this =? 1)%nat then [EvWarmup] else [])
  ++ (EvInvoke <$> c.1)
  ++ [EvResult (_parseCycleResult (percentile w) c.2)].

(** [Object.assign(report, { [memoryStep]: parsedResult })], step after step. *)
Definition assign_all (report : gmap Z (@StepReport Rank))
    (entries : list (Z * @StepReport Rank)) : gmap Z (@StepReport Rank) :=
  foldl (fun acc mr => <[mr.1 := mr.2]> acc) report entries.

End Readings.

(** * Facts about doubles *)

Section DoubleFacts.

Lemma Qred_inject_Z (z : Z) : Qred (inject_Z z) = inject_Z z.
Proof.
  unfold Qred, inject_Z.
  pose proof (Z.ggcd_gcd z 1) as Hg.
  pose proof (Z.ggcd_correct_divisors z 1) as Hd.
  destruct (Z.ggcd z 1) as [g [a b]]. simpl in *.
  rewrite Z.gcd_1_r in Hg. subst g. destruct Hd as [-> Hb].
  rewrite Z.mul_1_l in Hb. subst b. by rewrite Z.mul_1_l.
Qed.

Lemma pow2_pos (k : Z) : (0 < 2 ^ k)%Q.
Proof. by apply Qpower_0_lt. Qed.

Lemma pow2_add (a b : Z) : (2 ^ (a + b) == 2 ^ a * 2 ^ b)%Q.
Proof. by apply Qpower_plus. Qed.

Lemma pow2_Z (k : Z) : 0 <= k -> (2 ^ k == inject_Z (2 ^ k))%Q.
Proof. intros Hk. by rewrite Zpower_Qpower. Qed.

Lemma inject_Z_pos (z : Z) : 0 < z -> (0 < inject_Z z)%Q.
Proof. intros Hz. change 0%Q with (inject_Z 0). by rewrite <- Zlt_Qlt. Qed.

(** The floor of a number between an integer and the next. *)
Lemma Qfloor_between (x : Q) (z : Z) :
  (inject_Z z <= x)%Q -> (x < inject_Z z + 1)%Q -> Qfloor x = z.
Proof.
  intros Hlo Hhi.
  assert (z <= Qfloor x) as H1.
  { rewrite <- (Qfloor_Z z). by apply Qfloor_resp_le. }
  assert (Qfloor x < z + 1) as H2.
  { rewrite Zlt_Qlt, inject_Z_plus. change (inject_Z 1) with 1%Q.
    pose proof (Qfloor_le x). lra. }
  lia.
Qed.

(** Rounding to the nearest integer does not cross an integer. *)
Lemma round_half_even_ge (t : Q) (a : Z) :
  (inject_Z a <= t)%Q -> a <= round_half_even t.
Proof.
  intros Ha. unfold round_half_even.
  assert (a <= Qfloor t).
  { rewrite <- (Qfloor_Z a). by apply Qfloor_resp_le. }
  destruct (t - inject_Z (Qfloor t) ?= 1 # 2)%Q; [destruct (Z.even _)| |]; lia.
Qed.

Lemma round_half_even_le (t : Q) (b : Z) :
  (t <= inject_Z b)%Q -> round_half_even t <= b.
Proof.
  intros Hb. unfold round_half_even.
  pose proof (Qfloor_le t) as Hfloor.
  assert (Qfloor t <= b) as Hle.
  { rewrite <- (Qfloor_Z b). by apply Qfloor_resp_le. }
  destruct (Z.eq_dec (Qfloor t) b) as [Heq|Hne].
  - rewrite Heq in *.
    destruct (Qcompare_spec (t - inject_Z b) (1 # 2)) as [H|H|H]; [lra|lia|lra].
  - destruct (t - inject_Z (Qfloor t) ?= 1 # 2)%Q; [destruct (Z.even _)| |]; lia.
Qed.

(** [binade q] is the exponent of [q]. *)
Lemma binade_spec (q : Q) :
  (0 < q)%Q -> (2 ^ binade q <= q /\ q < 2 ^ (binade q + 1))%Q.
Proof.
  intros Hq. unfold binade. destruct q as [n d].
  assert (0 < n) as Hn.
  { unfold Qlt in Hq. simpl in Hq. lia. }
  cbn [Qnum Qden].
  set (a := Z.log2 n). set (b := Z.log2 (Z.pos d)).
  destruct (Z.log2_spec n Hn) as [Ha1 Ha2]. fold a in Ha1, Ha2.
  destruct (Z.log2_spec (Z.pos d) eq_refl) as [Hb1 Hb2]. fold b in Hb1, Hb2.
  assert (0 <= a) as Ha0 by apply Z.log2_nonneg.
  assert (0 <= b) as Hb0 by apply Z.log2_nonneg.
  assert (n # d == inject_Z n / inject_Z (Z.pos d))%Q as Hq'
    by apply Qmake_Qdiv.
  assert (0 < inject_Z (Z.pos d))%Q as Hd by (by apply inject_Z_pos).
  assert (inject_Z (2 ^ a) <= inject_Z n)%Q as Qa1 by (by rewrite <- Zle_Qle).
  assert (inject_Z n < inject_Z (2 ^ Z.succ a))%Q as Qa2
    by (by rewrite <- Zlt_Qlt).
  assert (inject_Z (2 ^ b) <= inject_Z (Z.pos d))%Q as Qb1
    by (by rewrite <- Zle_Qle).
  assert (inject_Z (Z.pos d) < inject_Z (2 ^ Z.succ b))%Q as Qb2
    by (by rewrite <- Zlt_Qlt).
  rewrite <- pow2_Z in Qa1, Qa2, Qb1, Qb2 by lia.
  assert (2 ^ (a - b) * 2 ^ b == 2 ^ a)%Q as E1.
  { rewrite <- pow2_add. by replace (a - b + b) with a by lia. }
  assert (2 ^ (a - b - 1) * 2 ^ Z.succ b == 2 ^ a)%Q as E2.
  { rewrite <- pow2_add. by replace (a - b - 1 + Z.succ b) with a by lia. }
  assert (2 ^ (a - b + 1) * 2 ^ b == 2 ^ Z.succ a)%Q as E3.
  { rewrite <- pow2_add. by replace (a - b + 1 + b) with (Z.succ a) by lia. }
  pose proof (pow2_pos (a - b)) as P1. pose proof (pow2_pos (a - b - 1)) as P2.
  pose proof (pow2_pos (a - b + 1)) as P3. pose proof (pow2_pos b) as P4.
  pose proof (pow2_pos (Z.succ b)) as P5.
  destruct (Qle_bool (2 ^ (a - b)) (n # d)) eqn:Htest.
  - apply Qle_bool_iff in Htest. split; [done|].
    rewrite Hq'. apply Qlt_shift_div_r; [done|].
    apply Qlt_le_trans with (2 ^ Z.succ a)%Q; [done|].
    rewrite <- E3. apply Qmult_le_l; [done|done].
  - assert (n # d < 2 ^ (a - b))%Q as Hlt.
    { apply Qnot_le_lt. intros H. apply Qle_bool_iff in H. congruence. }
    split.
    + rewrite Hq'. apply Qle_shift_div_l; [done|].
      apply Qle_trans with (2 ^ a)%Q; [|done].
      rewrite <- E2. apply Qmult_le_l; [done|]. by apply Qlt_le_weak.
    + by replace (a - b - 1 + 1) with (a - b) by lia.
Qed.

Lemma binade_lt (q : Q) (c : Z) : (0 < q)%Q -> (q < 2 ^ c)%Q -> binade q < c.
Proof.
  intros Hq Hc. destruct (binade_spec q Hq) as [Hlo _].
  apply (Qpower_lt_compat_l_inv 2); [|done].
  by apply Qle_lt_trans with q.
Qed.

Lemma to_double_zero (q : Q) : (q == 0)%Q -> to_double q = Num 0%Q.
Proof. intros Hq. unfold to_double. by apply Qeq_alt in Hq as ->. Qed.

(** A positive number between two multiples of [2^-j] that are doubles is
    rounded to a double between them. *)
Lemma to_double_between (q : Q) (j c1 c2 : Z) :
  (0 < q)%Q -> 0 <= j <= 1074 -> c2 < 2 ^ 53 ->
  (inject_Z c1 / 2 ^ j <= q)%Q -> (q <= inject_Z c2 / 2 ^ j)%Q ->
  exists q', to_double q = Num (Qred q')
             /\ (inject_Z c1 / 2 ^ j <= q')%Q /\ (q' <= inject_Z c2 / 2 ^ j)%Q.
Proof.
  intros Hq Hj Hc2 Hlo Hhi. unfold to_double.
  destruct (Qcompare_spec q 0) as [H|H|_]; [lra|lra|].
  assert (Qabs q == q)%Q as Habs by (apply Qabs_pos; lra).
  assert (0 < Qabs q)%Q as Hapos by lra.
  set (k := Z.max (binade (Qabs q)) (-1022) - 52).
  assert (k <= - j) as Hk.
  { assert (binade (Qabs q) < 53 - j); [|lia].
    apply binade_lt; [done|]. rewrite Habs.
    apply Qle_lt_trans with (inject_Z c2 / 2 ^ j)%Q; [done|].
    apply Qlt_shift_div_r; [apply pow2_pos|].
    rewrite <- pow2_add. replace (53 - j + j) with 53 by lia.
    rewrite pow2_Z by lia. by rewrite <- Zlt_Qlt. }
  pose proof (pow2_pos k) as Hu. pose proof (pow2_pos j) as Hpj.
  assert (forall c : Z,
            inject_Z c / 2 ^ j == inject_Z (c * 2 ^ (- j - k)) * 2 ^ k)%Q
    as Hmult.
  { intros c. rewrite inject_Z_mult, <- pow2_Z by lia.
    apply Qmult_inj_r with (2 ^ j)%Q; [lra|].
    rewrite <- !Qmult_assoc, <- !pow2_add.
    replace (- j - k + (k + j)) with 0 by lia.
    field. lra. }
  set (m := round_half_even (Qabs q / 2 ^ k)).
  assert (c1 * 2 ^ (- j - k) <= m) as Hm1.
  { apply round_half_even_ge. apply Qle_shift_div_l; [done|].
    by rewrite <- Hmult, Habs. }
  assert (m <= c2 * 2 ^ (- j - k)) as Hm2.
  { apply round_half_even_le. apply Qle_shift_div_r; [done|].
    by rewrite <- Hmult, Habs. }
  assert (inject_Z c1 / 2 ^ j <= inject_Z m * 2 ^ k)%Q as Hv1.
  { rewrite Hmult. apply Qmult_le_r; [done|]. by rewrite <- Zle_Qle. }
  assert (inject_Z m * 2 ^ k <= inject_Z c2 / 2 ^ j)%Q as Hv2.
  { rewrite (Hmult c2). apply Qmult_le_r; [done|]. by rewrite <- Zle_Qle. }
  destruct (Qle_bool (2 ^ 1024) (inject_Z m * 2 ^ k)) eqn:Hover.
  { exfalso. apply Qle_bool_iff in Hover.
    assert (inject_Z c2 / 2 ^ j < 2 ^ 1024)%Q; [|lra].
    apply Qlt_shift_div_r; [done|].
    apply Qlt_le_trans with (2 ^ 53)%Q.
    - rewrite pow2_Z by lia. by rewrite <- Zlt_Qlt.
    - rewrite <- pow2_add. apply Qpower_le_compat_l; [lia|lra]. }
  by eexists.
Qed.

(** A natural number below [2^53] is a double. *)
Lemma to_double_integer (q : Q) (z : Z) :
  (q == inject_Z z)%Q -> 0 <= z < 2 ^ 53 -> to_double q = Num (inject_Z z).
Proof.
  intros Hq [Hz0 Hz]. destruct (Z.eq_dec z 0) as [->|Hne].
  { by apply to_double_zero. }
  assert (forall x : Q, x / 2 ^ 0 == x)%Q as Hone.
  { intros x. change (2 ^ 0)%Q with 1%Q. field. }
  destruct (to_double_between q 0 z z) as (q' & -> & Hlo & Hhi);
    try done; try lia.
  - rewrite Hq. apply inject_Z_pos. lia.
  - rewrite Hq, Hone. apply Qle_refl.
  - rewrite Hq, Hone. apply Qle_refl.
  - rewrite Hone in Hlo, Hhi.
    assert (q' == inject_Z z)%Q as Heq by lra.
    by rewrite (Qred_complete _ _ Heq), Qred_inject_Z.
Qed.

(** What is not negative is rounded to what is not negative. *)
Lemma to_double_nonneg (q : Q) :
  (0 <= q)%Q ->
  to_double q = PosInfinity
  \/ exists q', to_double q = Num q' /\ (0 <= q')%Q.
Proof.
  intros Hq. unfold to_double.
  destruct (Qcompare_spec q 0) as [H|H|H]; [right; by exists 0%Q|lra|].
  destruct (Qle_bool _ _); [by left|right].
  eexists. split; [done|]. rewrite Qred_correct.
  apply Qmult_le_0_compat; [|apply Qlt_le_weak, pow2_pos].
  change 0%Q with (inject_Z 0). rewrite <- Zle_Qle.
  apply round_half_even_ge. change (inject_Z 0) with 0%Q.
  apply Qle_shift_div_l; [apply pow2_pos|]. rewrite Qmult_0_l.
  apply Qabs_nonneg.
Qed.

End DoubleFacts.

(** * Facts about [Number] *)

Section NumberFacts.

Lemma many_split (class : N -> bool) (s : js_string) :
  s = (many class s).1 ++ (many class s).2
  /\ forallb class (many class s).1 = true.
Proof.
  induction s as [|c s [IH1 IH2]]; simpl; [done|].
  destruct (class c) eqn:E; [|done].
  destruct (many class s) as [m rest]. simpl in *. by rewrite E, <- IH1.
Qed.

Lemma decimal_nonneg (digits : js_string) :
  forallb digit digits = true -> 0 <= decimal digits.
Proof.
  unfold decimal.
  assert (forall acc, 0 <= acc -> forallb digit digits = true ->
            0 <= foldl (fun acc c => 10 * acc + (Z.of_N c - 48)) acc digits)
    as H; [|by apply H].
  induction digits as [|c digits IH]; intros acc Hacc; simpl; [done|].
  intros [Hc Hds]%andb_true_iff. apply IH; [|done].
  unfold digit in Hc. apply andb_true_iff in Hc as [Hc _].
  apply N.leb_le in Hc. lia.
Qed.

(** A text of digits and points reads as [NaN], as [Infinity] when its
    value is too large for a double, or as a number that is not negative. *)
Lemma Number_nonneg (text : js_string) :
  Number text = NaN \/ Number text = PosInfinity
  \/ exists q, Number text = Num q /\ (0 <= q)%Q.
Proof.
  unfold Number. destruct (many_split digit text) as [_ Hwhole].
  destruct (many digit text) as [whole [|c fraction]]; simpl in Hwhole.
  - right. destruct whole as [|c whole']; [right; by exists 0%Q|].
    apply to_double_nonneg.
    change 0%Q with (inject_Z 0). rewrite <- Zle_Qle.
    by apply decimal_nonneg.
  - destruct ((c =? 46)%N && forallb digit fraction
              && negb (bool_decide (whole = []) && bool_decide (fraction = [])))
      eqn:E; [|by left].
    right. apply to_double_nonneg.
    apply andb_true_iff in E as [[_ Hfraction]%andb_true_iff _].
    apply Qle_shift_div_l.
    + change 0%Q with (inject_Z 0). rewrite <- Zlt_Qlt.
      apply Z.pow_pos_nonneg; lia.
    + rewrite Qmult_0_l. change 0%Q with (inject_Z 0). rewrite <- Zle_Qle.
      apply decimal_nonneg. by rewrite forallb_app, Hwhole, Hfraction.
Qed.

(** So what [_invokeLambda] makes of the second group is [NaN],
    [Infinity] or a natural number. *)
Lemma round_of_Number (text : js_string) :
  Math_round (Number text) = NaN
  \/ Math_round (Number text) = PosInfinity
  \/ exists z : Z, 0 <= z /\ Math_round (Number text) = Num (inject_Z z).
Proof.
  destruct (Number_nonneg text) as [->|[->|(q & -> & Hq)]];
    [by left|right; by left|].
  right. right. eexists. split; [|done].
  assert (0 <= q + (1 # 2))%Q as Hhalf by lra.
  apply Qfloor_resp_le in Hhalf. exact Hhalf.
Qed.

End NumberFacts.

(** * Facts about the statistics *)

Section ReducerFacts.

Context {Rank : Type}.
Variable percentile : Z -> list duration -> Rank.

Lemma exact_sum_nonneg (samples : list Z) :
  Forall (fun z => 0 <= z) samples -> 0 <= exact_sum samples.
Proof. induction 1; simpl; lia. Qed.

Lemma exact_sum_ge (samples : list Z) (x : Z) :
  Forall (fun z => 0 <= z) samples -> x ∈ samples -> x <= exact_sum samples.
Proof.
  induction 1 as [|y ys Hy Hys IH]; intros Hx; [inversion Hx|].
  pose proof (exact_sum_nonneg ys Hys).
  apply elem_of_cons in Hx as [->|Hx]; simpl; [lia|].
  specialize (IH Hx). lia.
Qed.

(** The running sum of natural numbers is exact as long as it stays below
    [2^53]. *)
Lemma sum_of_samples (samples : list Z) (acc : Z) :
  Forall (fun z => 0 <= z) samples -> 0 <= acc ->
  acc + exact_sum samples < 2 ^ 53 ->
  fold_left (fun acc duration => number_add acc (ToNumber duration))
            (sample <$> samples) (Num (inject_Z acc))
  = Num (inject_Z (acc + exact_sum samples)).
Proof.
  intros Hpos. revert acc.
  induction Hpos as [|x xs Hx Hxs IH]; intros acc Hacc Hsum.
  - simpl. do 2 f_equal; lia.
  - pose proof (exact_sum_nonneg xs Hxs). simpl in Hsum.
    rewrite fmap_cons. cbn [fold_left sample ToNumber number_add].
    rewrite (to_double_integer _ (acc + x));
      [|by rewrite inject_Z_plus|lia].
    rewrite IH by lia. do 2 f_equal. simpl. lia.
Qed.

Lemma Qeq_bool_inject_Z_pos (n : Z) : 0 < n -> Qeq_bool (inject_Z n) 0 = false.
Proof.
  intros Hn. destruct (Qeq_bool (inject_Z n) 0) eqn:E; [|done].
  apply Qeq_bool_iff in E. unfold Qeq, inject_Z in E; simpl in E. lia.
Qed.

(** The average of natural numbers whose sum is below [2^53]: the exact
    mean, rounded to a double and then to an integer. *)
Lemma average_of_samples (samples : list Z) :
  samples <> [] -> Forall (fun z => 0 <= z) samples ->
  exact_sum samples < 2 ^ 53 ->
  _getAverage (sample <$> samples)
  = Math_round (to_double (inject_Z (exact_sum samples)
                           / inject_Z (Z.of_nat (length samples)))).
Proof.
  intros Hne Hpos Hsum. unfold _getAverage.
  change (Num 0%Q) with (Num (inject_Z 0)).
  rewrite sum_of_samples, length_fmap, Z.add_0_l by (done || lia).
  cbn [number_div].
  rewrite Qeq_bool_inject_Z_pos; [done|].
  destruct samples; [done | simpl; lia].
Qed.

(** Two quotients of integers are compared by cross-multiplication. *)
Lemma Qdiv_le_iff (a d s n : Z) :
  0 < d -> 0 < n ->
  (inject_Z a / inject_Z d <= inject_Z s / inject_Z n)%Q <-> a * n <= s * d.
Proof.
  intros Hd Hn. destruct d as [|d|d]; [lia| |lia].
  destruct n as [|n|n]; [lia| |lia].
  rewrite <- !Qmake_Qdiv. unfold Qle. simpl. lia.
Qed.

Lemma Qdiv_lt_iff (a d s n : Z) :
  0 < d -> 0 < n ->
  (inject_Z a / inject_Z d < inject_Z s / inject_Z n)%Q <-> a * n < s * d.
Proof.
  intros Hd Hn. destruct d as [|d|d]; [lia| |lia].
  destruct n as [|n|n]; [lia| |lia].
  rewrite <- !Qmake_Qdiv. unfold Qlt. simpl. lia.
Qed.

Lemma half_below (z : Z) :
  (inject_Z z - (1 # 2) == inject_Z (2 * z - 1) / inject_Z 2)%Q.
Proof.
  unfold Qeq, Qminus, Qplus, Qopp, Qdiv, Qmult, Qinv, inject_Z. simpl. lia.
Qed.

Lemma half_above (z : Z) :
  (inject_Z z + (1 # 2) == inject_Z (2 * z + 1) / inject_Z 2)%Q.
Proof.
  unfold Qeq, Qminus, Qplus, Qopp, Qdiv, Qmult, Qinv, inject_Z. simpl. lia.
Qed.

(** The mean of a small sum is far enough from the next half for the
    rounding to a double not to move it across: with [s + n <= 2^51] the
    integer nearest to the double is the integer nearest to [s / n]. *)
Lemma mean_rounds_once (s n : Z) :
  0 <= s -> 0 < n -> s + n <= 2 ^ 51 ->
  Math_round (to_double (inject_Z s / inject_Z n))
  = Num (inject_Z (Qfloor (inject_Z s / inject_Z n + (1 # 2)))).
Proof.
  intros Hs Hn Hsmall.
  destruct (Z.eq_dec s 0) as [->|Hs0].
  { rewrite to_double_zero by (unfold Qdiv; apply Qmult_0_l).
    cbn [Math_round]. do 2 f_equal. apply Qfloor_comp.
    unfold Qdiv. by rewrite Qmult_0_l. }
  set (q := (inject_Z s / inject_Z n)%Q).
  set (z := Qfloor (q + (1 # 2))).
  pose proof (Qfloor_le (q + (1 # 2))) as Hlo.
  pose proof (Qlt_floor (q + (1 # 2))) as Hhi.
  rewrite inject_Z_plus in Hhi. change (inject_Z 1) with 1%Q in Hhi.
  fold z in Hlo, Hhi.
  assert ((2 * z - 1) * n <= s * 2) as Zlo.
  { apply Qdiv_le_iff; [lia|done|]. rewrite <- half_below. fold q. lra. }
  assert (s * 2 < (2 * z + 1) * n) as Zhi.
  { apply Qdiv_lt_iff; [done|lia|]. rewrite <- half_above. fold q. lra. }
  assert (0 <= z) as Hz by nia.
  set (j := Z.log2_up (2 * n)).
  destruct (Z.log2_up_spec (2 * n)) as [Hj1 Hj2]; [lia|]. fold j in Hj1, Hj2.
  assert (0 < j) as Hj by (apply Z.log2_up_pos; lia).
  set (P := 2 ^ (j - 1)).
  replace (Z.pred j) with (j - 1) in Hj1 by lia. fold P in Hj1.
  assert (2 ^ j = 2 * P) as HP.
  { unfold P. rewrite <- Z.pow_succ_r by lia. f_equal. lia. }
  rewrite HP in Hj2.
  assert (0 < P) as HPpos by (apply Z.pow_pos_nonneg; lia).
  assert (j - 1 < 52) as Hj52.
  { apply (Z.pow_lt_mono_r_iff 2); [lia|lia|].
    fold P. change (2 ^ 52) with (2 * 2 ^ 51). lia. }
  assert (2 ^ j == inject_Z (2 * P))%Q as HQ.
  { rewrite pow2_Z by lia. by rewrite HP. }
  set (c1 := (2 * z - 1) * P). set (c2 := (2 * z + 1) * P - 1).
  assert ((2 * z + 1) * P <= (2 * z + 1) * (2 * n - 1)) as Hprod by nia.
  destruct (to_double_between q j c1 c2) as (q' & -> & H1 & H2).
  - unfold q. apply Qlt_shift_div_l; [by apply inject_Z_pos|].
    rewrite Qmult_0_l. apply inject_Z_pos. lia.
  - lia.
  - unfold c2. change (2 ^ 53) with (4 * 2 ^ 51). nia.
  - rewrite HQ. apply Qdiv_le_iff; [lia|done|]. unfold c1. nia.
  - rewrite HQ. apply Qdiv_le_iff; [done|lia|]. unfold c2. nia.
  - cbn [Math_round]. do 2 f_equal. apply Qfloor_between.
    + rewrite Qred_correct.
      assert (inject_Z z - (1 # 2) <= inject_Z c1 / 2 ^ j)%Q; [|lra].
      rewrite half_below, HQ. apply Qdiv_le_iff; [lia|lia|]. unfold c1. lia.
    + rewrite Qred_correct.
      assert (inject_Z c2 / 2 ^ j < inject_Z z + (1 # 2))%Q; [|lra].
      rewrite half_above, HQ. apply Qdiv_lt_iff; [lia|lia|]. unfold c2. lia.
Qed.

(** The mean of numbers between two naturals below [2^53] is rounded to a
    double, and then to an integer, between them. *)
Lemma mean_between (s n lo hi : Z) :
  0 <= lo -> hi < 2 ^ 53 -> 0 < n -> lo * n <= s <= hi * n ->
  exists z : Z,
    Math_round (to_double (inject_Z s / inject_Z n)) = Num (inject_Z z)
    /\ lo <= z <= hi.
Proof.
  intros Hlo Hhi Hn [Hs1 Hs2].
  destruct (Z.eq_dec s 0) as [->|Hs0].
  { rewrite to_double_zero by (unfold Qdiv; apply Qmult_0_l).
    exists 0. split; [done|]. nia. }
  assert (forall x : Q, x / 2 ^ 0 == x)%Q as Hone.
  { intros x. change (2 ^ 0)%Q with 1%Q. field. }
  assert (0 < inject_Z n)%Q as Hn' by (by apply inject_Z_pos).
  destruct (to_double_between (inject_Z s / inject_Z n) 0 lo hi)
    as (q' & -> & H1 & H2).
  - apply Qlt_shift_div_l; [done|]. rewrite Qmult_0_l.
    apply inject_Z_pos. nia.
  - lia.
  - done.
  - rewrite Hone. apply Qle_shift_div_l; [done|].
    rewrite <- inject_Z_mult. by rewrite <- Zle_Qle.
  - rewrite Hone. apply Qle_shift_div_r; [done|].
    rewrite <- inject_Z_mult. by rewrite <- Zle_Qle.
  - rewrite Hone in H1, H2. eexists. split; [done|].
    split.
    + rewrite <- (Qfloor_Z lo). apply Qfloor_resp_le.
      rewrite Qred_correct. lra.
    + assert (Qfloor (Qred q' + (1 # 2)) < hi + 1); [|lia].
      rewrite Zlt_Qlt, inject_Z_plus. change (inject_Z 1) with 1%Q.
      pose proof (Qfloor_le (Qred q' + (1 # 2))) as Hf.
      pose proof (Qred_correct q') as Hred. lra.
Qed.

(** C6: for a non-empty sequence of natural samples whose sum and count
    add up to [2^51] at most, the [avg] of the report is an integer [z]
    with [z - 1/2 <= sum / count < z + 1/2], where the sum is the exact
    one: the mean is rounded to the nearest integer, a half going up.  The
    code rounds the quotient to a double before [Math.round]; within the
    bound that first rounding does not change the integer. *)
Theorem avg_rounds_exact_mean_half_up (samples : list Z) :
  samples <> [] -> Forall (fun z => 0 <= z) samples ->
  exact_sum samples + Z.of_nat (length samples) <= 2 ^ 51 ->
  exists z : Z,
    avg (_parseCycleResult percentile (sample <$> samples)) = Num (inject_Z z)
    /\ (inject_Z z - (1 # 2)
        <= inject_Z (exact_sum samples) / inject_Z (Z.of_nat (length samples)))%Q
    /\ (inject_Z (exact_sum samples) / inject_Z (Z.of_nat (length samples))
        < inject_Z z + (1 # 2))%Q.
Proof.
  intros Hne Hpos Hsmall. cbn [avg _parseCycleResult].
  pose proof (exact_sum_nonneg samples Hpos) as Hsum.
  assert (0 < Z.of_nat (length samples)) as Hlen.
  { destruct samples; [done | simpl; lia]. }
  rewrite average_of_samples;
    [|done|done|change (2 ^ 53) with (4 * 2 ^ 51); lia].
  rewrite mean_rounds_once by (done || lia).
  set (q := (inject_Z (exact_sum samples)
             / inject_Z (Z.of_nat (length samples)))%Q).
  exists (Qfloor (q + (1 # 2))). split; [done|].
  pose proof (Qfloor_le (q + (1 # 2))) as Hlo.
  pose proof (Qlt_floor (q + (1 # 2))) as Hhi.
  rewrite inject_Z_plus in Hhi. change (inject_Z 1) with 1%Q in Hhi.
  split; lra.
Qed.

Lemma Math_min_from (samples : list Z) (m : Z) :
  fold_left
    (fun lowest x =>
       match lowest, x with
       | NaN, _ | _, NaN => NaN
       | _, _ => if number_ltb x lowest then x else lowest
       end)
    (ToNumber <$> (sample <$> samples)) (Num (inject_Z m))
  = Num (inject_Z (fold_left Z.min samples m)).
Proof.
  revert m; induction samples as [|x xs IH]; intros m; simpl; [done|].
  rewrite <- IH. f_equal.
  destruct (Qle_bool (inject_Z m) (inject_Z x)) eqn:E; simpl.
  - apply Qle_bool_iff in E. rewrite <- Zle_Qle in E.
    by rewrite Z.min_l.
  - assert (~ (m <= x)) as Hgt.
    { intros Hle. rewrite Zle_Qle in Hle. apply Qle_bool_iff in Hle.
      congruence. }
    by rewrite Z.min_r by lia.
Qed.

Lemma Math_max_from (samples : list Z) (m : Z) :
  fold_left
    (fun highest x =>
       match highest, x with
       | NaN, _ | _, NaN => NaN
       | _, _ => if number_ltb highest x then x else highest
       end)
    (ToNumber <$> (sample <$> samples)) (Num (inject_Z m))
  = Num (inject_Z (fold_left Z.max samples m)).
Proof.
  revert m; induction samples as [|x xs IH]; intros m; simpl; [done|].
  rewrite <- IH. f_equal.
  destruct (Qle_bool (inject_Z x) (inject_Z m)) eqn:E; simpl.
  - apply Qle_bool_iff in E. rewrite <- Zle_Qle in E.
    by rewrite Z.max_l.
  - assert (~ (x <= m)) as Hgt.
    { intros Hle. rewrite Zle_Qle in Hle. apply Qle_bool_iff in Hle.
      congruence. }
    by rewrite Z.max_r by lia.
Qed.

Lemma fold_min_lower_bound (samples : list Z) (m : Z) :
  fold_left Z.min samples m <= m
  /\ forall x, x ∈ samples -> fold_left Z.min samples m <= x.
Proof.
  revert m; induction samples as [|y ys IH]; intros m; simpl.
  - split; [lia | intros x Hx; inversion Hx].
  - destruct (IH (Z.min m y)) as [H1 H2]. split; [lia|].
    intros x Hx. apply elem_of_cons in Hx as [->|Hx]; [lia | auto].
Qed.

Lemma fold_max_upper_bound (samples : list Z) (m : Z) :
  m <= fold_left Z.max samples m
  /\ forall x, x ∈ samples -> x <= fold_left Z.max samples m.
Proof.
  revert m; induction samples as [|y ys IH]; intros m; simpl.
  - split; [lia | intros x Hx; inversion Hx].
  - destruct (IH (Z.max m y)) as [H1 H2]. split; [lia|].
    intros x Hx. apply elem_of_cons in Hx as [->|Hx]; [lia | auto].
Qed.

Lemma fold_min_ge (samples : list Z) (m b : Z) :
  b <= m -> Forall (fun z => b <= z) samples -> b <= fold_left Z.min samples m.
Proof.
  intros Hm Hall. revert m Hm.
  induction Hall as [|y ys Hy _ IH]; intros m Hm; simpl; [done|].
  apply IH. lia.
Qed.

Lemma fold_max_le (samples : list Z) (m b : Z) :
  m <= b -> Forall (fun z => z <= b) samples -> fold_left Z.max samples m <= b.
Proof.
  intros Hm Hall. revert m Hm.
  induction Hall as [|y ys Hy _ IH]; intros m Hm; simpl; [done|].
  apply IH. lia.
Qed.

Lemma exact_sum_bounds (samples : list Z) (lo hi : Z) :
  (forall x, x ∈ samples -> lo <= x <= hi) ->
  lo * Z.of_nat (length samples) <= exact_sum samples
  <= hi * Z.of_nat (length samples).
Proof.
  induction samples as [|y ys IH]; intros Hb; simpl; [lia|].
  assert (lo <= y <= hi) by (apply Hb; left).
  assert (lo * Z.of_nat (length ys) <= exact_sum ys
          <= hi * Z.of_nat (length ys)).
  { apply IH. intros x Hx. apply Hb. by right. }
  lia.
Qed.

(** C7: for a non-empty sequence of natural samples whose sum is below
    [2^53] the report satisfies [min <= avg <= max], with the comparison of
    JavaScript numbers.  Below that bound the sum is exact and the rounding
    of the quotient stays between the least and the largest sample. *)
Theorem min_le_avg_le_max (samples : list Z) :
  samples <> [] -> Forall (fun z => 0 <= z) samples ->
  exact_sum samples < 2 ^ 53 ->
  let report := _parseCycleResult percentile (sample <$> samples) in
  number_leb (min report) (avg report) = true
  /\ number_leb (avg report) (max report) = true.
Proof.
  intros Hne Hpos Hsum. cbn [min max avg _parseCycleResult].
  rewrite average_of_samples by done.
  destruct samples as [|x xs]; [done|].
  unfold Math_min, Math_max.
  change (ToNumber <$> (sample <$> x :: xs))
    with (Num (inject_Z x) :: (ToNumber <$> (sample <$> xs))).
  cbn [fold_left number_ltb]. rewrite Math_min_from, Math_max_from.
  destruct (fold_min_lower_bound xs x) as [Hm1 Hm2].
  destruct (fold_max_upper_bound xs x) as [HM1 HM2].
  pose proof Hpos as Hpos'. apply Forall_cons in Hpos' as [Hx Hxs].
  destruct (mean_between (exact_sum (x :: xs)) (Z.of_nat (length (x :: xs)))
              (fold_left Z.min xs x) (fold_left Z.max xs x))
    as (z & -> & Hz).
  - by apply fold_min_ge.
  - apply Z.le_lt_trans with (exact_sum (x :: xs)); [|done].
    apply fold_max_le.
    + apply exact_sum_ge; [done|left].
    + apply Forall_forall. intros y Hy. apply exact_sum_ge; [done|by right].
  - simpl length. lia.
  - apply exact_sum_bounds. intros y Hy.
    apply elem_of_cons in Hy as [->|Hy]; [lia|].
    specialize (Hm2 y Hy). specialize (HM2 y Hy). lia.
  - cbn [number_leb]. rewrite !Qle_bool_iff, <- !Zle_Qle. done.
Qed.

(** A [null] in a cycle result counts as a 0 in [min], [max] and [avg]. *)
Lemma as_zero_same_statistics (cycleResult : list duration) :
  min (_parseCycleResult percentile cycleResult)
  = min (_parseCycleResult percentile (as_zero cycleResult))
  /\ max (_parseCycleResult percentile cycleResult)
     = max (_parseCycleResult percentile (as_zero cycleResult))
  /\ avg (_parseCycleResult percentile cycleResult)
     = avg (_parseCycleResult percentile (as_zero cycleResult)).
Proof.
  assert (ToNumber <$> as_zero cycleResult = ToNumber <$> cycleResult) as Hsame.
  { unfold as_zero. rewrite <- list_fmap_compose. by apply list_fmap_ext. }
  cbn [min max avg _parseCycleResult]. rewrite Hsame.
  split; [done|]. split; [done|].
  unfold _getAverage, as_zero. rewrite length_fmap. do 2 f_equal.
  clear Hsame. generalize (Num 0%Q).
  induction cycleResult as [|d l IH]; intros acc; [done|].
  rewrite fmap_cons. cbn [fold_left]. apply IH.
Qed.

Lemma sum_of_nulls (cycleResult : list duration) :
  Forall (fun d => d = None) cycleResult ->
  fold_left (fun acc duration => number_add acc (ToNumber duration))
            cycleResult (Num 0%Q)
  = Num 0%Q.
Proof.
  induction 1 as [|d l -> _ IH]; [done|].
  cbn [fold_left ToNumber number_add].
  by rewrite to_double_zero.
Qed.

(** A cycle result made of [null]s only has 0 for [min], [max] and [avg]. *)
Lemma all_null_statistics (cycleResult : list duration) :
  cycleResult <> [] -> Forall (fun d => d = None) cycleResult ->
  min (_parseCycleResult percentile cycleResult) = Num 0%Q
  /\ max (_parseCycleResult percentile cycleResult) = Num 0%Q
  /\ avg (_parseCycleResult percentile cycleResult) = Num 0%Q.
Proof.
  intros Hne Hall.
  destruct cycleResult as [|d l]; [done|].
  apply Forall_cons in Hall as [-> Hall]. clear Hne.
  cbn [min max avg _parseCycleResult].
  assert (forall f : number -> number -> number,
            f (Num 0%Q) (Num 0%Q) = Num 0%Q ->
            fold_left f (ToNumber <$> l) (Num 0%Q) = Num 0%Q) as Hfold.
  { intros f Hf. induction Hall as [|d' l' -> _ IH]; simpl; [done|].
    rewrite Hf. apply IH. }
  split; [by apply Hfold|]. split; [by apply Hfold|].
  unfold _getAverage.
  rewrite (sum_of_nulls (@cons duration None l)) by (by apply Forall_cons).
  unfold number_div. rewrite Qeq_bool_inject_Z_pos by (simpl length; lia).
  by rewrite to_double_zero by (unfold Qdiv; apply Qmult_0_l).
Qed.

End ReducerFacts.

(** * Facts about cycles and runs *)

Section RunFacts.

Context {Response Payload Err Rank : Type}.
Variable w : @world Response Payload Err Rank.
Variable this : @options Payload.

Local Abbreviation trace := (@trace Response Payload Err Rank).
Local Abbreviation state := (@state Response Payload Err Rank).
Local Abbreviation action := (@action Response Payload Err Rank).

(** ** Picking from a list *)

Lemma pick_Permutation {A} (k : nat) (x y : A) (xs ys : list A) :
  pick k x xs = (y, ys) -> x :: xs ≡ₚ y :: ys.
Proof.
  unfold pick. destruct ((x :: xs) !! k) as [z|] eqn:E; intros [= <- <-].
  - by apply delete_Permutation.
  - done.
Qed.

Lemma pick_singleton {A} (k : nat) (x : A) : pick k x [] = (x, []).
Proof. by destruct k. Qed.

(** ** Reading a concatenation *)

Lemma updates_app (a b : trace) : updates (a ++ b) = updates a ++ updates b.
Proof. apply omap_app. Qed.

Lemma emitted_app (a b : trace) : emitted (a ++ b) = emitted a ++ emitted b.
Proof. apply omap_app. Qed.

Lemma emitted_steps_app (a b : trace) :
  emitted_steps (a ++ b) = emitted_steps a ++ emitted_steps b.
Proof. apply omap_app. Qed.

Lemma reports_app (a b : trace) : reports (a ++ b) = reports a ++ reports b.
Proof. apply omap_app. Qed.

Lemma finishes_app (a b : trace) :
  finishes (a ++ b) = (finishes a + finishes b)%nat.
Proof. unfold finishes. by rewrite omap_app, length_app. Qed.

Lemma attempts_app (a b : trace) : attempts (a ++ b) = attempts a ++ attempts b.
Proof. apply omap_app. Qed.

Lemma responses_of_app (i : nat) (a b : trace) :
  responses_of i (a ++ b) = responses_of i a ++ responses_of i b.
Proof. apply omap_app. Qed.

Lemma rejections_app (a b : trace) :
  rejections (a ++ b) = rejections a ++ rejections b.
Proof. apply omap_app. Qed.

Lemma timed_is_cycle_action (a : action) : timed_action a -> cycle_action a.
Proof. by destruct a as [[]| |[]|[]]. Qed.

(** A cycle sends no configuration request and announces no step, no
    result and no finish. *)
Lemma cycle_actions_silent (tr : trace) :
  Forall cycle_action tr ->
  updates tr = [] /\ emitted_steps tr = [] /\ reports tr = []
  /\ finishes tr = 0%nat.
Proof.
  induction 1 as [|a tr Ha _ (IH1 & IH2 & IH3 & IH4)]; [done|].
  unfold finishes in *.
  destruct a as [[]| |[]|[]]; simpl in *; try done.
Qed.

(** Its timed part sends no invocation 0 and emits no 'warmup'. *)
Lemma timed_actions_no_warmup (tr : trace) :
  Forall timed_action tr -> (0%nat ∉ attempts tr) /\ (EvWarmup ∉ emitted tr).
Proof.
  induction 1 as [|a tr Ha _ [IH1 IH2]]; [split; apply not_elem_of_nil|].
  destruct a as [[]| |[]|[]]; simpl in *; try done;
    split; try done; rewrite not_elem_of_cons; split; done.
Qed.

(** ** One resumption of a mapper *)

Lemma resume_delaying (i : nat) (tr : trace) :
  resume w this (i, Delaying) tr
  = (Running (i, Sending),
     tr ++ [Delay (if (concurrency this =? 1)%nat then delay this else 0)]).
Proof. done. Qed.

Lemma resume_sending (i : nat) (tr : trace) :
  resume w this (i, Sending) tr
  = (Running (i, Invoking (payload_of this (i + 1))),
     tr ++ [Call (Invoke (i + 1) (payload_of this (i + 1)))]).
Proof. done. Qed.

Lemma resume_invoking (i : nat) (p : Payload) (tr : trace) :
  (exists response,
      invoke w tr (i + 1) p = Fulfilled response
      /\ resume w this (i, Invoking p) tr
         = (Running (i, Announcing (duration_of w response)),
            tr ++ [Settled (Invoke (i + 1) p) (Fulfilled (Invoked response))]))
  \/ (exists e,
      invoke w tr (i + 1) p = Rejected e
      /\ resume w this (i, Invoking p) tr
         = (Failed e, tr ++ [Settled (Invoke (i + 1) p) (Rejected e)])).
Proof.
  unfold resume, receive_invoke.
  destruct (invoke w tr (i + 1) p) as [response|e].
  - left. by exists response.
  - right. by exists e.
Qed.

Lemma resume_announcing (i : nat) (d : duration) (tr : trace) :
  resume w this (i, Announcing d) tr
  = (Finished i d, tr ++ [Emit (EvInvoke d)]).
Proof. done. Qed.

(** What a resumption adds to the trace: one timed action, which is a
    rejection exactly when the mapper has failed. *)
Lemma resume_log (t : task) (tr : trace) :
  exists suf,
    (resume w this t tr).2 = tr ++ suf
    /\ Forall timed_action suf
    /\ match (resume w this t tr).1 with
       | Failed e =>
           exists i p, suf = [Settled (Invoke i p) (Rejected e)]
       | _ => rejections suf = []
       end.
Proof.
  destruct t as [i [| |p|d]].
  - rewrite resume_delaying. eexists; split; [done|].
    split; [|done]. by apply Forall_cons.
  - rewrite resume_sending. eexists; split; [done|].
    split; [|done]. apply Forall_cons; split; [simpl; lia|done].
  - destruct (resume_invoking i p tr) as [(r & _ & ->)|(e & _ & ->)];
      (eexists; split; [done|]); simpl; (split; [|by eauto]);
      (apply Forall_cons; split; [simpl; lia|done]).
  - rewrite resume_announcing. eexists; split; [done|].
    split; [|done]. by apply Forall_cons.
Qed.

(** ** Stray mappers *)

Lemma strays_none (n : nat) (s : state) : stray s = [] -> strays w this n s = s.
Proof. intros H. destruct n; simpl; by rewrite ?H. Qed.

Lemma strays_log (n : nat) (s : state) :
  exists suf, log (strays w this n s) = log s ++ suf /\ Forall timed_action suf.
Proof.
  revert s; induction n as [|n IH]; intros s; simpl.
  { exists []. by rewrite app_nil_r. }
  destruct (stray s) as [|t ts]; [exists []; by rewrite app_nil_r|].
  destruct (stray_first w (log s)); [|exists []; by rewrite app_nil_r].
  destruct (pick (next_ready w (log s)) t ts) as [t' rest].
  destruct (resume_log t' (log s)) as (suf & Hlog & Htimed & _).
  destruct (resume w this t' (log s)) as [pr tr]; simpl in Hlog; subst tr.
  assert (forall st, log st = log s ++ suf ->
            exists suf', log (strays w this n st) = log s ++ suf'
                         /\ Forall timed_action suf') as Hnext.
  { intros st Hst. destruct (IH st) as (suf' & Hlog' & Htimed').
    exists (suf ++ suf'). rewrite Hlog', Hst, <- app_assoc.
    split; [done | by apply Forall_app]. }
  destruct pr; by apply Hnext.
Qed.

(** ** Requests *)

(** A request adds its call, what stray mappers do meanwhile, and its
    settling, which is fulfilled exactly when the request's promise is. *)
Lemma call_log {A} (r : request) (answer : trace -> outcome Err A)
    (wrap : A -> reply) (s : state) :
  exists bg o,
    log (call w this r answer wrap s).2 = log s ++ Call r :: bg ++ [Settled r o]
    /\ Forall timed_action bg
    /\ (stray s = [] -> bg = [] /\ stray (call w this r answer wrap s).2 = [])
    /\ match (call w this r answer wrap s).1 with
       | Fulfilled a => o = Fulfilled (wrap a)
       | Rejected e => o = Rejected e /\ exists tr, answer tr = Rejected e
       end.
Proof.
  unfold call.
  set (s1 := record (Call r) s).
  destruct (strays_log (4 * length (stray s1)) s1) as (bg & Hbg & Htimed).
  assert (stray s = [] -> strays w this (4 * length (stray s1)) s1 = s1) as Hnone.
  { intros H. by apply strays_none. }
  set (s2 := strays w this (4 * length (stray s1)) s1) in *.
  assert (log s2 = log s ++ Call r :: bg) as Hlog.
  { rewrite Hbg. subst s1. simpl. by rewrite <- app_assoc. }
  assert (stray s = [] -> bg = [] /\ stray s2 = []) as Hquiet.
  { intros H. specialize (Hnone H). rewrite Hnone in Hbg |- *.
    split; [|done].
    apply (f_equal length) in Hbg. rewrite length_app in Hbg.
    destruct bg; [done | simpl in Hbg; lia]. }
  destruct (answer (log s2)) as [a|e] eqn:Hanswer; simpl.
  - exists bg, (Fulfilled (wrap a)). rewrite Hlog, <- app_assoc. done.
  - exists bg, (Rejected e). rewrite Hlog, <- app_assoc.
    do 4 (split; [done|]). by exists (log s2).
Qed.

(** ** The timed part of a cycle *)

Lemma cycle_outcome_extend {A} (allowed : action -> Prop) (s st : state)
    (suf1 : trace) (res : outcome Err A * state) :
  log st = log s ++ suf1 -> stray st = stray s ->
  Forall allowed suf1 -> rejections suf1 = [] ->
  cycle_outcome allowed st res -> cycle_outcome allowed s res.
Proof.
  intros Hlog Hstray Hall Hrej (suf & Hlog' & Hall' & Hres).
  exists (suf1 ++ suf). rewrite Hlog', Hlog, <- app_assoc.
  split; [done|]. split; [by apply Forall_app|].
  destruct res.1 as [a|e].
  - destruct Hres as [-> Hrej']. by rewrite rejections_app, Hrej, Hrej'.
  - destruct Hres as (suf0 & i & p & after & -> & Hrej' & Hafter).
    exists (suf1 ++ suf0), i, p, after. rewrite <- app_assoc.
    by rewrite rejections_app, Hrej, Hrej'.
Qed.

Lemma cycle_outcome_weaken {A} (P Q : action -> Prop) (s : state)
    (res : outcome Err A * state) :
  (forall a, P a -> Q a) -> cycle_outcome P s res -> cycle_outcome Q s res.
Proof.
  intros HPQ (suf & Hlog & Hall & Hres). exists suf.
  split; [done|]. split; [|done]. eapply Forall_impl; eauto.
Qed.

Lemma map_loop_outcome (limit n : nat) (p : pool) (s : state) :
  cycle_outcome timed_action s (map_loop w this limit n p s).
Proof.
  revert p s; induction n as [|n IH]; intros p s; simpl.
  { exists []. rewrite app_nil_r. by destruct (inflight p). }
  destruct (inflight p) as [|t ts].
  { exists []. by rewrite app_nil_r. }
  destruct (pick (next_ready w (log s)) t ts) as [t' rest].
  destruct (resume_log t' (log s)) as (suf & Hlog & Htimed & Hres).
  destruct (resume w this t' (log s)) as [pr tr]; simpl in Hlog, Hres; subst tr.
  destruct pr as [t''|i r|e].
  - eapply cycle_outcome_extend; [| | | |apply IH]; done.
  - eapply cycle_outcome_extend; [| | | |apply IH]; done.
  - destruct Hres as (i & q & ->).
    match goal with
    | |- context [strays w this ?k ?st] =>
        destruct (strays_log k st) as (bg & Hbg & Hbgt)
    end.
    exists ([Settled (Invoke i q) (Rejected e)] ++ bg).
    split; [cbn [snd]; rewrite Hbg; cbn [log]; by rewrite <- app_assoc|].
    split; [apply Forall_app; split; [done|done]|].
    by exists [], i, q, bg.
Qed.

(** When the client answers every invocation, the timed part is fulfilled. *)
Lemma map_loop_fulfils (limit n : nat) (p : pool) (s : state) :
  (forall tr i q, exists response, invoke w tr i q = Fulfilled response) ->
  exists l, (map_loop w this limit n p s).1 = Fulfilled l.
Proof.
  intros Hok. revert p s; induction n as [|n IH]; intros p s; simpl.
  { destruct (inflight p); by eexists. }
  destruct (inflight p) as [|t ts]; [by eexists|].
  destruct (pick (next_ready w (log s)) t ts) as [[i [| |q|d]] rest].
  - rewrite resume_delaying. apply IH.
  - rewrite resume_sending. apply IH.
  - destruct (resume_invoking i q (log s)) as [(r & _ & ->)|(e & He & _)].
    + apply IH.
    + destruct (Hok (log s) (i + 1)%nat q) as [r Hr]. congruence.
  - rewrite resume_announcing. apply IH.
Qed.

(** ** The results of the timed part *)

Lemma start_mappers_inflight (choose : list nat -> nat) (limit k : nat)
    (p : @pool Payload) :
  (length (inflight p) <= length (inflight (start_mappers choose limit k p)))%nat.
Proof.
  revert p; induction k as [|k IH]; intros p; simpl; [by destruct (queue p)|].
  destruct (queue p) as [|i q]; [done|].
  destruct (saturated limit p); [done|].
  destruct (pick (choose (i :: q)) i q) as [j q'].
  etrans; [|apply IH]. simpl. rewrite length_app. lia.
Qed.

(** After mappers have been started, none is running only when none is
    queued. *)
Lemma start_mappers_progress (choose : list nat -> nat) (limit k : nat)
    (p : @pool Payload) :
  (length (queue p) <= k)%nat ->
  inflight (start_mappers choose limit k p) = [] ->
  queue (start_mappers choose limit k p) = [].
Proof.
  revert p; induction k as [|k IH]; intros p Hk; simpl.
  { destruct (queue p); [done | simpl in Hk; lia]. }
  destruct (queue p) as [|i q] eqn:Hq; [done|].
  destruct (saturated limit p) eqn:Hsat.
  { intros Hin. unfold saturated in Hsat. rewrite Hin in Hsat.
    apply andb_true_iff in Hsat as [H1 H2].
    apply Nat.leb_le in H1, H2. simpl in H2. lia. }
  destruct (pick (choose (i :: q)) i q) as [j q'].
  intros Hin.
  pose proof (start_mappers_inflight choose limit k
                {| queue := q'; inflight := inflight p ++ [(j, Delaying)];
                   values := values p |}) as Hgrow.
  rewrite Hin in Hgrow. simpl in Hgrow. rewrite length_app in Hgrow.
  simpl in Hgrow. lia.
Qed.

Lemma start_mappers_invariant (choose : list nat -> nat)
    (limit k count n : nat) (p : pool) (suf : trace) :
  pool_invariant w count n p suf ->
  pool_invariant w count n (start_mappers choose limit k p) suf.
Proof.
  revert p; induction k as [|k IH]; intros p Hinv; simpl;
    [by destruct (queue p)|].
  destruct (queue p) as [|i q] eqn:Hq; [done|].
  destruct (saturated limit p); [done|].
  destruct (pick (choose (i :: q)) i q) as [j q'] eqn:Hpick.
  apply pick_Permutation in Hpick.
  apply IH.
  destruct Hinv as (Hnd & Hlen & Hpend & Hqueue & Hrun & Hdone & Hn).
  assert (pending {| queue := q'; inflight := inflight p ++ [(j, Delaying)];
                     values := values p |} ≡ₚ pending p) as Hperm.
  { unfold pending. cbn [queue inflight]. rewrite Hq, fmap_app.
    cbn [fmap list_fmap fst].
    rewrite (Permutation_app_comm (inflight p).*1 [j]), app_assoc.
    by rewrite <- Permutation_cons_append, <- Hpick. }
  rewrite Hq in Hqueue.
  split; [by rewrite Hperm|]. split; [done|].
  split; [intros x; rewrite Hperm; apply Hpend|].
  split; [|split; [|split]]; cbn [queue inflight values].
  - intros x Hx. apply Hqueue. rewrite Hpick. by right.
  - apply Forall_app. split; [done|]. apply Forall_singleton.
    unfold answered_as_staged. cbn [fst snd].
    apply Hqueue. rewrite Hpick. by left.
  - intros x Hx Hnx. apply Hdone; [done|]. by rewrite <- Hperm.
  - unfold resumptions in *. cbn [queue inflight].
    rewrite Hq in Hn. rewrite sum_list_with_app.
    apply Permutation_length in Hpick. simpl in *. lia.
Qed.

(** A mapper that is resumed and goes on keeps the invariant. *)
Lemma pool_invariant_resumed (count n : nat) (p : pool) (suf ext : trace)
    (t t' : task) (rest : list task) :
  pool_invariant w count (S n) p suf ->
  inflight p ≡ₚ t :: rest ->
  t'.1 = t.1 ->
  (S (resumptions_left t') <= resumptions_left t)%nat ->
  (forall j, j <> t.1 -> responses_of (j + 1) ext = []) ->
  answered_as_staged w (suf ++ ext) t' ->
  pool_invariant w count n
    {| queue := queue p; inflight := rest ++ [t']; values := values p |}
    (suf ++ ext).
Proof.
  intros (Hnd & Hlen & Hpend & Hqueue & Hrun & Hdone & Hn) Hperm Hsame Hleft
    Hext Hstaged.
  assert (pending p ≡ₚ t.1 :: (queue p ++ rest.*1)) as Hpending.
  { unfold pending. rewrite Hperm, fmap_cons. by rewrite Permutation_middle. }
  assert (pending {| queue := queue p; inflight := rest ++ [t'];
                     values := values p |} ≡ₚ pending p) as Hperm'.
  { rewrite Hpending. unfold pending. cbn [queue inflight].
    rewrite fmap_app, fmap_cons, Hsame. cbn [fmap list_fmap].
    rewrite app_assoc. by rewrite <- Permutation_cons_append. }
  rewrite Hpending in Hnd. apply NoDup_cons in Hnd as [Hfresh Hnd'].
  rewrite Hperm in Hrun. apply Forall_cons in Hrun as [Ht Hrest].
  assert (forall j, j <> t.1 ->
            responses_of (j + 1) (suf ++ ext) = responses_of (j + 1) suf)
    as Hother.
  { intros j Hj. by rewrite responses_of_app, Hext, app_nil_r. }
  split; [by rewrite Hperm', Hpending; apply NoDup_cons|]. split; [done|].
  split; [intros x; rewrite Hperm'; apply Hpend|].
  split; [|split; [|split]]; cbn [queue inflight values].
  - intros x Hx. rewrite Hother; [by apply Hqueue|].
    intros ->. apply Hfresh, elem_of_app. by left.
  - apply Forall_app. split; [|by apply Forall_singleton].
    apply Forall_forall. intros x Hx.
    assert (x.1 <> t.1) as Hne.
    { intros Heq. apply Hfresh, elem_of_app. right. rewrite <- Heq.
      by apply list_elem_of_fmap_2. }
    rewrite Forall_forall in Hrest. specialize (Hrest x Hx).
    unfold answered_as_staged in *. by rewrite Hother.
  - intros x Hx Hnx. rewrite Hperm' in Hnx.
    rewrite Hother; [by apply Hdone|].
    intros ->. apply Hnx. rewrite Hpending. by left.
  - unfold resumptions in *. cbn [queue inflight].
    rewrite Hperm in Hn. rewrite sum_list_with_app. simpl in *. lia.
Qed.

(** A mapper whose [tap] has announced its result leaves, and the result
    is stored. *)
Lemma pool_invariant_announced (count n : nat) (p : pool) (suf : trace)
    (i : nat) (d : duration) (rest : list task) :
  pool_invariant w count (S n) p suf ->
  inflight p ≡ₚ (i, Announcing d) :: rest ->
  pool_invariant w count n
    {| queue := queue p; inflight := rest; values := <[i := d]> (values p) |}
    (suf ++ [Emit (EvInvoke d)]).
Proof.
  intros (Hnd & Hlen & Hpend & Hqueue & Hrun & Hdone & Hn) Hperm.
  assert (pending p ≡ₚ i :: (queue p ++ rest.*1)) as Hpending.
  { unfold pending. rewrite Hperm, fmap_cons. by rewrite Permutation_middle. }
  rewrite Hpending in Hnd. apply NoDup_cons in Hnd as [Hfresh Hnd'].
  rewrite Hperm in Hrun. apply Forall_cons in Hrun as [Ht Hrest].
  destruct Ht as (response & Hresp & ->).
  assert (forall j, responses_of j (suf ++ [Emit (EvInvoke (duration_of w response))])
                    = responses_of j suf) as Hsame.
  { intros j. by rewrite responses_of_app, app_nil_r. }
  assert (i < count)%nat as Hi by (apply Hpend; rewrite Hpending; by left).
  cbn [fst] in Hresp.
  split; [done|]. split; [cbn [values]; by rewrite length_insert|].
  split; [intros x Hx; apply Hpend; rewrite Hpending; by right|].
  split; [|split; [|split]]; cbn [queue inflight values].
  - intros x Hx. rewrite Hsame. by apply Hqueue.
  - eapply Forall_impl; [exact Hrest|]. intros x Hx.
    unfold answered_as_staged in *. by rewrite Hsame.
  - intros x Hx Hnx. rewrite Hsame. unfold pending in Hnx.
    cbn [queue inflight] in Hnx.
    destruct (decide (x = i)) as [->|Hne].
    + exists response. split; [done|]. apply list_lookup_insert_eq. lia.
    + rewrite list_lookup_insert_ne by done.
      apply Hdone; [done|]. rewrite Hpending, not_elem_of_cons. done.
  - unfold resumptions in *. cbn [queue inflight].
    rewrite Hperm in Hn. simpl in *. lia.
Qed.

(** Nothing is pending once no mapper is running or no resumption is left. *)
Lemma pool_invariant_done (count n : nat) (p : pool) (suf : trace) :
  pool_invariant w count n p suf ->
  (inflight p = [] -> queue p = []) ->
  inflight p = [] \/ n = 0%nat ->
  length (values p) = count
  /\ forall i, (i < count)%nat ->
       exists response,
         responses_of (i + 1) suf = [Fulfilled (Invoked response)]
         /\ values p !! i = Some (duration_of w response).
Proof.
  intros (Hnd & Hlen & Hpend & Hqueue & Hrun & Hdone & Hn) Hprog Hend.
  assert (inflight p = []) as Hin.
  { destruct Hend as [?| ->]; [done|].
    unfold resumptions in Hn.
    destruct (inflight p) as [|[i [| |q|d]] ts]; [done| | | |];
      simpl in Hn; lia. }
  split; [done|]. intros i Hi. apply Hdone; [done|].
  unfold pending. rewrite Hin, (Hprog Hin). apply not_elem_of_nil.
Qed.

(** What one resumption that does not fail makes of the pool. *)
Lemma pool_invariant_step (limit count n : nat) (p : pool) (suf : trace)
    (tr : trace) (t : task) (rest : list task) :
  pool_invariant w count (S n) p suf ->
  inflight p ≡ₚ t :: rest ->
  match resume w this t tr with
  | (Running t', tr') =>
      exists ext, tr' = tr ++ ext
        /\ pool_invariant w count n
             {| queue := queue p; inflight := rest ++ [t'];
                values := values p |} (suf ++ ext)
  | (Finished i d, tr') =>
      exists ext, tr' = tr ++ ext
        /\ pool_invariant w count n
             (start_mappers (next_started w) limit (length (queue p))
                {| queue := queue p; inflight := rest;
                   values := <[i := d]> (values p) |}) (suf ++ ext)
  | (Failed _, _) => True
  end.
Proof.
  intros Hinv Hperm.
  assert (answered_as_staged w suf t) as Ht.
  { destruct Hinv as (_ & _ & _ & _ & Hrun & _).
    rewrite Hperm in Hrun. by apply Forall_cons in Hrun as [? _]. }
  destruct t as [i [| |q|d]].
  - rewrite resume_delaying. eexists. split; [done|].
    eapply pool_invariant_resumed;
      [exact Hinv|exact Hperm|done|cbn; lia|done|].
    unfold answered_as_staged in *. cbn [fst snd] in *.
    by rewrite responses_of_app, Ht.
  - rewrite resume_sending. eexists. split; [done|].
    eapply pool_invariant_resumed;
      [exact Hinv|exact Hperm|done|cbn; lia|done|].
    unfold answered_as_staged in *. cbn [fst snd] in *.
    by rewrite responses_of_app, Ht.
  - destruct (resume_invoking i q tr) as [(r & _ & ->)|(e & _ & ->)]; [|done].
    eexists. split; [done|].
    eapply pool_invariant_resumed;
      [exact Hinv|exact Hperm|done|cbn; lia| |].
    + intros j Hj. unfold responses_of. simpl. case_decide; [|done].
      cbn [fst] in Hj. lia.
    + unfold answered_as_staged in *. cbn [fst snd] in *.
      exists r. rewrite responses_of_app, Ht. unfold responses_of. simpl.
      by case_decide.
  - rewrite resume_announcing. eexists. split; [done|].
    apply start_mappers_invariant. by apply pool_invariant_announced.
Qed.

(** A fulfilled map gives one result for every item, at the index of the
    item: the duration read from the one answer to its invocation. *)
Lemma map_loop_results (limit count n : nat) (p : pool) (s : state)
    (tr0 suf0 : trace) (l : list duration) (s' : state) :
  log s = tr0 ++ suf0 ->
  pool_invariant w count n p suf0 ->
  (inflight p = [] -> queue p = []) ->
  map_loop w this limit n p s = (Fulfilled l, s') ->
  exists suf,
    log s' = tr0 ++ suf
    /\ length l = count
    /\ forall i, (i < count)%nat ->
         exists response,
           responses_of (i + 1) suf = [Fulfilled (Invoked response)]
           /\ l !! i = Some (duration_of w response).
Proof.
  revert p s suf0; induction n as [|n IH]; intros p s suf0 Hlog Hinv Hprog.
  { simpl. intros Hrun.
    assert (l = values p /\ s' = s) as [-> ->]
      by (by destruct (inflight p); injection Hrun).
    exists suf0. split; [done|]. eapply pool_invariant_done; eauto. }
  simpl. destruct (inflight p) as [|t ts] eqn:Hin.
  { intros [= <- <-]. exists suf0. split; [done|].
    eapply pool_invariant_done; eauto. }
  destruct (pick (next_ready w (log s)) t ts) as [t' rest] eqn:Hpick.
  apply pick_Permutation in Hpick. rewrite <- Hin in Hpick.
  pose proof (pool_invariant_step limit count n p suf0 (log s) t' rest
                Hinv Hpick) as Hstep.
  destruct (resume w this t' (log s)) as [[t''|i d|e] tr]; [| |done].
  - destruct Hstep as (ext & -> & Hinv'). intros Hrun.
    eapply IH; [| | |exact Hrun].
    + cbn [log]. by rewrite Hlog, <- app_assoc.
    + done.
    + cbn [inflight]. intros Hnil. by destruct rest.
  - destruct Hstep as (ext & -> & Hinv'). intros Hrun.
    eapply IH; [| | |exact Hrun].
    + cbn [log]. by rewrite Hlog, <- app_assoc.
    + done.
    + by apply start_mappers_progress.
Qed.

Lemma BPromise_map_results (count : nat) (s : state) (l : list duration)
    (s' : state) :
  BPromise_map w this count s = (Fulfilled l, s') ->
  exists suf,
    log s' = log s ++ suf
    /\ Forall timed_action suf
    /\ stray s' = stray s
    /\ length l = count
    /\ forall i, (i < count)%nat ->
         exists response,
           responses_of (i + 1) suf = [Fulfilled (Invoked response)]
           /\ l !! i = Some (duration_of w response).
Proof.
  unfold BPromise_map. intros Hrun.
  set (p0 := {| queue := seq 0 count; inflight := [];
                values := replicate count None |}) in *.
  assert (pool_invariant w count (4 * count) p0 []) as Hinv.
  { unfold pool_invariant, pending, resumptions. simpl.
    rewrite app_nil_r, length_replicate, length_seq.
    split; [apply NoDup_seq|]. split; [done|].
    split; [intros i Hi; apply elem_of_seq in Hi; lia|].
    split; [done|]. split; [done|]. split; [|lia].
    intros i Hi Hni. exfalso. apply Hni, elem_of_seq. lia. }
  destruct (map_loop_results (concurrency this) count (4 * count)
              (start_mappers (fun _ => 0%nat) (concurrency this) count p0)
              s (log s) [] l s')
    as (suf & Hlog & Hlen & Hres); try done.
  - by rewrite app_nil_r.
  - by apply start_mappers_invariant.
  - apply start_mappers_progress. simpl. by rewrite length_seq.
  - exists suf. split; [done|].
    destruct (map_loop_outcome (concurrency this) (4 * count)
                (start_mappers (fun _ => 0%nat) (concurrency this) count p0) s)
      as (suf' & Hlog' & Htimed & Hout).
    rewrite Hrun in Hlog', Hout. simpl in *.
    rewrite Hlog in Hlog'. apply app_inv_head in Hlog' as <-.
    by destruct Hout.
Qed.

(** ** The warm-up invocation *)

Lemma invokeLambda_quiet (i : nat) (s : state) :
  stray s = [] ->
  exists p o,
    log (_invokeLambda w this i s).2
    = log s ++ [Call (Invoke i p); Settled (Invoke i p) o]
    /\ stray (_invokeLambda w this i s).2 = []
    /\ match (_invokeLambda w this i s).1 with
       | Fulfilled d =>
           exists response,
             o = Fulfilled (Invoked response) /\ d = duration_of w response
       | Rejected e => o = Rejected e
       end.
Proof.
  intros Hs. unfold _invokeLambda, send_invoke. simpl.
  rewrite strays_none by done. simpl. unfold receive_invoke.
  set (p := match payload this with Function f => f i | Value p => p end).
  exists p.
  destruct (invoke w (log s ++ [Call (Invoke i p)]) i p) as [r|e]; simpl.
  - exists (Fulfilled (Invoked r)). rewrite <- app_assoc. eauto.
  - exists (Rejected e). by rewrite <- app_assoc.
Qed.

(** ** A whole cycle *)

Lemma cycle_outcome_of_cycle (count : nat) (s : state) :
  stray s = [] -> cycle_outcome cycle_action s (_cycle w this count s).
Proof.
  intros Hs. unfold _cycle, bind, ret, emit, BPromise_delay, BPromise_map.
  destruct (warmup this && (concurrency this =? 1)%nat).
  - destruct (invokeLambda_quiet 0 (record (Emit EvWarmup) s) Hs)
      as (p & o & Hlog & Hstray & Hres).
    destruct (_invokeLambda w this 0 (record (Emit EvWarmup) s)) as [[d|e] s1];
      simpl in *.
    + destruct Hres as (r & -> & _).
      eapply cycle_outcome_extend;
        [| | | |eapply cycle_outcome_weaken;
                  [apply timed_is_cycle_action|apply map_loop_outcome]].
      * simpl. rewrite Hlog, <- !app_assoc. simpl. reflexivity.
      * simpl. congruence.
      * repeat (apply Forall_cons; split; [done|]). done.
      * done.
    + subst o.
      exists [Emit EvWarmup; Call (Invoke 0 p); Settled (Invoke 0 p) (Rejected e)].
      simpl. rewrite Hlog, <- app_assoc. split; [done|].
      split; [repeat (apply Forall_cons; split; [done|]); done|].
      by exists [Emit EvWarmup; Call (Invoke 0 p)], 0%nat, p, [].
  - eapply cycle_outcome_extend;
      [| | | |eapply cycle_outcome_weaken;
                [apply timed_is_cycle_action|apply map_loop_outcome]].
    + simpl. reflexivity.
    + done.
    + by apply Forall_cons.
    + done.
Qed.

(** ** The sweep *)

Ltac trace_apps :=
  repeat match goal with
         | |- context [?a :: (?l ++ ?r)] =>
             change (a :: (l ++ r)) with ([a] ++ l ++ r)
         end.

Ltac read_trace :=
  trace_apps;
  rewrite ?finishes_app, ?updates_app, ?emitted_steps_app, ?rejections_app,
    ?reports_app, ?attempts_app, ?emitted_app.

Lemma updates_call (tr : trace) (m : Z) :
  Call (UpdateFunctionConfiguration m) ∈ tr -> m ∈ updates tr.
Proof.
  intros H. unfold updates. apply list_elem_of_omap.
  exists (Call (UpdateFunctionConfiguration m)). done.
Qed.


Lemma sweep_step_shape (report : gmap Z (@StepReport Rank)) (m : Z) (s : state) :
  stray s = [] ->
  exists suf,
    log (sweep_step w this report m s).2 = log s ++ suf
    /\ sweep_shape [m] (sweep_step w this report m s).1 suf
                   (stray (sweep_step w this report m s).2).
Proof.
  intros Hs. unfold sweep_step, bind, _setAllocatedMemory.
  destruct (call_log (UpdateFunctionConfiguration m)
              (fun tr => updateFunctionConfiguration w tr m)
              (fun _ => Updated) s) as (bg & o & Hlog & _ & Hquiet & Hres).
  destruct (Hquiet Hs) as [-> Hs1]. clear Hquiet. simpl in Hlog.
  destruct (call w this (UpdateFunctionConfiguration m) _ _ s) as [[[]|e] s1];
    simpl in *; [subst o|destruct Hres as [-> _]].
  - set (s2 := record (Emit (EvStep m)) s1).
    destruct (cycle_outcome_of_cycle (repeats this) s2 Hs1)
      as (suf & Hlog2 & Hall & Hres).
    destruct (cycle_actions_silent suf Hall) as (Hu & Hst & Hrp & Hfin).
    destruct (_cycle w this (repeats this) s2) as [[l|e] s3];
      unfold ret; simpl in *.
    + destruct Hres as [Hs3 Hrej].
      eexists. split.
      { rewrite Hlog2, Hlog, <- !app_assoc. simpl. reflexivity. }
      split.
      * read_trace. rewrite Hfin. done.
      * rewrite Hs3. read_trace. rewrite Hu, Hst, Hrej. done.
    + destruct Hres as (suf0 & i & p & after & Hsuf & Hrej & Hafter).
      exists ([Call (UpdateFunctionConfiguration m);
               Settled (UpdateFunctionConfiguration m) (Fulfilled Updated);
               Emit (EvStep m)] ++ suf).
      split.
      { rewrite Hlog2, Hlog, <- !app_assoc. simpl. reflexivity. }
      split.
      * read_trace. rewrite Hfin. done.
      * exists 0%nat,
          ([Call (UpdateFunctionConfiguration m);
            Settled (UpdateFunctionConfiguration m) (Fulfilled Updated);
            Emit (EvStep m)] ++ suf0), (Invoke i p), after.
        split; [by rewrite Hsuf, <- !app_assoc|].
        split; [by rewrite rejections_app, Hrej|].
        split; [done|]. split; [simpl; lia|].
        split; [by rewrite updates_app, Hu|].
        by rewrite emitted_steps_app, Hst.
  - eexists. split; [by rewrite Hlog|]. split; [done|].
    exists 0%nat, [Call (UpdateFunctionConfiguration m)],
      (UpdateFunctionConfiguration m), [].
    simpl. repeat split; try done. lia.
Qed.

Lemma sweep_shape_cons {A} (m : Z) (rest : list Z) (suf1 suf2 : trace)
    (a : A) (o : outcome Err A) (left : list task) :
  sweep_shape [m] (Fulfilled a) suf1 [] ->
  sweep_shape rest o suf2 left ->
  sweep_shape (m :: rest) o (suf1 ++ suf2) left.
Proof.
  intros (Hf1 & Hu1 & Hs1 & Hr1 & _) (Hf2 & H2). split.
  { by rewrite finishes_app, Hf1, Hf2. }
  destruct o as [b|e].
  - destruct H2 as (Hu2 & Hs2 & Hr2 & ->).
    by rewrite updates_app, emitted_steps_app, rejections_app, Hu1, Hs1, Hr1,
      Hu2, Hs2, Hr2.
  - destruct H2 as (k & suf0 & r & after & Hsuf & Hr2 & Hafter & Hk & Hu2 & Hcase).
    exists (S k), (suf1 ++ suf0), r, after.
    split; [by rewrite Hsuf, <- app_assoc|].
    split; [by rewrite rejections_app, Hr1, Hr2|].
    split; [done|]. split; [simpl; lia|].
    split; [by rewrite updates_app, Hu1, Hu2|].
    destruct r as [|m'|i p]; [done| |].
    + destruct Hcase as (Hcase & -> & ->).
      by rewrite emitted_steps_app, Hs1, Hcase.
    + by rewrite emitted_steps_app, Hs1, Hcase.
Qed.

Lemma sweep_shape_stop {A B} (m : Z) (rest : list Z) (suf : trace) (e : Err)
    (left : list task) :
  sweep_shape [m] (@Rejected Err A e) suf left ->
  sweep_shape (m :: rest) (@Rejected Err B e) suf left.
Proof.
  intros (Hf & k & suf0 & r & after & -> & Hr & Hafter & Hk & Hu & Hcase).
  split; [done|].
  simpl in Hk. assert (k = 0%nat) as -> by lia.
  exists 0%nat, suf0, r, after. repeat split; try done. simpl; lia.
Qed.

Lemma sweep_shape_of_reduce (memorySteps : list Z)
    (report : gmap Z (@StepReport Rank)) (s : state) :
  stray s = [] ->
  exists suf,
    log (BPromise_reduce memorySteps (sweep_step w this) report s).2
    = log s ++ suf
    /\ sweep_shape memorySteps
         (BPromise_reduce memorySteps (sweep_step w this) report s).1 suf
         (stray (BPromise_reduce memorySteps (sweep_step w this) report s).2).
Proof.
  revert report s; induction memorySteps as [|m rest IH]; intros report s Hs.
  { exists []. simpl. by rewrite app_nil_r. }
  simpl. unfold bind.
  destruct (sweep_step_shape report m s Hs) as (suf1 & Hlog1 & Hshape1).
  destruct (sweep_step w this report m s) as [[r1|e] s1]; simpl in *.
  - assert (stray s1 = []) as Hs1 by apply Hshape1.
    rewrite Hs1 in Hshape1.
    destruct (IH r1 s1 Hs1) as (suf2 & Hlog2 & Hshape2).
    exists (suf1 ++ suf2). rewrite Hlog2, Hlog1, <- app_assoc. split; [done|].
    eapply sweep_shape_cons; eauto.
  - exists suf1. split; [done|]. by eapply sweep_shape_stop.
Qed.

(** ** A whole run *)

(** When the memory size cannot be read, nothing else happens. *)
Lemma run_without_configuration (e : Err) :
  getFunctionConfiguration w [Call GetFunctionConfiguration] = Rejected e ->
  run w this init
  = (Rejected e,
     {| log := [Call GetFunctionConfiguration;
                Settled GetFunctionConfiguration (Rejected e)];
        stray := [] |}).
Proof.
  intros Hget. unfold run, bind, _getAllocatedMemory, call. simpl.
  by rewrite Hget.
Qed.

(** Otherwise the trace is: the memory size is read and announced, the
    sweep, 'finish', the restoring request, whatever stray mappers do
    until it settles, and its settling; a rejected restoring request
    decides the outcome, and else the sweep does. *)
Lemma run_shape (originalMemorySize : Z) :
  getFunctionConfiguration w [Call GetFunctionConfiguration]
  = Fulfilled originalMemorySize ->
  exists suf bg ro o1 s1,
    BPromise_reduce (steps this) (sweep_step w this) ∅
      {| log := [Call GetFunctionConfiguration;
                 Settled GetFunctionConfiguration
                   (Fulfilled (Configuration originalMemorySize));
                 Emit (EvStart originalMemorySize)];
         stray := [] |}
    = (o1, s1)
    /\ log (run w this init).2
       = [Call GetFunctionConfiguration;
          Settled GetFunctionConfiguration
            (Fulfilled (Configuration originalMemorySize));
          Emit (EvStart originalMemorySize)]
         ++ suf
         ++ [Emit EvFinish; Call (UpdateFunctionConfiguration originalMemorySize)]
         ++ bg
         ++ [Settled (UpdateFunctionConfiguration originalMemorySize) ro]
    /\ sweep_shape (steps this) o1 suf (stray s1)
    /\ Forall timed_action bg
    /\ (stray s1 = [] -> bg = [])
    /\ (run w this init).1
       = match ro with
         | Rejected e => Rejected e
         | Fulfilled _ => o1
         end
    /\ match ro with
       | Rejected e =>
           exists tr, updateFunctionConfiguration w tr originalMemorySize
                      = Rejected e
       | Fulfilled _ => True
       end.
Proof.
  intros Hget. unfold run, bind, _getAllocatedMemory, call. simpl.
  rewrite Hget. simpl. unfold finally.
  set (s0 := record (Emit (EvStart originalMemorySize)) _).
  assert (stray s0 = []) as Hs0 by done.
  destruct (sweep_shape_of_reduce (steps this) ∅ s0 Hs0)
    as (suf & Hlog & Hshape).
  change {| log := _; stray := [] |} with s0.
  destruct (BPromise_reduce (steps this) (sweep_step w this) ∅ s0)
    as [o1 s1]; simpl in *.
  unfold restore, bind, emit, _setAllocatedMemory.
  set (s2 := record (Emit EvFinish) s1).
  destruct (call_log (UpdateFunctionConfiguration originalMemorySize)
              (fun tr => updateFunctionConfiguration w tr originalMemorySize)
              (fun _ => Updated) s2) as (bg & ro & Hlog2 & Htimed & Hquiet & Hres).
  exists suf, bg, ro, o1, s1. split; [done|].
  destruct (call w this (UpdateFunctionConfiguration originalMemorySize) _ _ s2)
    as [[[]|e] s3]; simpl in *;
    [subst ro|destruct Hres as [-> Hres]];
    (split; [rewrite Hlog2, Hlog; simpl; by rewrite <- !app_assoc|]);
    (split; [done|]); (split; [done|]);
    (split; [intros Hleft; by apply Hquiet|]); done.
Qed.

(** C1, as the code has it: once the memory size has been read, however
    the sweep ends, 'finish' is emitted exactly once and the request that
    restores the original size is sent exactly once, right after 'finish'
    and after every request that configures a step; when the run is
    fulfilled, every step was configured. *)
Theorem restore_once_right_after_finish (originalMemorySize : Z) :
  getFunctionConfiguration w [Call GetFunctionConfiguration]
  = Fulfilled originalMemorySize ->
  exists (k : nat) pre post,
    log (run w this init).2
    = pre
      ++ [Emit EvFinish; Call (UpdateFunctionConfiguration originalMemorySize)]
      ++ post
    /\ updates pre = take k (steps this)
    /\ updates post = []
    /\ updates (log (run w this init).2)
       = take k (steps this) ++ [originalMemorySize]
    /\ finishes (log (run w this init).2) = 1%nat
    /\ (forall report, (run w this init).1 = Fulfilled report ->
                       k = length (steps this)).
Proof.
  intros Hget.
  destruct (run_shape originalMemorySize Hget)
    as (suf & bg & ro & o1 & s1 & _ & Hlog & [Hfin Hshape] & Htimed & Hquiet
        & Hres & _).
  destruct (cycle_actions_silent bg) as (Hu & _ & _ & Hf).
  { eapply Forall_impl; [done|apply timed_is_cycle_action]. }
  assert (exists k : nat,
            updates suf = take k (steps this)
            /\ (forall report, o1 = Fulfilled report -> k = length (steps this)))
    as (k & Hk & Hall).
  { destruct o1 as [report|e].
    - exists (length (steps this)). destruct Hshape as (-> & _).
      by rewrite firstn_all.
    - destruct Hshape as (k & suf0 & r & after & _ & _ & _ & _ & -> & _).
      by exists (S k). }
  exists k,
    ([Call GetFunctionConfiguration;
      Settled GetFunctionConfiguration
        (Fulfilled (Configuration originalMemorySize));
      Emit (EvStart originalMemorySize)] ++ suf),
    (bg ++ [Settled (UpdateFunctionConfiguration originalMemorySize) ro]).
  rewrite Hlog. split; [by rewrite <- !app_assoc|].
  read_trace. rewrite Hu, Hk, Hf, Hfin. simpl. rewrite ?app_nil_r.
  repeat split; try done.
  intros report Hrun. rewrite Hrun in Hres. apply Hall with report.
  by destruct ro.
Qed.


(** C9, as the code has it: when the request that is rejected last is a
    configuration request, it is the restoring one, sent right after the
    only 'finish', and the run is rejected with its error, whatever was
    rejected before. *)
Theorem failed_restore_replaces_the_error (m : Z) (e : Err) (pre : trace) :
  log (run w this init).2
  = pre ++ [Settled (UpdateFunctionConfiguration m) (Rejected e)] ->
  (run w this init).1 = Rejected e
  /\ exists pre' bg,
       pre = pre' ++ [Emit EvFinish; Call (UpdateFunctionConfiguration m)] ++ bg
       /\ finishes pre' = 0%nat /\ Forall timed_action bg.
Proof.
  intros Hlast.
  destruct (getFunctionConfiguration w [Call GetFunctionConfiguration])
    as [originalMemorySize|e1] eqn:Hget.
  2:{ rewrite (run_without_configuration e1 Hget) in Hlast. simpl in Hlast.
      apply (f_equal last) in Hlast. rewrite last_snoc in Hlast. done. }
  destruct (run_shape originalMemorySize Hget)
    as (suf & bg & ro & o1 & s1 & _ & Hlog & [Hfin _] & Htimed & _ & Hres & _).
  rewrite Hlog, !app_assoc in Hlast.
  apply app_inj_tail in Hlast as [<- [= -> ->]].
  split; [done|].
  exists ([Call GetFunctionConfiguration;
           Settled GetFunctionConfiguration (Fulfilled (Configuration m));
           Emit (EvStart m)] ++ suf), bg.
  rewrite <- !app_assoc. split; [done|]. split; [|done].
  read_trace. by rewrite Hfin.
Qed.

(** ** The head and the results of a cycle *)

(** What [_invokeLambda] resolves to: null, or the rounding of the number
    the second group reads as, which is [NaN], [Infinity] or a natural
    number. *)
Lemma duration_of_cases (response : Response) :
  duration_of w response = None
  \/ duration_of w response = Some NaN
  \/ duration_of w response = Some PosInfinity
  \/ exists z : Z, 0 <= z /\ duration_of w response = Some (Num (inject_Z z)).
Proof.
  unfold duration_of. destruct (REPORT_REGEX_exec w response) as [text|];
    [right|by left].
  destruct (round_of_Number text) as [->|[->|(z & Hz & ->)]];
    [by left|right; by left|].
  right. right. by exists z.
Qed.

(** What a cycle adds to the trace before its timed part. *)
Lemma cycle_unfold (count : nat) (s : state) :
  stray s = [] ->
  exists head s1,
    log s1 = log s ++ head /\ stray s1 = []
    /\ (forall i, responses_of (i + 1) head = [])
    /\ (if warmup this && (concurrency this =? 1)%nat then
          exists p,
            (exists r,
                head = [Emit EvWarmup; Call (Invoke 0 p);
                        Settled (Invoke 0 p) (Fulfilled (Invoked r));
                        Delay (delay this)]
                /\ _cycle w this count s = BPromise_map w this count s1)
            \/ (exists e,
                head = [Emit EvWarmup; Call (Invoke 0 p);
                        Settled (Invoke 0 p) (Rejected e)]
                /\ _cycle w this count s = (Rejected e, s1))
        else
          head = [Delay (if warmup this then delay this else 0)]
          /\ _cycle w this count s = BPromise_map w this count s1).
Proof.
  intros Hs. unfold _cycle, bind, ret, emit, BPromise_delay.
  destruct (warmup this) eqn:Hw; destruct (concurrency this =? 1)%nat eqn:Hc;
    simpl.
  2-4: eexists [_], (record _ s); repeat split; done.
  destruct (invokeLambda_quiet 0 (record (Emit EvWarmup) s) Hs)
    as (p & o & Hlog & Hstray & Hres).
  destruct (_invokeLambda w this 0 (record (Emit EvWarmup) s)) as [[d|e] s1];
    simpl in *.
  - destruct Hres as (r & -> & _).
    eexists _, (record (Delay (delay this)) s1). split.
    { simpl. rewrite Hlog, <- !app_assoc. simpl. reflexivity. }
    split; [done|].
    split; [intros i; unfold responses_of; simpl; case_decide; [lia|done]|].
    exists p. left. by exists r.
  - subst o. eexists _, s1. split.
    { rewrite Hlog, <- !app_assoc. simpl. reflexivity. }
    split; [done|].
    split; [intros i; unfold responses_of; simpl; case_decide; [lia|done]|].
    exists p. right. by exists e.
Qed.

(** The results of a fulfilled cycle, by index. *)
Lemma cycle_results (count : nat) (s : state) (l : list duration) (s' : state) :
  stray s = [] ->
  _cycle w this count s = (Fulfilled l, s') ->
  length l = count
  /\ exists suf,
       log s' = log s ++ suf
       /\ forall i, (i < count)%nat ->
            exists response,
              responses_of (i + 1) suf = [Fulfilled (Invoked response)]
              /\ l !! i = Some (duration_of w response).
Proof.
  intros Hs Hrun.
  destruct (cycle_unfold count s Hs) as (head & s1 & Hlog1 & _ & Hhead & Hcase).
  assert (BPromise_map w this count s1 = (Fulfilled l, s')) as Hmap.
  { destruct (warmup this && (concurrency this =? 1)%nat).
    - destruct Hcase as (p & [(r & _ & Heq)|(e & _ & Heq)]); congruence.
    - destruct Hcase as [_ Heq]. congruence. }
  destruct (BPromise_map_results count s1 l s' Hmap)
    as (suf & Hlog & _ & _ & Hlen & Hres).
  split; [done|]. exists (head ++ suf).
  split; [by rewrite Hlog, Hlog1, <- app_assoc|].
  intros i Hi. destruct (Hres i Hi) as (r & Hr & Hl). exists r.
  by rewrite responses_of_app, Hhead.
Qed.

(** ** When every request is answered *)

Lemma invokeLambda_fulfils (i : nat) (s : state) :
  (forall tr j q, exists response, invoke w tr j q = Fulfilled response) ->
  exists d, (_invokeLambda w this i s).1 = Fulfilled d.
Proof.
  intros Hok. unfold _invokeLambda, send_invoke, receive_invoke. simpl.
  match goal with
  | |- context [invoke w ?tr ?j ?q] => destruct (Hok tr j q) as [r ->]
  end.
  by eexists.
Qed.

Lemma cycle_fulfils (count : nat) (s : state) :
  (forall tr j q, exists response, invoke w tr j q = Fulfilled response) ->
  exists l, (_cycle w this count s).1 = Fulfilled l.
Proof.
  intros Hok. unfold _cycle, bind, ret, emit, BPromise_delay, BPromise_map.
  destruct (warmup this && (concurrency this =? 1)%nat).
  - destruct (invokeLambda_fulfils 0 (record (Emit EvWarmup) s) Hok) as [d Hd].
    destruct (_invokeLambda w this 0 (record (Emit EvWarmup) s)) as [o s1].
    simpl in Hd; subst o. by apply map_loop_fulfils.
  - by apply map_loop_fulfils.
Qed.

Lemma start_mappers_values (choose : list nat -> nat) (limit k : nat)
    (p : @pool Payload) :
  values (start_mappers choose limit k p) = values p.
Proof.
  revert p; induction k as [|k IH]; intros p; simpl; [by destruct (queue p)|].
  destruct (queue p) as [|i q]; [done|].
  destruct (saturated limit p); [done|].
  destruct (pick (choose (i :: q)) i q) as [j q']. by rewrite IH.
Qed.

(** The mappers that are started wait for their timer. *)
Lemma start_mappers_running (P : @task Payload -> Prop)
    (choose : list nat -> nat) (limit k : nat) (p : @pool Payload) :
  (forall j, P (j, Delaying)) ->
  Forall P (inflight p) ->
  Forall P (inflight (start_mappers choose limit k p)).
Proof.
  intros HP. revert p; induction k as [|k IH]; intros p Hp; simpl;
    [by destruct (queue p)|].
  destruct (queue p) as [|i q]; [done|].
  destruct (saturated limit p); [done|].
  destruct (pick (choose (i :: q)) i q) as [j q']. apply IH. cbn [inflight].
  apply Forall_app. split; [done|]. by apply Forall_singleton.
Qed.

(** What holds of every answer holds of every result. *)
Lemma map_loop_values (Q : duration -> Prop) (limit n : nat) (p : pool)
    (s : state) (l : list duration) (s' : state) :
  (forall tr i q r, invoke w tr i q = Fulfilled r -> Q (duration_of w r)) ->
  Forall Q (values p) ->
  Forall (fun t : task =>
            match t.2 with Announcing d => Q d | _ => True end) (inflight p) ->
  map_loop w this limit n p s = (Fulfilled l, s') -> Forall Q l.
Proof.
  intros HQ. revert p s; induction n as [|n IH]; intros p s Hvals Hrun; simpl.
  { destruct (inflight p); by intros [= <- _]. }
  destruct (inflight p) as [|t ts] eqn:Hin; [by intros [= <- _]|].
  destruct (pick (next_ready w (log s)) t ts) as [[i st] rest] eqn:Hpick.
  apply pick_Permutation in Hpick. rewrite Hpick in Hrun.
  apply Forall_cons in Hrun as [Ht Hrest].
  destruct st as [| |q|d].
  - rewrite resume_delaying. apply IH; [done|].
    apply Forall_app. split; [done|]. by apply Forall_singleton.
  - rewrite resume_sending. apply IH; [done|].
    apply Forall_app. split; [done|]. by apply Forall_singleton.
  - destruct (resume_invoking i q (log s)) as [(r & Hr & ->)|(e & _ & ->)];
      [|done].
    apply IH; [done|].
    apply Forall_app. split; [done|]. apply Forall_singleton. by eapply HQ.
  - rewrite resume_announcing. apply IH.
    + rewrite start_mappers_values. cbn [values].
      by apply Forall_insert.
    + by apply start_mappers_running.
Qed.

Lemma cycle_values (Q : duration -> Prop) (count : nat) (s : state)
    (l : list duration) (s' : state) :
  (forall tr i q r, invoke w tr i q = Fulfilled r -> Q (duration_of w r)) ->
  Q None -> stray s = [] ->
  _cycle w this count s = (Fulfilled l, s') -> Forall Q l.
Proof.
  intros HQ Hnone Hs Hrun.
  destruct (cycle_unfold count s Hs) as (head & s1 & _ & _ & _ & Hcase).
  assert (BPromise_map w this count s1 = (Fulfilled l, s')) as Hmap.
  { destruct (warmup this && (concurrency this =? 1)%nat).
    - destruct Hcase as (p & [(r & _ & Heq)|(e & _ & Heq)]); congruence.
    - destruct Hcase as [_ Heq]. congruence. }
  unfold BPromise_map in Hmap. eapply map_loop_values; [done| | |exact Hmap].
  - rewrite start_mappers_values. simpl. by apply Forall_replicate.
  - by apply start_mappers_running.
Qed.

(** ** One step of the sweep, fulfilled *)

Lemma sweep_step_fulfilled (report : gmap Z (@StepReport Rank)) (m : Z)
    (s : state) (R : gmap Z (@StepReport Rank)) (s' : state) :
  stray s = [] ->
  sweep_step w this report m s = (Fulfilled R, s') ->
  exists s1 s2 l,
    log s1 = log s ++ [Call (UpdateFunctionConfiguration m);
                       Settled (UpdateFunctionConfiguration m) (Fulfilled Updated);
                       Emit (EvStep m)]
    /\ stray s1 = []
    /\ _cycle w this (repeats this) s1 = (Fulfilled l, s2)
    /\ s' = record (Emit (EvResult (_parseCycleResult (percentile w) l))) s2
    /\ R = <[m := _parseCycleResult (percentile w) l]> report.
Proof.
  intros Hs. unfold sweep_step, bind, _setAllocatedMemory.
  destruct (call_log (UpdateFunctionConfiguration m)
              (fun tr => updateFunctionConfiguration w tr m)
              (fun _ => Updated) s) as (bg & o & Hlog & _ & Hquiet & Hres).
  destruct (Hquiet Hs) as [-> Hs1]. clear Hquiet. simpl in Hlog.
  destruct (call w this (UpdateFunctionConfiguration m) _ _ s) as [[[]|e] s1];
    simpl in *; [subst o|done].
  destruct (_cycle w this (repeats this) (record (Emit (EvStep m)) s1))
    as [[l|e] s2] eqn:Hcycle; [|done].
  unfold ret. simpl. intros [= <- <-].
  exists (record (Emit (EvStep m)) s1), s2, l. simpl.
  rewrite Hlog, <- app_assoc. done.
Qed.

Lemma sweep_step_fulfils (report : gmap Z (@StepReport Rank)) (m : Z) (s : state) :
  (forall tr, updateFunctionConfiguration w tr m = Fulfilled ()) ->
  (forall tr j q, exists response, invoke w tr j q = Fulfilled response) ->
  exists R, (sweep_step w this report m s).1 = Fulfilled R.
Proof.
  intros Hupd Hok. unfold sweep_step, bind, _setAllocatedMemory, call.
  rewrite Hupd. simpl.
  match goal with
  | |- context [_cycle w this ?n ?st] =>
      destruct (cycle_fulfils n st Hok) as [l Hl];
      destruct (_cycle w this n st) as [o s2]
  end.
  simpl in Hl; subst o. by eexists.
Qed.

Lemma sweep_fulfils (memorySteps : list Z) (report : gmap Z (@StepReport Rank))
    (s : state) :
  (forall tr m, updateFunctionConfiguration w tr m = Fulfilled ()) ->
  (forall tr j q, exists response, invoke w tr j q = Fulfilled response) ->
  exists R,
    (BPromise_reduce memorySteps (sweep_step w this) report s).1 = Fulfilled R.
Proof.
  intros Hupd Hok.
  revert report s; induction memorySteps as [|m rest IH]; intros report s; simpl.
  { by eexists. }
  unfold bind.
  destruct (sweep_step_fulfils report m s (fun tr => Hupd tr m) Hok) as [R1 HR1].
  destruct (sweep_step w this report m s) as [o s1]. simpl in HR1; subst o.
  apply IH.
Qed.

(** What holds of the report of every step holds of every entry of the
    final report that a step wrote. *)
Lemma sweep_reports (P : @StepReport Rank -> Prop) (memorySteps : list Z)
    (report : gmap Z (@StepReport Rank)) (s : state)
    (R : gmap Z (@StepReport Rank)) (s' : state) :
  (forall l s1 s2, stray s1 = [] ->
     _cycle w this (repeats this) s1 = (Fulfilled l, s2) ->
     P (_parseCycleResult (percentile w) l)) ->
  stray s = [] ->
  BPromise_reduce memorySteps (sweep_step w this) report s = (Fulfilled R, s') ->
  forall m,
    m ∈ memorySteps \/ (exists r, report !! m = Some r /\ P r) ->
    exists r, R !! m = Some r /\ P r.
Proof.
  intros HP.
  revert report s; induction memorySteps as [|m0 rest IH];
    intros report s Hs; simpl.
  { unfold ret. intros [= <- <-] m [Hm|Hm]; [inversion Hm|done]. }
  unfold bind.
  destruct (sweep_step w this report m0 s) as [[R1|e] s1] eqn:Hstep; [|done].
  destruct (sweep_step_fulfilled report m0 s R1 s1 Hs Hstep)
    as (sa & sb & l & _ & Hsa & Hcycle & -> & ->).
  assert (stray sb = []) as Hsb.
  { destruct (cycle_outcome_of_cycle (repeats this) sa Hsa) as (suf & _ & _ & Hout).
    rewrite Hcycle in Hout. simpl in Hout. destruct Hout as [-> _]. done. }
  intros Hrun m Hm. eapply IH; [|exact Hrun|]; [done|].
  destruct (decide (m = m0)) as [->|Hne].
  - right. eexists. rewrite lookup_insert_eq. split; [done|].
    exact (HP l sa sb Hsa Hcycle).
  - destruct Hm as [Hm|Hm].
    + apply elem_of_cons in Hm as [?|Hm]; [done|]. by left.
    + right. by rewrite lookup_insert_ne.
Qed.

(** C10, as the code has it: a cycle over [count] invocations that is
    fulfilled resolves to [count] entries, and entry [i] is what invocation
    [i + 1], answered exactly once in the cycle, made of its response: null
    when the log has no REPORT line, and else the rounding of the number its
    duration reads as, which is a natural number, [NaN] when the duration is
    no numeral, or [Infinity] when it is too large for a double.  This holds
    whatever the order in which mappers are started and resumed. *)
Theorem cycle_results_by_index (count : nat) (s : state) (l : list duration)
    (s' : state) :
  stray s = [] ->
  _cycle w this count s = (Fulfilled l, s') ->
  length l = count
  /\ exists suf,
       log s' = log s ++ suf
       /\ forall i, (i < count)%nat ->
            exists response,
              responses_of (i + 1) suf = [Fulfilled (Invoked response)]
              /\ l !! i = Some (duration_of w response)
              /\ (duration_of w response = None
                  \/ duration_of w response = Some NaN
                  \/ duration_of w response = Some PosInfinity
                  \/ exists z : Z,
                       0 <= z
                       /\ duration_of w response = Some (Num (inject_Z z))).
Proof.
  intros Hs Hrun.
  destruct (cycle_results count s l s' Hs Hrun) as (Hlen & suf & Hlog & Hres).
  split; [done|]. exists suf. split; [done|].
  intros i Hi. destruct (Hres i Hi) as (r & Hr & Hl). exists r.
  split; [done|]. split; [done|]. apply duration_of_cases.
Qed.

(** C4, as the code has it: when warm-up is enabled and the concurrency is
    1, a cycle begins with the 'warmup' event, then invocation 0 is sent;
    once it is answered a wait of the configured delay follows, and the
    timed part, which sends no invocation 0, emits no 'warmup' and resolves
    to [count] results; a rejected warm-up invocation ends the cycle.
    Otherwise the cycle sends no invocation 0 and emits no 'warmup'. *)
Theorem warmup_only_when_serial (count : nat) (s : state) :
  stray s = [] ->
  exists suf,
    log (_cycle w this count s).2 = log s ++ suf
    /\ if warmup this && (concurrency this =? 1)%nat then
         (exists p r timed,
             suf = [Emit EvWarmup; Call (Invoke 0 p);
                    Settled (Invoke 0 p) (Fulfilled (Invoked r));
                    Delay (delay this)] ++ timed
             /\ (0%nat ∉ attempts timed)
             /\ (EvWarmup ∉ emitted timed)
             /\ forall l, (_cycle w this count s).1 = Fulfilled l ->
                          length l = count)
         \/ (exists p e,
             suf = [Emit EvWarmup; Call (Invoke 0 p);
                    Settled (Invoke 0 p) (Rejected e)]
             /\ (_cycle w this count s).1 = Rejected e)
       else (0%nat ∉ attempts suf) /\ (EvWarmup ∉ emitted suf).
Proof.
  intros Hs.
  destruct (cycle_unfold count s Hs) as (head & s1 & Hlog1 & Hs1 & _ & Hcase).
  destruct (map_loop_outcome (concurrency this) (4 * count)
              (start_mappers (fun _ => 0%nat) (concurrency this) count
                 {| queue := seq 0 count; inflight := [];
                    values := replicate count None |}) s1)
    as (timed & Hlog & Htimed & _).
  fold (BPromise_map w this count s1) in Hlog.
  destruct (timed_actions_no_warmup timed Htimed) as [Hno0 Hnow].
  destruct (warmup this && (concurrency this =? 1)%nat).
  - destruct Hcase as (p & [(r & -> & Heq)|(e & -> & Heq)]); rewrite Heq.
    + eexists. split; [by rewrite Hlog, Hlog1, <- !app_assoc|].
      left. exists p, r, timed. repeat split; try done.
      intros l Hl.
      destruct (BPromise_map w this count s1) as [o s'] eqn:Hmap.
      simpl in Hl; subst o.
      by destruct (BPromise_map_results count s1 l s' Hmap)
        as (_ & _ & _ & _ & Hlen & _).
    + eexists. split; [simpl; by rewrite Hlog1|]. right. by exists p, e.
  - destruct Hcase as [-> Heq]. rewrite Heq.
    exists ([Delay (if warmup this then delay this else 0)] ++ timed).
    split; [by rewrite Hlog, Hlog1, <- !app_assoc|].
    read_trace. simpl. done.
Qed.

(** ** A cycle with a concurrency of 1 *)

Lemma start_mappers_none (choose : list nat -> nat) (limit k : nat)
    (running : list (@task Payload)) (vals : list duration) :
  start_mappers choose limit k
    {| queue := []; inflight := running; values := vals |}
  = {| queue := []; inflight := running; values := vals |}.
Proof. by destruct k. Qed.

Lemma start_mappers_one (choose : list nat -> nat) (k a : nat) (q : list nat)
    (vals : list duration) :
  start_mappers choose 1 (S k)
    {| queue := a :: q; inflight := @nil (@task Payload); values := vals |}
  = {| queue := (pick (choose (a :: q)) a q).2;
       inflight := [((pick (choose (a :: q)) a q).1, Delaying)];
       values := vals |}.
Proof.
  simpl. destruct (pick (choose (a :: q)) a q) as [j q'].
  destruct k; simpl; [by destruct q'|]. by destruct q'.
Qed.

(** With a limit of 1 the one running mapper waits, sends its invocation
    and, when it is answered, announces the result, stores it and lets
    the next start. *)
Lemma serial_round (n j : nat) (q : list nat) (vals : list duration) (s : state) :
  (concurrency this =? 1)%nat = true ->
  map_loop w this 1 (S (S (S (S n))))
    {| queue := q; inflight := [(j, Delaying)]; values := vals |} s
  = match invoke w (log s ++ [Delay (delay this);
                              Call (Invoke (j + 1) (payload_of this (j + 1)))])
            (j + 1) (payload_of this (j + 1)) with
    | Fulfilled r =>
        map_loop w this 1 n
          (start_mappers (next_started w) 1 (length q)
             {| queue := q; inflight := [];
                values := <[j := duration_of w r]> vals |})
          {| log := log s ++ round w this (j, r); stray := stray s |}
    | Rejected e =>
        (Rejected e,
         strays w this (4 * length (stray s ++ []))
           {| log := log s
                     ++ [Delay (delay this);
                         Call (Invoke (j + 1) (payload_of this (j + 1)));
                         Settled (Invoke (j + 1) (payload_of this (j + 1)))
                           (Rejected e)];
              stray := stray s ++ [] |})
    end.
Proof.
  intros Hc. cbn [map_loop inflight]. rewrite pick_singleton.
  rewrite resume_delaying, Hc. cbn [app inflight log]. rewrite pick_singleton.
  rewrite resume_sending. cbn [app inflight log]. rewrite pick_singleton.
  rewrite <- app_assoc. cbn [app].
  destruct (resume_invoking j (payload_of this (j + 1))
              (log s ++ [Delay (delay this);
                         Call (Invoke (j + 1) (payload_of this (j + 1)))]))
    as [(r & -> & ->)|(e & -> & ->)].
  - cbn [app inflight log]. rewrite pick_singleton, resume_announcing.
    cbn [queue values stray log]. unfold round. rewrite Hc. cbn [fst snd].
    by rewrite <- !app_assoc.
  - cbn [queue values stray log]. by rewrite <- !app_assoc.
Qed.

(** C8, as the code has it: with a concurrency of 1, warm-up enabled and
    three repeats, a fulfilled cycle is exactly this: 'warmup', invocation
    0 and its answer, two waits of the configured delay, and then for each
    of the three timed invocations its sending, its answer and the 'invoke'
    event, with one wait between them.  Four invocations are sent; the
    warm-up one is not preceded by a wait; invocation 1 is the first of the
    three others, and the two after it are 2 and 3 in the order in which
    [BPromise.map] starts the items it had queued: 3 and then 2 when it
    starts the item queued last, as Bluebird 3 does. *)
Theorem four_attempts_waits_after_the_warmup (s s' : state) (l : list duration) :
  concurrency this = 1%nat -> warmup this = true -> stray s = [] ->
  _cycle w this 3 s = (Fulfilled l, s') ->
  exists p0 r0 p1 r1 i2 p2 r2 i3 p3 r3,
    log s'
    = log s
      ++ [Emit EvWarmup;
          Call (Invoke 0 p0); Settled (Invoke 0 p0) (Fulfilled (Invoked r0));
          Delay (delay this);
          Delay (delay this);
          Call (Invoke 1 p1); Settled (Invoke 1 p1) (Fulfilled (Invoked r1));
          Emit (EvInvoke (duration_of w r1));
          Delay (delay this);
          Call (Invoke i2 p2); Settled (Invoke i2 p2) (Fulfilled (Invoked r2));
          Emit (EvInvoke (duration_of w r2));
          Delay (delay this);
          Call (Invoke i3 p3); Settled (Invoke i3 p3) (Fulfilled (Invoked r3));
          Emit (EvInvoke (duration_of w r3))]
    /\ attempts (drop (length (log s)) (log s')) = [0; 1; i2; i3]%nat
    /\ [i2; i3] ≡ₚ [2; 3]%nat
    /\ ((forall q, next_started w q = pred (length q)) ->
        [i2; i3] = [3; 2]%nat).
Proof.
  intros Hc Hw Hs Hrun.
  assert ((concurrency this =? 1)%nat = true) as Hc' by (by rewrite Hc).
  destruct (cycle_unfold 3 s Hs) as (head & s1 & Hlog1 & _ & _ & Hcase).
  rewrite Hw, Hc' in Hcase. simpl in Hcase.
  destruct Hcase as (p0 & [(r0 & -> & Heq)|(e & _ & Heq)]); [|congruence].
  rewrite Heq in Hrun. unfold BPromise_map in Hrun. rewrite Hc in Hrun.
  change (4 * 3)%nat with 12%nat in Hrun. simpl seq in Hrun.
  simpl replicate in Hrun.
  (* first timed invocation *)
  rewrite start_mappers_one in Hrun.
  change (pick 0 0%nat [1; 2]%nat) with (0%nat, [1; 2]%nat) in Hrun.
  cbn [fst snd] in Hrun.
  rewrite (serial_round 8 0 [1; 2]%nat [None; None; None] s1 Hc') in Hrun.
  destruct (invoke w _ (0 + 1)%nat _) as [r1|]; [|done].
  (* second timed invocation *)
  cbn [length] in Hrun. rewrite start_mappers_one in Hrun.
  destruct (pick (next_started w [1; 2]%nat) 1%nat [2]%nat) as [j2 q2] eqn:Hp2.
  pose proof (pick_Permutation _ _ _ _ _ Hp2) as Hperm2.
  pose proof (Permutation_length Hperm2) as Hlen2.
  destruct q2 as [|c [|? ?]]; try (simpl in Hlen2; lia).
  cbn [fst snd] in Hrun.
  match type of Hrun with
  | map_loop _ _ _ _ ?p ?st = _ =>
      pose proof (serial_round 4 j2 [c] (values p) st Hc') as Hround
  end.
  cbn [values] in Hround. rewrite Hround in Hrun. clear Hround.
  cbn [log] in Hrun.
  destruct (invoke w _ (j2 + 1)%nat _) as [r2|]; [|done].
  (* third timed invocation *)
  cbn [length] in Hrun. rewrite start_mappers_one in Hrun.
  pose proof (pick_singleton (next_started w [c]) c) as Hp3.
  rewrite Hp3 in Hrun. cbn [fst snd] in Hrun.
  match type of Hrun with
  | map_loop _ _ _ _ ?p ?st = _ =>
      pose proof (serial_round 0 c [] (values p) st Hc') as Hround
  end.
  cbn [values] in Hround. rewrite Hround in Hrun. clear Hround.
  cbn [log] in Hrun.
  destruct (invoke w _ (c + 1)%nat _) as [r3|]; [|done].
  cbn [length] in Hrun. rewrite start_mappers_none in Hrun.
  cbn [map_loop log] in Hrun. injection Hrun as _ <-. cbn [log].
  exists p0, r0, (payload_of this 1), r1,
    (j2 + 1)%nat, (payload_of this (j2 + 1)), r2,
    (c + 1)%nat, (payload_of this (c + 1)), r3.
  unfold round. rewrite Hc'. cbn [fst snd].
  split; [by rewrite Hlog1, <- !app_assoc|].
  split.
  { rewrite Hlog1, <- !app_assoc, drop_app_length. done. }
  split.
  { apply (fmap_Permutation (fun x => (x + 1)%nat)) in Hperm2.
    symmetry. exact Hperm2. }
  intros Hpop. rewrite Hpop in Hp2. by injection Hp2 as <- <-.
Qed.

(** ** The claims about the results of a step *)

(** C2, as the code has it: a step fails neither for a missing timing nor
    for anything else as long as its requests are answered; and when it is
    fulfilled, the sequence given to the reducer has one entry for each of
    the [repeats] invocations, in index order, null when the answer carried
    no timing: the report emitted and stored is the reduction of that whole
    sequence, in which a null counts as 0 for [min], [max] and [avg]. *)
Theorem every_result_reaches_the_reducer (report : gmap Z (@StepReport Rank))
    (m : Z) (s : state) :
  stray s = [] ->
  ((forall tr, updateFunctionConfiguration w tr m = Fulfilled ()) ->
   (forall tr j q, exists response, invoke w tr j q = Fulfilled response) ->
   exists R, (sweep_step w this report m s).1 = Fulfilled R)
  /\ forall R s',
       sweep_step w this report m s = (Fulfilled R, s') ->
       exists l suf,
         log s' = log s ++ suf
         /\ length l = repeats this
         /\ (forall i, (i < repeats this)%nat ->
               exists response,
                 responses_of (i + 1) suf = [Fulfilled (Invoked response)]
                 /\ l !! i = Some (duration_of w response))
         /\ reports suf = [_parseCycleResult (percentile w) l]
         /\ R = <[m := _parseCycleResult (percentile w) l]> report
         /\ min (_parseCycleResult (percentile w) l)
            = min (_parseCycleResult (percentile w) (as_zero l))
         /\ max (_parseCycleResult (percentile w) l)
            = max (_parseCycleResult (percentile w) (as_zero l))
         /\ avg (_parseCycleResult (percentile w) l)
            = avg (_parseCycleResult (percentile w) (as_zero l)).
Proof.
  intros Hs. split; [intros Hupd Hok; by apply sweep_step_fulfils|].
  intros R s' Hstep.
  destruct (sweep_step_fulfilled report m s R s' Hs Hstep)
    as (s1 & s2 & l & Hlog1 & Hs1 & Hcycle & -> & ->).
  destruct (cycle_results (repeats this) s1 l s2 Hs1 Hcycle)
    as (Hlen & suf & Hlog2 & Hres).
  destruct (cycle_outcome_of_cycle (repeats this) s1 Hs1)
    as (suf' & Hlog2' & Hall & _).
  rewrite Hcycle in Hlog2'. simpl in Hlog2'. rewrite Hlog2 in Hlog2'.
  apply app_inv_head in Hlog2' as <-.
  destruct (cycle_actions_silent suf Hall) as (_ & _ & Hrep & _).
  exists l,
    ([Call (UpdateFunctionConfiguration m);
      Settled (UpdateFunctionConfiguration m) (Fulfilled Updated);
      Emit (EvStep m)] ++ suf
     ++ [Emit (EvResult (_parseCycleResult (percentile w) l))]).
  split; [simpl; by rewrite Hlog2, Hlog1, <- !app_assoc|].
  split; [done|]. split.
  { intros i Hi. destruct (Hres i Hi) as (r & Hr & Hl). exists r.
    rewrite !responses_of_app, Hr. split; [|done].
    unfold responses_of. simpl. done. }
  split; [rewrite !reports_app, Hrep; done|]. split; [done|].
  apply as_zero_same_statistics.
Qed.

(** C3, as the code has it: when the memory size can be read, every
    configuration request succeeds and every invocation is answered
    without a timing, the run does not fail: it is fulfilled, the report of
    every step has 0 for [min], [max] and [avg], and the original memory
    size is restored after the last step. *)
Theorem unmeasured_cycles_report_zero (originalMemorySize : Z) :
  getFunctionConfiguration w [Call GetFunctionConfiguration]
  = Fulfilled originalMemorySize ->
  (forall tr m, updateFunctionConfiguration w tr m = Fulfilled ()) ->
  (forall tr j q, exists response,
      invoke w tr j q = Fulfilled response
      /\ REPORT_REGEX_exec w response = None) ->
  repeats this <> 0%nat ->
  exists R,
    (run w this init).1 = Fulfilled R
    /\ (forall m, m ∈ steps this ->
          exists r, R !! m = Some r
                    /\ min r = Num 0%Q /\ max r = Num 0%Q /\ avg r = Num 0%Q)
    /\ updates (log (run w this init).2) = steps this ++ [originalMemorySize].
Proof.
  intros Hget Hupd Hnull Hrepeats.
  assert (forall tr j q, exists response, invoke w tr j q = Fulfilled response)
    as Hok.
  { intros tr j q. destruct (Hnull tr j q) as (r & Hr & _). by exists r. }
  destruct (run_shape originalMemorySize Hget)
    as (suf & bg & ro & o1 & s1 & Hreduce & Hlog & [_ Hshape] & _ & Hquiet
        & Hres & Hro).
  destruct (sweep_fulfils (steps this) ∅
              {| log := [Call GetFunctionConfiguration;
                         Settled GetFunctionConfiguration
                           (Fulfilled (Configuration originalMemorySize));
                         Emit (EvStart originalMemorySize)];
                 stray := [] |} Hupd Hok) as [R HR].
  rewrite Hreduce in HR. simpl in HR. subst o1.
  destruct ro as [u|e].
  2:{ destruct Hro as [tr Htr]. rewrite Hupd in Htr. done. }
  destruct Hshape as (Hu & _ & _ & Hleft). rewrite (Hquiet Hleft) in Hlog.
  exists R. split; [done|]. split.
  - intros m Hm.
    eapply (sweep_reports
              (fun r => min r = Num 0%Q /\ max r = Num 0%Q /\ avg r = Num 0%Q));
      [| |exact Hreduce|by left]; [|done].
    intros l sa sb Hsa Hcycle.
    apply all_null_statistics.
    + destruct (cycle_results (repeats this) sa l sb Hsa Hcycle) as [Hlen _].
      intros ->. simpl in Hlen. done.
    + eapply (cycle_values (fun d => d = None)); [|done|exact Hsa|exact Hcycle].
      intros tr i q r Hr. destruct (Hnull tr i q) as (r' & Hr' & Hnone).
      rewrite Hr in Hr'. injection Hr' as ->. unfold duration_of.
      by rewrite Hnone.
  - rewrite Hlog. read_trace. rewrite Hu. simpl. done.
Qed.

(** ** What every resumption of the timed part keeps *)

Lemma pool_invariant_end (count n : nat) (p : pool) (suf : trace) :
  pool_invariant w count n p suf ->
  (inflight p = [] -> queue p = []) ->
  inflight p = [] \/ n = 0%nat ->
  queue p = [] /\ inflight p = [].
Proof.
  intros (_ & _ & _ & _ & _ & _ & Hn) Hprog Hend.
  assert (inflight p = []) as Hin.
  { destruct Hend as [?| ->]; [done|].
    unfold resumptions in Hn.
    destruct (inflight p) as [|[i [| |q|d]] ts]; [done| | | |];
      simpl in Hn; lia. }
  split; [by apply Hprog | done].
Qed.

Section Kept.

(** A property [I] of the pool and of what has happened since the map
    began that is kept when a mapper is started and at each of its four
    resumptions holds all along the map.  When it is also kept as a mapper
    fails, which [keeps_failures] says, it goes on holding of the mappers
    left behind. *)
Variable limit count : nat.
Variable I : @pool Payload -> trace -> Prop.
Variable keeps_failures : Prop.

Hypothesis I_started : forall p suf i q j q',
  queue p = i :: q -> saturated limit p = false -> i :: q ≡ₚ j :: q' ->
  I p suf ->
  I {| queue := q'; inflight := inflight p ++ [(j, Delaying)];
       values := values p |} suf.

Hypothesis I_fired : forall p suf i rest,
  inflight p ≡ₚ (i, Delaying) :: rest ->
  I p suf ->
  I {| queue := queue p; inflight := rest ++ [(i, Sending)];
       values := values p |}
    (suf ++ [Delay (if (concurrency this =? 1)%nat then delay this else 0)]).

Hypothesis I_sent : forall p suf i rest,
  inflight p ≡ₚ (i, Sending) :: rest ->
  I p suf ->
  I {| queue := queue p;
       inflight := rest ++ [(i, Invoking (payload_of this (i + 1)))];
       values := values p |}
    (suf ++ [Call (Invoke (i + 1) (payload_of this (i + 1)))]).

Hypothesis I_answered : forall p suf i q r rest,
  inflight p ≡ₚ (i, Invoking q) :: rest ->
  I p suf ->
  I {| queue := queue p;
       inflight := rest ++ [(i, Announcing (duration_of w r))];
       values := values p |}
    (suf ++ [Settled (Invoke (i + 1) q) (Fulfilled (Invoked r))]).

Hypothesis I_announced : forall p suf i d rest,
  inflight p ≡ₚ (i, Announcing d) :: rest ->
  I p suf ->
  I {| queue := queue p; inflight := rest;
       values := <[i := d]> (values p) |}
    (suf ++ [Emit (EvInvoke d)]).

Hypothesis I_failed : keeps_failures -> forall p suf i q e rest,
  inflight p ≡ₚ (i, Invoking q) :: rest ->
  I p suf ->
  I {| queue := queue p; inflight := rest; values := values p |}
    (suf ++ [Settled (Invoke (i + 1) q) (Rejected e)]).

Lemma start_mappers_kept (choose : list nat -> nat) (k : nat) (p : pool)
    (suf : trace) :
  I p suf -> I (start_mappers choose limit k p) suf.
Proof.
  revert p; induction k as [|k IH]; intros p HI; simpl; [by destruct (queue p)|].
  destruct (queue p) as [|i q] eqn:Hq; [done|].
  destruct (saturated limit p) eqn:Hsat; [done|].
  destruct (pick (choose (i :: q)) i q) as [j q'] eqn:Hpick.
  apply pick_Permutation in Hpick. apply IH. by eapply I_started.
Qed.

Lemma resume_kept (p : pool) (suf tr : trace) (t : task) (rest : list task) :
  inflight p ≡ₚ t :: rest -> I p suf ->
  exists ext,
    (resume w this t tr).2 = tr ++ ext
    /\ match (resume w this t tr).1 with
       | Running t' =>
           I {| queue := queue p; inflight := rest ++ [t'];
                values := values p |} (suf ++ ext)
       | Finished i d =>
           I {| queue := queue p; inflight := rest;
                values := <[i := d]> (values p) |} (suf ++ ext)
       | Failed e =>
           keeps_failures ->
           I {| queue := queue p; inflight := rest; values := values p |}
             (suf ++ ext)
       end.
Proof.
  intros Hperm HI. destruct t as [i [| |q|d]].
  - rewrite resume_delaying. eexists. split; [done|]. by apply I_fired.
  - rewrite resume_sending. eexists. split; [done|]. by apply I_sent.
  - destruct (resume_invoking i q tr) as [(r & _ & ->)|(e & _ & ->)];
      (eexists; split; [done|]); cbn [fst].
    + by apply I_answered.
    + intros Hkeeps. by eapply I_failed.
  - rewrite resume_announcing. eexists. split; [done|]. by apply I_announced.
Qed.

Lemma strays_kept (n : nat) (p : pool) (s : state) (tr0 suf0 : trace) :
  keeps_failures ->
  log s = tr0 ++ suf0 -> stray s = inflight p -> I p suf0 ->
  exists suf p', log (strays w this n s) = tr0 ++ suf /\ I p' suf.
Proof.
  intros Hkeeps. revert p s suf0; induction n as [|n IH];
    intros p s suf0 Hlog Hstray HI; simpl.
  { by exists suf0, p. }
  destruct (stray s) as [|t ts] eqn:Hs; [by exists suf0, p|].
  destruct (stray_first w (log s)); [|by exists suf0, p].
  destruct (pick (next_ready w (log s)) t ts) as [t' rest] eqn:Hpick.
  apply pick_Permutation in Hpick. rewrite Hstray in Hpick.
  destruct (resume_kept p suf0 (log s) t' rest Hpick HI) as (ext & Hext & Hres).
  destruct (resume w this t' (log s)) as [[t''|i d|e] tr];
    cbn [fst snd] in Hext, Hres; subst tr.
  - eapply IH; [| |exact Hres]; [cbn [log]; by rewrite Hlog, <- app_assoc|done].
  - eapply IH; [| |exact Hres]; [cbn [log]; by rewrite Hlog, <- app_assoc|done].
  - eapply IH; [| |exact (Hres Hkeeps)];
      [cbn [log]; by rewrite Hlog, <- app_assoc|done].
Qed.

Lemma map_loop_kept (n : nat) (p : pool) (s : state) (tr0 suf0 : trace) :
  log s = tr0 ++ suf0 -> stray s = [] ->
  pool_invariant w count n p suf0 ->
  (inflight p = [] -> queue p = []) ->
  I p suf0 ->
  exists suf,
    log (map_loop w this limit n p s).2 = tr0 ++ suf
    /\ match (map_loop w this limit n p s).1 with
       | Fulfilled l =>
           exists p',
             l = values p' /\ queue p' = [] /\ inflight p' = [] /\ I p' suf
       | Rejected e => keeps_failures -> exists p', I p' suf
       end.
Proof.
  revert p s suf0; induction n as [|n IH];
    intros p s suf0 Hlog Hs Hinv Hprog HI.
  { exists suf0.
    destruct (pool_invariant_end count 0 p suf0 Hinv Hprog) as [Hq Hin];
      [by right|].
    simpl. split; [done|]. by exists p. }
  cbn [map_loop]. destruct (inflight p) as [|t ts] eqn:Hin.
  { exists suf0. cbn [fst snd]. split; [done|]. exists p.
    rewrite Hin. by rewrite Hprog. }
  destruct (pick (next_ready w (log s)) t ts) as [t' rest] eqn:Hpick.
  apply pick_Permutation in Hpick. rewrite <- Hin in Hpick.
  pose proof (pool_invariant_step limit count n p suf0 (log s) t' rest
                Hinv Hpick) as Hstep.
  destruct (resume_kept p suf0 (log s) t' rest Hpick HI) as (ext & Hext & Hres).
  destruct (resume w this t' (log s)) as [[t''|i d|e] tr];
    cbn [fst snd] in Hext, Hres; subst tr.
  - destruct Hstep as (ext' & Heq & Hinv'). apply app_inv_head in Heq as <-.
    eapply IH; [| | | |exact Hres].
    + cbn [log]. by rewrite Hlog, <- app_assoc.
    + done.
    + done.
    + cbn [inflight]. intros Hnil. by destruct rest.
  - destruct Hstep as (ext' & Heq & Hinv'). apply app_inv_head in Heq as <-.
    eapply IH.
    + cbn [log]. by rewrite Hlog, <- app_assoc.
    + done.
    + done.
    + by apply start_mappers_progress.
    + by apply start_mappers_kept.
  - cbn [fst snd]. rewrite Hs. cbn [app].
    match goal with
    | |- context [strays w this ?k ?st] => set (fuel := k); set (s' := st)
    end.
    destruct (strays_log fuel s') as (bg & Hbg & _).
    exists (suf0 ++ ext ++ bg).
    split; [rewrite Hbg; subst s'; cbn [log]; by rewrite Hlog, <- !app_assoc|].
    intros Hkeeps.
    destruct (strays_kept fuel
                {| queue := queue p; inflight := rest; values := values p |}
                s' tr0 (suf0 ++ ext) Hkeeps)
      as (suf & p' & Hl & HI').
    + subst s'. cbn [log]. by rewrite Hlog, <- app_assoc.
    + done.
    + by apply Hres.
    + exists p'. rewrite Hbg in Hl. subst s'. cbn [log] in Hl.
      rewrite Hlog, <- !app_assoc in Hl.
      apply app_inv_head in Hl. by rewrite <- Hl in HI'.
Qed.

Lemma BPromise_map_kept (s : state) :
  limit = concurrency this -> stray s = [] ->
  I {| queue := seq 0 count; inflight := []; values := replicate count None |} [] ->
  exists suf,
    log (BPromise_map w this count s).2 = log s ++ suf
    /\ match (BPromise_map w this count s).1 with
       | Fulfilled l =>
           exists p',
             l = values p' /\ queue p' = [] /\ inflight p' = [] /\ I p' suf
       | Rejected e => keeps_failures -> exists p', I p' suf
       end.
Proof.
  intros Hlimit Hs HI. unfold BPromise_map. rewrite <- Hlimit.
  set (p0 := {| queue := seq 0 count; inflight := [];
                values := replicate count None |}) in *.
  apply map_loop_kept with (suf0 := []).
  - by rewrite app_nil_r.
  - done.
  - apply start_mappers_invariant.
    unfold pool_invariant, pending, resumptions. simpl.
    rewrite app_nil_r, length_replicate, length_seq.
    split; [apply NoDup_seq|]. split; [done|].
    split; [intros i Hi; apply elem_of_seq in Hi; lia|].
    split; [done|]. split; [done|]. split; [|lia].
    intros i Hi Hni. exfalso. apply Hni, elem_of_seq. lia.
  - apply start_mappers_progress. simpl. by rewrite length_seq.
  - by apply start_mappers_kept.
Qed.

End Kept.

(** ** The head of a cycle, with its payload *)

Lemma invokeLambda_quiet_payload (i : nat) (s : state) :
  stray s = [] ->
  exists o,
    log (_invokeLambda w this i s).2
    = log s ++ [Call (Invoke i (payload_of this i));
                Settled (Invoke i (payload_of this i)) o]
    /\ stray (_invokeLambda w this i s).2 = []
    /\ match (_invokeLambda w this i s).1 with
       | Fulfilled d => exists response, o = Fulfilled (Invoked response)
       | Rejected e => o = Rejected e
       end.
Proof.
  intros Hs. unfold _invokeLambda, send_invoke. simpl.
  rewrite strays_none by done. simpl. unfold receive_invoke.
  fold (payload_of this i).
  destruct (invoke w (log s ++ [Call (Invoke i (payload_of this i))]) i
              (payload_of this i)) as [r|e]; simpl.
  - exists (Fulfilled (Invoked r)). rewrite <- app_assoc. eauto.
  - exists (Rejected e). by rewrite <- app_assoc.
Qed.

(** A cycle begins in one of three ways: the warm-up invocation is
    answered, it is rejected, or there is none. *)
Lemma cycle_head (count : nat) (s : state) :
  stray s = [] ->
  exists head s1,
    log s1 = log s ++ head /\ stray s1 = []
    /\ ((exists r,
            warmup this && (concurrency this =? 1)%nat = true
            /\ head = [Emit EvWarmup; Call (Invoke 0 (payload_of this 0));
                       Settled (Invoke 0 (payload_of this 0))
                         (Fulfilled (Invoked r));
                       Delay (delay this)]
            /\ _cycle w this count s = BPromise_map w this count s1)
        \/ (exists e,
            warmup this && (concurrency this =? 1)%nat = true
            /\ head = [Emit EvWarmup; Call (Invoke 0 (payload_of this 0));
                       Settled (Invoke 0 (payload_of this 0)) (Rejected e)]
            /\ _cycle w this count s = (Rejected e, s1))
        \/ (warmup this && (concurrency this =? 1)%nat = false
            /\ head = [Delay (if warmup this then delay this else 0)]
            /\ _cycle w this count s = BPromise_map w this count s1)).
Proof.
  intros Hs. unfold _cycle, bind, ret, emit, BPromise_delay.
  destruct (warmup this) eqn:Hw; destruct (concurrency this =? 1)%nat eqn:Hc;
    simpl.
  2-4: eexists [_], (record _ s); split; [done|]; split; [done|];
       right; right; done.
  destruct (invokeLambda_quiet_payload 0 (record (Emit EvWarmup) s) Hs)
    as (o & Hlog & Hstray & Hres).
  destruct (_invokeLambda w this 0 (record (Emit EvWarmup) s)) as [[d|e] s1];
    simpl in *.
  - destruct Hres as (r & ->).
    eexists _, (record (Delay (delay this)) s1). split.
    { simpl. rewrite Hlog, <- !app_assoc. simpl. reflexivity. }
    split; [done|]. left. by exists r.
  - subst o. eexists _, s1. split.
    { rewrite Hlog, <- !app_assoc. simpl. reflexivity. }
    split; [done|]. right; left. by exists e.
Qed.

(** ** Every index is invoked once *)

Lemma delaying_app (a b : list (@task Payload)) :
  delaying (a ++ b) = delaying a ++ delaying b.
Proof. apply omap_app. Qed.

Lemma invoking_app (a b : list (@task Payload)) :
  invoking (a ++ b) = invoking a ++ invoking b.
Proof. apply omap_app. Qed.

Lemma settlements_app (a b : trace) :
  settlements (a ++ b) = settlements a ++ settlements b.
Proof. apply omap_app. Qed.

Lemma observed_app (a b : trace) : observed (a ++ b) = observed a ++ observed b.
Proof. apply omap_app. Qed.

Lemma delaying_Permutation (a b : list (@task Payload)) :
  a ≡ₚ b -> delaying a ≡ₚ delaying b.
Proof. intros H. unfold delaying. by rewrite H. Qed.

Lemma invoking_Permutation (a b : list (@task Payload)) :
  a ≡ₚ b -> invoking a ≡ₚ invoking b.
Proof. intros H. unfold invoking. by rewrite H. Qed.

Lemma sent_or_waiting_started (limit count : nat) (p : pool) (suf : trace)
    (i : nat) (q : list nat) (j : nat) (q' : list nat) :
  queue p = i :: q -> saturated limit p = false -> i :: q ≡ₚ j :: q' ->
  sent_or_waiting count p suf ->
  sent_or_waiting count
    {| queue := q'; inflight := inflight p ++ [(j, Delaying)];
       values := values p |} suf.
Proof.
  unfold sent_or_waiting. intros Hq _ Hperm HI. cbn [queue inflight].
  rewrite <- HI, Hq, delaying_app.
  change (delaying [(j, Delaying)]) with [j].
  apply Permutation_app_head, fmap_Permutation.
  rewrite Hperm.
  rewrite (Permutation_app_comm (delaying (inflight p)) [j]), app_assoc.
  by rewrite <- Permutation_cons_append.
Qed.

(** A resumption that sends no invocation and leaves waiting who waited. *)
Lemma sent_or_waiting_same (count : nat) (p p' : pool) (suf ext : trace) :
  queue p' = queue p -> delaying (inflight p') ≡ₚ delaying (inflight p) ->
  attempts ext = [] ->
  sent_or_waiting count p suf -> sent_or_waiting count p' (suf ++ ext).
Proof.
  unfold sent_or_waiting. intros Hq Hd Hext HI.
  by rewrite attempts_app, Hext, app_nil_r, Hq, Hd.
Qed.

Lemma sent_or_waiting_sent (count : nat) (p : pool) (suf : trace) (i : nat)
    (rest : list task) (q : Payload) :
  inflight p ≡ₚ (i, Sending) :: rest ->
  sent_or_waiting count p suf ->
  sent_or_waiting count
    {| queue := queue p; inflight := rest ++ [(i, Invoking q)];
       values := values p |}
    (suf ++ [Call (Invoke (i + 1) q)]).
Proof.
  unfold sent_or_waiting. intros Hperm HI. cbn [queue inflight].
  rewrite <- HI, attempts_app, <- app_assoc.
  apply Permutation_app_head.
  rewrite (delaying_Permutation _ _ Hperm), delaying_app.
  change (attempts [Call (Invoke (i + 1) q)]) with [(i + 1)%nat].
  change (delaying [(i, Invoking q)]) with (@nil nat). rewrite app_nil_r.
  change (delaying ((i, Sending) :: rest)) with (i :: delaying rest).
  rewrite !fmap_app, fmap_cons.
  by rewrite <- Permutation_middle.
Qed.

Lemma fmap_succ_seq (a n : nat) :
  (fun i => (i + 1)%nat) <$> seq a n = seq (a + 1) n.
Proof.
  revert a; induction n as [|n IH]; intros a; [done|].
  simpl. by rewrite IH.
Qed.

(** The invocations the timed part has sent, with those it still had to
    send when it ended, are those of the indices from 1 to [count]. *)
Lemma timed_attempts (count : nat) (s : state) :
  stray s = [] ->
  exists timed waiting,
    log (BPromise_map w this count s).2 = log s ++ timed
    /\ attempts timed ++ waiting ≡ₚ seq 1 count
    /\ forall l, (BPromise_map w this count s).1 = Fulfilled l -> waiting = [].
Proof.
  intros Hs.
  destruct (BPromise_map_kept (concurrency this) count (sent_or_waiting count)
              True)
    with (s := s) as (suf & Hlog & Hres).
  - intros. by eapply sent_or_waiting_started.
  - intros p suf i rest Hperm HI.
    eapply (sent_or_waiting_same count p); [done| |done|exact HI].
    cbn [inflight].
    rewrite (delaying_Permutation _ _ Hperm), delaying_app.
    change (delaying [(i, Sending)]) with [i].
    change (delaying ((i, Delaying) :: rest)) with (i :: delaying rest).
    by rewrite <- Permutation_cons_append.
  - intros. by apply sent_or_waiting_sent.
  - intros p suf i q r rest Hperm HI.
    eapply (sent_or_waiting_same count p); [done| |done|exact HI].
    cbn [inflight].
    rewrite (delaying_Permutation _ _ Hperm), delaying_app.
    change (delaying [(i, Announcing (duration_of w r))]) with (@nil nat).
    by rewrite app_nil_r.
  - intros p suf i d rest Hperm HI.
    eapply (sent_or_waiting_same count p); [done| |done|exact HI].
    cbn [inflight].
    by rewrite (delaying_Permutation _ _ Hperm).
  - intros _ p suf i q e rest Hperm HI.
    eapply (sent_or_waiting_same count p); [done| |done|exact HI].
    cbn [inflight].
    by rewrite (delaying_Permutation _ _ Hperm).
  - done.
  - done.
  - unfold sent_or_waiting. simpl. by rewrite app_nil_r, fmap_succ_seq.
  - destruct (BPromise_map w this count s).1 as [l|e].
    + destruct Hres as (p' & _ & Hq & Hin & HI).
      exists suf, []. split; [done|]. split; [|done].
      unfold sent_or_waiting in HI. rewrite Hq, Hin in HI. exact HI.
    + destruct (Hres Logic.I) as (p' & HI).
      exists suf, ((fun i => (i + 1)%nat) <$> (queue p' ++ delaying (inflight p'))).
      done.
Qed.

(** X5: a cycle sends no invocation twice and none of an index above [count],
    however it ends; fulfilled, it has sent each of the invocations 1 to [count]
    once, after invocation 0 when there is a warm-up. *)
Theorem every_index_is_invoked_once (count : nat) (s : state) :
  stray s = [] ->
  exists suf,
    log (_cycle w this count s).2 = log s ++ suf
    /\ NoDup (attempts suf)
    /\ (forall i, i ∈ attempts suf -> (i <= count)%nat)
    /\ (forall l,
          (_cycle w this count s).1 = Fulfilled l ->
          attempts suf
          ≡ₚ (if warmup this && (concurrency this =? 1)%nat
              then seq 0 (S count) else seq 1 count)).
Proof.
  intros Hs.
  destruct (cycle_head count s Hs) as (head & s1 & Hlog1 & Hs1 & Hcase).
  destruct (timed_attempts count s1 Hs1)
    as (timed & waiting & Hlog & Hperm & Hall).
  assert (NoDup (attempts timed)
          /\ forall i, i ∈ attempts timed -> (1 <= i <= count)%nat)
    as [Hnd Hbound].
  { split.
    - assert (NoDup (attempts timed ++ waiting)) as Hnd
        by (rewrite Hperm; apply NoDup_seq).
      by apply NoDup_app in Hnd as [Hnd _].
    - intros i Hi.
      assert (i ∈ seq 1 count) as Hin.
      { rewrite <- Hperm. apply elem_of_app. by left. }
      apply elem_of_seq in Hin. lia. }
  destruct Hcase as [(r & Hwarm & -> & Heq)|[(e & Hwarm & -> & Heq)
                                            |(Hwarm & -> & Heq)]];
    rewrite Heq, Hwarm.
  - exists ([Emit EvWarmup; Call (Invoke 0 (payload_of this 0));
             Settled (Invoke 0 (payload_of this 0)) (Fulfilled (Invoked r));
             Delay (delay this)] ++ timed).
    split; [by rewrite Hlog, Hlog1, <- app_assoc|].
    rewrite attempts_app.
    change (attempts [Emit EvWarmup; _; _; _]) with [0%nat]. simpl.
    split.
    { apply NoDup_cons. split; [|done]. intros H0. apply Hbound in H0. lia. }
    split.
    { intros i Hi. apply elem_of_cons in Hi as [->|Hi]; [lia|].
      apply Hbound in Hi. lia. }
    intros l Hl. constructor. rewrite <- Hperm, (Hall l Hl). by rewrite app_nil_r.
  - exists [Emit EvWarmup; Call (Invoke 0 (payload_of this 0));
            Settled (Invoke 0 (payload_of this 0)) (Rejected e)].
    simpl. split; [done|].
    split; [apply NoDup_singleton|].
    split; [|done].
    intros i Hi. apply list_elem_of_singleton in Hi as ->. lia.
  - exists ([Delay (if warmup this then delay this else 0)] ++ timed).
    split; [by rewrite Hlog, Hlog1, <- app_assoc|].
    rewrite attempts_app. simpl.
    split; [done|].
    split; [intros i Hi; apply Hbound in Hi; lia|].
    intros l Hl. rewrite <- Hperm, (Hall l Hl). by rewrite app_nil_r.
Qed.

(** ** The durations announced are the results *)

Lemma announced_or_pending_perm (p p' : pool) (suf ext : trace) :
  pending p' ≡ₚ pending p -> values p' = values p ->
  observed ext = [] ->
  announced_or_pending p suf -> announced_or_pending p' (suf ++ ext).
Proof.
  intros Hperm Hval Hext (Hnd & Hnull & Hobs).
  split; [by rewrite Hperm|].
  split; [intros i; rewrite Hperm, Hval; apply Hnull|].
  by rewrite observed_app, Hext, app_nil_r, Hperm, Hval.
Qed.

(** A mapper that goes on is still pending. *)
Lemma pending_resumed (p : pool) (i : nat) (st st' : stage)
    (rest : list (@task Payload)) :
  inflight p ≡ₚ (i, st) :: rest ->
  pending {| queue := queue p; inflight := rest ++ [(i, st')];
             values := values p |} ≡ₚ pending p.
Proof.
  intros Hperm. unfold pending. cbn [queue inflight].
  rewrite Hperm, fmap_app, fmap_cons. cbn [fmap list_fmap fst].
  by rewrite <- Permutation_cons_append.
Qed.

Lemma insert_Permutation_delete {A} (l : list A) (i : nat) (x : A) :
  (i < length l)%nat -> <[i := x]> l ≡ₚ x :: base.delete i l.
Proof.
  intros Hi. rewrite insert_take_drop by done. rewrite delete_take_drop.
  by rewrite Permutation_middle.
Qed.

Lemma announced_or_pending_announced (p : pool) (suf : trace) (i : nat)
    (d : duration) (rest : list (@task Payload)) :
  inflight p ≡ₚ (i, Announcing d) :: rest ->
  announced_or_pending p suf ->
  announced_or_pending
    {| queue := queue p; inflight := rest; values := <[i := d]> (values p) |}
    (suf ++ [Emit (EvInvoke d)]).
Proof.
  intros Hperm (Hnd & Hnull & Hobs).
  assert (pending p ≡ₚ i :: (queue p ++ rest.*1)) as Hpending.
  { unfold pending. rewrite Hperm. simpl. by rewrite Permutation_middle. }
  rewrite Hpending in Hnd. apply NoDup_cons in Hnd as [Hi Hnd].
  assert (values p !! i = Some None) as Hslot.
  { apply Hnull. rewrite Hpending. by left. }
  unfold announced_or_pending, pending. cbn [queue inflight values].
  split; [done|]. split.
  - intros j Hj. rewrite list_lookup_insert_ne by (intros ->; done).
    apply Hnull. rewrite Hpending. by right.
  - rewrite observed_app.
    change (observed [Emit (EvInvoke d)]) with [d].
    rewrite Hpending in Hobs. cbn [length replicate] in Hobs.
    rewrite (delete_Permutation _ _ _ Hslot) in Hobs.
    rewrite <- Permutation_middle in Hobs.
    apply Permutation_cons_inv in Hobs.
    rewrite insert_Permutation_delete by (by eapply lookup_lt_Some).
    rewrite <- app_assoc. cbn [app]. rewrite <- Permutation_middle.
    by constructor.
Qed.

Lemma timed_observed (count : nat) (s : state) (l : list duration) (s' : state) :
  stray s = [] ->
  BPromise_map w this count s = (Fulfilled l, s') ->
  exists timed, log s' = log s ++ timed /\ observed timed ≡ₚ l.
Proof.
  intros Hs Hrun.
  destruct (BPromise_map_kept (concurrency this) count announced_or_pending
              False)
    with (s := s) as (suf & Hlog & Hres).
  - intros p suf i q j q' Hq _ Hperm HI.
    rewrite <- (app_nil_r suf).
    eapply announced_or_pending_perm; [| | |exact HI]; [|done|done].
    unfold pending. cbn [queue inflight]. rewrite Hq, fmap_app. simpl.
    rewrite (Permutation_app_comm (inflight p).*1 [j]), app_assoc.
    by rewrite <- Permutation_cons_append, <- Hperm.
  - intros p suf i rest Hperm HI.
    eapply announced_or_pending_perm; [| | |exact HI]; [|done|done].
    by eapply pending_resumed.
  - intros p suf i rest Hperm HI.
    eapply announced_or_pending_perm; [| | |exact HI]; [|done|done].
    by eapply pending_resumed.
  - intros p suf i q r rest Hperm HI.
    eapply announced_or_pending_perm; [| | |exact HI]; [|done|done].
    by eapply pending_resumed.
  - intros. by apply announced_or_pending_announced.
  - done.
  - done.
  - done.
  - unfold announced_or_pending, pending. simpl.
    rewrite app_nil_r, length_seq.
    split; [apply NoDup_seq|]. split; [|done].
    intros i Hi. apply elem_of_seq in Hi.
    apply lookup_replicate_2. lia.
  - rewrite Hrun in Hlog, Hres. simpl in Hlog, Hres.
    destruct Hres as (p' & -> & Hq & Hin & _ & _ & Hobs).
    exists suf. split; [done|].
    unfold pending in Hobs. rewrite Hq, Hin in Hobs. simpl in Hobs.
    by rewrite app_nil_r in Hobs.
Qed.

(** X6: a fulfilled cycle has emitted one 'invoke' event for each of its results
    and no other: the durations announced are the results, up to their order
    (the events follow the answers, the results the indices); the warm-up
    invocation is not announced. *)
Theorem invoke_events_announce_the_results (count : nat) (s : state)
    (l : list duration) (s' : state) :
  stray s = [] ->
  _cycle w this count s = (Fulfilled l, s') ->
  exists suf,
    log s' = log s ++ suf
    /\ observed suf ≡ₚ l
    /\ length (observed suf) = count.
Proof.
  intros Hs Hrun.
  destruct (cycle_results count s l s' Hs Hrun) as [Hlen _].
  destruct (cycle_head count s Hs) as (head & s1 & Hlog1 & Hs1 & Hcase).
  assert (observed head = [] /\ BPromise_map w this count s1 = (Fulfilled l, s'))
    as [Hhead Hmap].
  { destruct Hcase as [(r & _ & -> & Heq)|[(e & _ & _ & Heq)|(_ & -> & Heq)]];
      [split; [done|congruence]|congruence|split; [done|congruence]]. }
  destruct (timed_observed count s1 l s' Hs1 Hmap) as (timed & Hlog & Hobs).
  exists (head ++ timed). split; [by rewrite Hlog, Hlog1, <- app_assoc|].
  rewrite observed_app, Hhead. simpl. split; [done|].
  by rewrite Hobs.
Qed.

(** ** The concurrency limit *)

Lemma invoking_length (running : list (@task Payload)) :
  (length (invoking running) <= length running)%nat.
Proof.
  induction running as [|[i [| |q|d]] ts IH]; simpl in *; lia.
Qed.

(** What holds of every prefix of a trace holds of every prefix of the
    trace with one more action when it holds of the whole. *)
Lemma every_prefix_snoc (P : trace -> Prop) (suf : trace) (a : action) :
  (forall pre post, suf = pre ++ post -> P pre) ->
  P (suf ++ [a]) ->
  forall pre post, suf ++ [a] = pre ++ post -> P pre.
Proof.
  intros Hold Hnew pre post. destruct post as [|b post _] using rev_ind.
  - rewrite app_nil_r. by intros <-.
  - rewrite app_assoc. intros [Heq _]%app_inj_tail. by eapply Hold.
Qed.

Lemma within_limit_started (limit : nat) (p : pool) (suf : trace)
    (j : nat) (q' : list nat) :
  (1 <= limit)%nat -> saturated limit p = false ->
  within_limit limit p suf ->
  within_limit limit
    {| queue := q'; inflight := inflight p ++ [(j, Delaying)];
       values := values p |} suf.
Proof.
  intros Hlimit Hsat (Hlen & Hout & Hpre).
  unfold within_limit. cbn [inflight].
  rewrite length_app, invoking_app.
  change (invoking [(j, Delaying)]) with (@nil nat). rewrite app_nil_r.
  split; [|done].
  unfold saturated in Hsat. apply andb_false_iff in Hsat as [Hsat|Hsat].
  - apply Nat.leb_gt in Hsat. lia.
  - apply Nat.leb_gt in Hsat. simpl. lia.
Qed.

(** One more action keeps the limit when no mapper is added and the
    invocations not yet answered are still those of running mappers. *)
Lemma within_limit_step (limit : nat) (p p' : pool) (suf : trace) (a : action) :
  (length (inflight p') <= length (inflight p))%nat ->
  length (attempts (suf ++ [a]))
  = (length (settlements (suf ++ [a])) + length (invoking (inflight p')))%nat ->
  within_limit limit p suf -> within_limit limit p' (suf ++ [a]).
Proof.
  intros Hfewer Hout' (Hlen & Hout & Hpre).
  pose proof (invoking_length (inflight p')) as Hle.
  split; [lia|]. split; [done|].
  apply (every_prefix_snoc
           (fun pre => (length (attempts pre)
                        <= length (settlements pre) + limit)%nat)); [done|].
  lia.
Qed.

Lemma timed_within_limit (count : nat) (s : state) :
  stray s = [] -> (1 <= concurrency this)%nat ->
  exists timed,
    log (BPromise_map w this count s).2 = log s ++ timed
    /\ forall pre post,
         timed = pre ++ post ->
         (length (attempts pre)
          <= length (settlements pre) + concurrency this)%nat.
Proof.
  intros Hs Hlimit.
  assert (forall (p : @pool Payload) (t : task) (rest : list task),
            inflight p ≡ₚ t :: rest ->
            length (inflight p) = S (length rest)
            /\ length (invoking (inflight p)) = length (invoking (t :: rest)))
    as Hcount.
  { intros p t rest Hperm. split.
    - by rewrite (Permutation_length Hperm).
    - by rewrite (Permutation_length (invoking_Permutation _ _ Hperm)). }
  destruct (BPromise_map_kept (concurrency this) count
              (within_limit (concurrency this)) True)
    with (s := s) as (suf & Hlog & Hres).
  - intros. by apply within_limit_started.
  - intros p suf i rest Hperm HI. destruct (Hcount p _ _ Hperm) as [Hl Hi].
    eapply within_limit_step; [| |exact HI]; cbn [inflight].
    + rewrite length_app, Hl. simpl. unfold task in *. lia.
    + destruct HI as (_ & Hout & _).
      rewrite attempts_app, settlements_app, invoking_app, !length_app.
      simpl in *. unfold task in *. lia.
  - intros p suf i rest Hperm HI. destruct (Hcount p _ _ Hperm) as [Hl Hi].
    eapply within_limit_step; [| |exact HI]; cbn [inflight].
    + rewrite length_app, Hl. simpl. unfold task in *. lia.
    + destruct HI as (_ & Hout & _).
      rewrite attempts_app, settlements_app, invoking_app, !length_app.
      simpl in *. unfold task in *. lia.
  - intros p suf i q r rest Hperm HI. destruct (Hcount p _ _ Hperm) as [Hl Hi].
    eapply within_limit_step; [| |exact HI]; cbn [inflight].
    + rewrite length_app, Hl. simpl. unfold task in *. lia.
    + destruct HI as (_ & Hout & _).
      rewrite attempts_app, settlements_app, invoking_app, !length_app.
      simpl in *. unfold task in *. lia.
  - intros p suf i d rest Hperm HI. destruct (Hcount p _ _ Hperm) as [Hl Hi].
    eapply within_limit_step; [| |exact HI]; cbn [inflight].
    + rewrite Hl. unfold task in *. lia.
    + destruct HI as (_ & Hout & _).
      rewrite attempts_app, settlements_app, !length_app.
      simpl in *. unfold task in *. lia.
  - intros _ p suf i q e rest Hperm HI. destruct (Hcount p _ _ Hperm) as [Hl Hi].
    eapply within_limit_step; [| |exact HI]; cbn [inflight].
    + rewrite Hl. unfold task in *. lia.
    + destruct HI as (_ & Hout & _).
      rewrite attempts_app, settlements_app, !length_app.
      simpl in *. unfold task in *. lia.
  - done.
  - done.
  - unfold within_limit. simpl. split; [lia|]. split; [done|].
    intros pre post Heq. symmetry in Heq. apply app_eq_nil in Heq as [-> _].
    simpl. lia.
  - exists suf. split; [done|].
    destruct (BPromise_map w this count s).1 as [l|e].
    + by destruct Hres as (p' & _ & _ & _ & _ & _ & Hpre).
    + by destruct (Hres Logic.I) as (p' & _ & _ & Hpre).
Qed.

Lemma every_prefix_app (P : trace -> Prop) (head timed : trace) :
  (forall pre post, head = pre ++ post -> P pre) ->
  (forall pre post, timed = pre ++ post -> P (head ++ pre)) ->
  forall pre post, head ++ timed = pre ++ post -> P pre.
Proof.
  intros Hhead Htimed pre post Heq.
  apply app_eq_inv in Heq as [(k & -> & _)|(k & -> & ->)].
  - by eapply Hhead.
  - by eapply Htimed.
Qed.

(** X7: with a concurrency of 1 or more, at no moment of a cycle are more
    invocations awaiting their answer than the concurrency allows: after any
    part of the cycle, the invocations sent are at most that many more than the
    invocations answered. *)
Theorem concurrency_limit_is_respected (count : nat) (s : state) :
  stray s = [] -> (1 <= concurrency this)%nat ->
  exists suf,
    log (_cycle w this count s).2 = log s ++ suf
    /\ forall pre post,
         suf = pre ++ post ->
         (length (attempts pre)
          <= length (settlements pre) + concurrency this)%nat.
Proof.
  intros Hs Hlimit.
  destruct (cycle_head count s Hs) as (head & s1 & Hlog1 & Hs1 & Hcase).
  destruct (timed_within_limit count s1 Hs1 Hlimit) as (timed & Hlog & Hpre).
  destruct Hcase as [(r & _ & -> & Heq)|[(e & _ & -> & Heq)|(_ & -> & Heq)]];
    rewrite Heq.
  - eexists. split; [by rewrite Hlog, Hlog1, <- app_assoc|].
    apply (every_prefix_app
             (fun pre => (length (attempts pre)
                          <= length (settlements pre) + concurrency this)%nat)).
    + intros pre post Hsplit.
      repeat (destruct pre as [|? pre];
              [simpl; lia
              |simpl in Hsplit;
               first [discriminate Hsplit | injection Hsplit as <- Hsplit]]).
    + intros pre post Hsplit. specialize (Hpre pre post Hsplit).
      rewrite attempts_app, settlements_app, !length_app. simpl. lia.
  - eexists. split; [simpl; by rewrite Hlog1|].
    intros pre post Hsplit.
    repeat (destruct pre as [|? pre];
            [simpl; lia
            |simpl in Hsplit;
             first [discriminate Hsplit | injection Hsplit as <- Hsplit]]).
  - eexists. split; [by rewrite Hlog, Hlog1, <- app_assoc|].
    apply (every_prefix_app
             (fun pre => (length (attempts pre)
                          <= length (settlements pre) + concurrency this)%nat)).
    + intros pre post Hsplit.
      repeat (destruct pre as [|? pre];
              [simpl; lia
              |simpl in Hsplit;
               first [discriminate Hsplit | injection Hsplit as <- Hsplit]]).
    + intros pre post Hsplit. specialize (Hpre pre post Hsplit).
      rewrite attempts_app, settlements_app, !length_app. simpl. lia.
Qed.

(** ** The payload of an invocation *)

Lemma timed_payloads (count : nat) (s : state) :
  stray s = [] ->
  exists timed,
    log (BPromise_map w this count s).2 = log s ++ timed
    /\ Forall (payload_by_index this) timed.
Proof.
  intros Hs.
  assert (forall (p : @pool Payload) suf (t t' : task) rest (a : action),
            inflight p ≡ₚ t :: rest ->
            payload_by_index this a ->
            match t'.2 with
            | Invoking q => q = payload_of this (t'.1 + 1)
            | _ => True
            end ->
            payloads_by_index this p suf ->
            payloads_by_index this
              {| queue := queue p; inflight := rest ++ [t'];
                 values := values p |} (suf ++ [a])) as Hstep.
  { intros p suf t t' rest a Hperm Ha Ht' [Hsuf Hrun]. rewrite Hperm in Hrun.
    apply Forall_cons in Hrun as [_ Hrest]. split.
    - apply Forall_app. split; [done|]. by apply Forall_singleton.
    - cbn [inflight]. apply Forall_app. split; [done|].
      by apply Forall_singleton. }
  assert (forall (p : @pool Payload) suf (t : task) rest vals (a : action),
            inflight p ≡ₚ t :: rest ->
            payload_by_index this a ->
            payloads_by_index this p suf ->
            payloads_by_index this
              {| queue := queue p; inflight := rest; values := vals |}
              (suf ++ [a])) as Hdrop.
  { intros p suf t rest vals a Hperm Ha [Hsuf Hrun]. rewrite Hperm in Hrun.
    apply Forall_cons in Hrun as [_ Hrest]. split; [|done].
    apply Forall_app. split; [done|]. by apply Forall_singleton. }
  assert (forall (p : @pool Payload) (suf : trace) i q rest,
            inflight p ≡ₚ (i, Invoking q) :: rest ->
            payloads_by_index this p suf -> q = payload_of this (i + 1))
    as Hq.
  { intros p suf i q rest Hperm [_ Hrun]. rewrite Hperm in Hrun.
    by apply Forall_cons in Hrun as [? _]. }
  destruct (BPromise_map_kept (concurrency this) count (payloads_by_index this)
              True)
    with (s := s) as (suf & Hlog & Hres).
  - intros p suf i q j q' _ _ _ [Hsuf Hrun]. split; [done|].
    cbn [inflight]. apply Forall_app. split; [done|]. by apply Forall_singleton.
  - intros p suf i rest Hperm HI. by eapply Hstep.
  - intros p suf i rest Hperm HI. by eapply Hstep.
  - intros p suf i q r rest Hperm HI. eapply Hstep; [done| |done|done].
    by eapply Hq.
  - intros p suf i d rest Hperm HI. by eapply Hdrop.
  - intros _ p suf i q e rest Hperm HI. eapply Hdrop; [done| |done].
    by eapply Hq.
  - done.
  - done.
  - by split.
  - exists suf. split; [done|].
    destruct (BPromise_map w this count s).1 as [l|e].
    + by destruct Hres as (p' & _ & _ & _ & Hsuf & _).
    + by destruct (Hres Logic.I) as (p' & Hsuf & _).
Qed.

(** X8: every invocation of a cycle, the warm-up one too, is sent with the
    payload of its own index: [this.payload(i)] when the payload is a function
    and the payload itself otherwise; so a payload that is not a function is the
    payload of every invocation. *)
Theorem every_invocation_carries_its_payload (count : nat) (s : state) :
  stray s = [] ->
  exists suf,
    log (_cycle w this count s).2 = log s ++ suf
    /\ Forall (payload_by_index this) suf
    /\ forall v i q,
         payload this = Value v -> Call (Invoke i q) ∈ suf -> q = v.
Proof.
  intros Hs.
  destruct (cycle_head count s Hs) as (head & s1 & Hlog1 & Hs1 & Hcase).
  destruct (timed_payloads count s1 Hs1) as (timed & Hlog & Htimed).
  assert (exists suf,
            log (_cycle w this count s).2 = log s ++ suf
            /\ Forall (payload_by_index this) suf) as (suf & Hsuf & Hall).
  { destruct Hcase as [(r & _ & -> & Heq)|[(e & _ & -> & Heq)|(_ & -> & Heq)]];
      rewrite Heq.
    - eexists. split; [by rewrite Hlog, Hlog1, <- app_assoc|].
      apply Forall_app. split; [|done].
      repeat (apply Forall_cons; split; [done|]). done.
    - eexists. split; [simpl; by rewrite Hlog1|].
      repeat (apply Forall_cons; split; [done|]). done.
    - eexists. split; [by rewrite Hlog, Hlog1, <- app_assoc|].
      apply Forall_app. split; [|done]. by apply Forall_singleton. }
  exists suf. split; [done|]. split; [done|].
  intros v i q Hv Hin.
  rewrite Forall_forall in Hall. specialize (Hall _ Hin). simpl in Hall.
  unfold payload_of in Hall. by rewrite Hv in Hall.
Qed.

(** ** A cycle with a concurrency of 1, of any length *)

(** With a limit of 1 the map is a sequence of rounds, one item after the
    other in the order they are started; a rejected invocation ends it and
    leaves no mapper behind. *)
Lemma serial_loop (k : nat) :
  (concurrency this =? 1)%nat = true ->
  forall (q : list nat) (j n : nat) (vals : list duration) (s : state),
    length q = k -> (4 * S k <= n)%nat -> stray s = [] ->
    exists jrs : list (nat * Response),
      match (map_loop w this 1 n
               {| queue := q; inflight := [(j, Delaying)]; values := vals |} s).1
      with
      | Fulfilled l =>
          log (map_loop w this 1 n
                 {| queue := q; inflight := [(j, Delaying)]; values := vals |}
                 s).2
          = log s ++ concat (round w this <$> jrs)
          /\ jrs.*1 ≡ₚ j :: q
          /\ ((forall items, next_started w items = 0%nat) -> jrs.*1 = j :: q)
          /\ l = foldl (fun v jr => <[jr.1 := duration_of w jr.2]> v) vals jrs
      | Rejected e =>
          exists i,
            log (map_loop w this 1 n
                   {| queue := q; inflight := [(j, Delaying)]; values := vals |}
                   s).2
            = log s ++ concat (round w this <$> jrs)
              ++ [Delay (delay this);
                  Call (Invoke (i + 1) (payload_of this (i + 1)));
                  Settled (Invoke (i + 1) (payload_of this (i + 1)))
                    (Rejected e)]
            /\ stray (map_loop w this 1 n
                        {| queue := q; inflight := [(j, Delaying)];
                           values := vals |} s).2
               = stray s
      end.
Proof.
  intros Hc. induction k as [|k IH]; intros q j n vals s Hq Hn Hs.
  - destruct q; [|done].
    destruct n as [|[|[|[|n]]]]; [lia|lia|lia|lia|].
    rewrite (serial_round n j [] vals s Hc).
    destruct (invoke w _ (j + 1)%nat (payload_of this (j + 1))) as [r|e].
    + exists [(j, r)]. cbn [length]. rewrite start_mappers_none.
      assert (forall st,
                map_loop w this 1 n
                  {| queue := []; inflight := [];
                     values := <[j:=duration_of w r]> vals |} st
                = (Fulfilled (<[j:=duration_of w r]> vals), st)) as ->
        by (by destruct n).
      cbn [fst snd log].
      change (concat (round w this <$> [(j, r)]))
        with (round w this (j, r) ++ []).
      by rewrite app_nil_r.
    + exists []. rewrite strays_none by (cbn [stray]; by rewrite Hs).
      cbn [fst snd log stray]. exists j. by rewrite Hs.
  - destruct q as [|a q0]; [done|]. simpl in Hq.
    destruct n as [|[|[|[|n]]]]; [lia|lia|lia|lia|].
    rewrite (serial_round n j (a :: q0) vals s Hc).
    destruct (invoke w _ (j + 1)%nat (payload_of this (j + 1))) as [r|e].
    + cbn [length]. rewrite start_mappers_one.
      destruct (pick (next_started w (a :: q0)) a q0) as [j' q'] eqn:Hpick.
      pose proof (pick_Permutation _ _ _ _ _ Hpick) as Hperm.
      pose proof (Permutation_length Hperm) as Hlen. simpl in Hlen.
      cbn [fst snd].
      destruct (IH q' j' n (<[j:=duration_of w r]> vals)
                  {| log := log s ++ round w this (j, r); stray := stray s |})
        as [jrs Hjrs]; [lia|lia|done|].
      exists ((j, r) :: jrs).
      destruct (map_loop w this 1 n _ _).1 as [l|e].
      * destruct Hjrs as (Hlog & Hp & Hfifo & Hl).
        split; [rewrite Hlog; simpl; by rewrite <- app_assoc|].
        split; [simpl; by rewrite Hp, Hperm|].
        split; [|done].
        intros Hstart. rewrite fmap_cons, (Hfifo Hstart).
        rewrite Hstart in Hpick. by injection Hpick as <- <-.
      * destruct Hjrs as (i & Hlog & Hstray). exists i.
        split; [rewrite Hlog; simpl; by rewrite <- !app_assoc|done].
    + exists []. rewrite strays_none by (cbn [stray]; by rewrite Hs).
      cbn [fst snd log stray]. exists j. by rewrite Hs.
Qed.

Lemma foldl_insert_in_order {A B} (f : B -> A) (jrs : list (nat * B))
    (a : nat) (vals : list A) :
  jrs.*1 = seq a (length jrs) ->
  (a + length jrs <= length vals)%nat ->
  foldl (fun v jr => <[jr.1 := f jr.2]> v) vals jrs
  = take a vals ++ (f <$> jrs.*2) ++ drop (a + length jrs) vals.
Proof.
  revert a vals; induction jrs as [|[j r] t IH]; intros a vals Hseq Hlen.
  { simpl. by rewrite Nat.add_0_r, take_drop. }
  simpl in Hseq, Hlen. injection Hseq as -> Hseq.
  cbn [foldl fst snd]. rewrite (IH (S a)); [|done|rewrite length_insert; lia].
  rewrite (take_S_r _ _ (f r)) by (apply list_lookup_insert_eq; lia).
  rewrite take_insert_ge by lia. rewrite drop_insert_lt by lia.
  rewrite <- app_assoc. simpl.
  by replace (a + S (length t))%nat with (S (a + length t)) by lia.
Qed.

Lemma serial_map (count : nat) (s : state) :
  concurrency this = 1%nat -> stray s = [] ->
  exists jrs : list (nat * Response),
    match (BPromise_map w this count s).1 with
    | Fulfilled l =>
        log (BPromise_map w this count s).2
        = log s ++ concat (round w this <$> jrs)
        /\ jrs.*1 ≡ₚ seq 0 count
        /\ ((forall items, next_started w items = 0%nat) ->
            jrs.*1 = seq 0 count /\ l = duration_of w <$> jrs.*2)
    | Rejected e =>
        exists i,
          log (BPromise_map w this count s).2
          = log s ++ concat (round w this <$> jrs)
            ++ [Delay (delay this);
                Call (Invoke (i + 1) (payload_of this (i + 1)));
                Settled (Invoke (i + 1) (payload_of this (i + 1)))
                  (Rejected e)]
          /\ stray (BPromise_map w this count s).2 = stray s
    end.
Proof.
  intros Hc Hs.
  assert ((concurrency this =? 1)%nat = true) as Hc' by (by rewrite Hc).
  unfold BPromise_map. rewrite Hc.
  destruct count as [|c].
  { exists []. simpl. by rewrite app_nil_r. }
  cbn [seq replicate]. rewrite start_mappers_one.
  change (pick 0 0%nat (seq 1 c)) with (0%nat, seq 1 c). cbn [fst snd].
  destruct (serial_loop c Hc' (seq 1 c) 0%nat (4 * S c)
              (None :: replicate c None) s)
    as [jrs Hjrs]; [by rewrite length_seq|lia|done|].
  exists jrs.
  destruct (map_loop w this 1 (4 * S c) _ s).1 as [l|e]; [|done].
  destruct Hjrs as (Hlog & Hp & Hfifo & Hl).
  split; [done|]. split; [done|].
  intros Hstart. specialize (Hfifo Hstart).
  split; [done|].
  assert (length jrs = S c) as Hjl.
  { rewrite <- (length_fmap fst), Hfifo. simpl. by rewrite length_seq. }
  rewrite Hl, (foldl_insert_in_order (duration_of w) jrs 0).
  - rewrite take_0, Hjl. simpl.
    rewrite drop_ge by (rewrite length_replicate; lia). by rewrite app_nil_r.
  - rewrite Hjl. done.
  - rewrite Hjl. simpl. rewrite length_replicate. lia.
Qed.

(** X9: with a concurrency of 1 a fulfilled cycle is, after its head, one round
    for each of its [count] items, each item once: the wait, the invocation, its
    answer and the 'invoke' event of an item all happen before the wait of the
    next. When the first queued item is always started first, the rounds are in
    index order and the results are the durations in the order they were
    announced. *)
Theorem serial_cycle_is_a_sequence_of_rounds (count : nat) (s s' : state)
    (l : list duration) :
  concurrency this = 1%nat -> stray s = [] ->
  _cycle w this count s = (Fulfilled l, s') ->
  exists head (jrs : list (nat * Response)),
    log s' = log s ++ head ++ concat (round w this <$> jrs)
    /\ (if warmup this then
          exists r0,
            head = [Emit EvWarmup; Call (Invoke 0 (payload_of this 0));
                    Settled (Invoke 0 (payload_of this 0))
                      (Fulfilled (Invoked r0));
                    Delay (delay this)]
        else head = [Delay 0])
    /\ jrs.*1 ≡ₚ seq 0 count
    /\ ((forall items, next_started w items = 0%nat) ->
        jrs.*1 = seq 0 count
        /\ l = duration_of w <$> jrs.*2
        /\ observed (concat (round w this <$> jrs)) = l).
Proof.
  intros Hc Hs Hrun.
  destruct (cycle_head count s Hs) as (head & s1 & Hlog1 & Hs1 & Hcase).
  rewrite Hc, andb_true_r in Hcase. simpl in Hcase.
  destruct (serial_map count s1 Hc Hs1) as [jrs Hjrs].
  assert (BPromise_map w this count s1 = (Fulfilled l, s')
          /\ if warmup this then
               exists r0,
                 head = [Emit EvWarmup; Call (Invoke 0 (payload_of this 0));
                         Settled (Invoke 0 (payload_of this 0))
                           (Fulfilled (Invoked r0));
                         Delay (delay this)]
             else head = [Delay 0]) as [Hmap Hhead].
  { destruct Hcase as [(r & Hw & -> & Heq)|[(e & _ & _ & Heq)|(Hw & -> & Heq)]];
      [|congruence|]; rewrite Hw; (split; [congruence|]); [by exists r|done]. }
  rewrite Hmap in Hjrs. simpl in Hjrs. destruct Hjrs as (Hlog & Hperm & Hfifo).
  exists head, jrs. split; [by rewrite Hlog, Hlog1, <- app_assoc|].
  split; [done|]. split; [done|].
  intros Hstart. destruct (Hfifo Hstart) as [Hjs ->].
  split; [done|]. split; [done|].
  clear. induction jrs as [|[j r] t IH]; [done|].
  rewrite fmap_cons, concat_cons, observed_app, IH.
  by rewrite !fmap_cons.
Qed.

(** ** A run with a concurrency of 1 *)

Lemma serial_cycle_stray (count : nat) (s : state) :
  concurrency this = 1%nat -> stray s = [] ->
  stray (_cycle w this count s).2 = [].
Proof.
  intros Hc Hs.
  destruct (cycle_head count s Hs) as (head & s1 & _ & Hs1 & Hcase).
  destruct (serial_map count s1 Hc Hs1) as [jrs Hjrs].
  destruct (map_loop_outcome (concurrency this) (4 * count)
              (start_mappers (fun _ => 0%nat) (concurrency this) count
                 {| queue := seq 0 count; inflight := [];
                    values := replicate count None |}) s1)
    as (timed & _ & _ & Hout).
  fold (BPromise_map w this count s1) in Hout.
  assert (stray (BPromise_map w this count s1).2 = []) as Hmap.
  { destruct (BPromise_map w this count s1).1 as [l|e].
    - destruct Hout as [-> _]. done.
    - destruct Hjrs as (i & _ & ->). done. }
  destruct Hcase as [(r & _ & _ & ->)|[(e & _ & _ & ->)|(_ & _ & ->)]]; done.
Qed.

Lemma serial_step_stray (report : gmap Z (@StepReport Rank)) (m : Z) (s : state) :
  concurrency this = 1%nat -> stray s = [] ->
  stray (sweep_step w this report m s).2 = [].
Proof.
  intros Hc Hs. unfold sweep_step, bind, _setAllocatedMemory.
  destruct (call_log (UpdateFunctionConfiguration m)
              (fun tr => updateFunctionConfiguration w tr m)
              (fun _ => Updated) s) as (bg & o & _ & _ & Hquiet & _).
  destruct (Hquiet Hs) as [_ Hs1]. clear Hquiet.
  destruct (call w this (UpdateFunctionConfiguration m) _ _ s) as [[[]|e] s1];
    simpl in *; [|done].
  pose proof (serial_cycle_stray (repeats this) (record (Emit (EvStep m)) s1)
                Hc Hs1) as Hs2.
  destruct (_cycle w this (repeats this) (record (Emit (EvStep m)) s1))
    as [[l|e] s2]; done.
Qed.

Lemma serial_sweep_stray (memorySteps : list Z)
    (report : gmap Z (@StepReport Rank)) (s : state) :
  concurrency this = 1%nat -> stray s = [] ->
  stray (BPromise_reduce memorySteps (sweep_step w this) report s).2 = [].
Proof.
  intros Hc. revert report s; induction memorySteps as [|m rest IH];
    intros report s Hs; [done|].
  simpl. unfold bind.
  pose proof (serial_step_stray report m s Hc Hs) as Hs1.
  destruct (sweep_step w this report m s) as [[R|e] s1]; [|done].
  by apply IH.
Qed.

(** X10: with a concurrency of 1 no mapper outlives its cycle: once the memory
    size has been read, the run ends with 'finish', the restoring request and
    its settling, with nothing between them, and no invocation is sent after
    'finish', whether the sweep was fulfilled or rejected. *)
Theorem serial_run_ends_with_the_restore (originalMemorySize : Z) :
  concurrency this = 1%nat ->
  getFunctionConfiguration w [Call GetFunctionConfiguration]
  = Fulfilled originalMemorySize ->
  exists pre ro,
    log (run w this init).2
    = pre ++ [Emit EvFinish;
              Call (UpdateFunctionConfiguration originalMemorySize);
              Settled (UpdateFunctionConfiguration originalMemorySize) ro]
    /\ finishes pre = 0%nat
    /\ stray (run w this init).2 = [].
Proof.
  intros Hc Hget.
  destruct (run_shape originalMemorySize Hget)
    as (suf & bg & ro & o1 & s1 & Hreduce & Hlog & [Hfin _] & _ & Hquiet & _).
  assert (stray s1 = []) as Hs1.
  { pose proof (serial_sweep_stray (steps this) ∅
                  {| log := [Call GetFunctionConfiguration;
                             Settled GetFunctionConfiguration
                               (Fulfilled (Configuration originalMemorySize));
                             Emit (EvStart originalMemorySize)];
                     stray := [] |} Hc eq_refl) as H.
    by rewrite Hreduce in H. }
  rewrite (Hquiet Hs1) in Hlog.
  exists ([Call GetFunctionConfiguration;
           Settled GetFunctionConfiguration
             (Fulfilled (Configuration originalMemorySize));
           Emit (EvStart originalMemorySize)] ++ suf), ro.
  split; [rewrite Hlog; by rewrite <- !app_assoc|].
  split; [read_trace; by rewrite Hfin|].
  unfold run, bind, _getAllocatedMemory, call. simpl.
  rewrite Hget. simpl. unfold finally.
  match type of Hreduce with
  | BPromise_reduce _ _ _ ?s0 = _ =>
      match goal with
      | |- context [BPromise_reduce _ _ _ ?st] => change st with s0
      end
  end.
  rewrite Hreduce.
  unfold restore, bind, emit, _setAllocatedMemory.
  destruct (call_log (UpdateFunctionConfiguration originalMemorySize)
              (fun tr => updateFunctionConfiguration w tr originalMemorySize)
              (fun _ => Updated) (record (Emit EvFinish) s1))
    as (bg' & ro' & _ & _ & Hquiet' & _).
  destruct (Hquiet' Hs1) as [_ Hend].
  destruct (call w this (UpdateFunctionConfiguration originalMemorySize) _ _
              (record (Emit EvFinish) s1)) as [[[]|e] s3]; done.
Qed.

(** ** The events and the report of a fulfilled run *)

Lemma timed_emitted (tr : trace) :
  Forall timed_action tr -> emitted tr = EvInvoke <$> observed tr.
Proof.
  induction 1 as [|a tr Ha _ IH]; [done|].
  destruct a as [[]| |[]|[]]; simpl in *; try done. by rewrite IH.
Qed.

Lemma cycle_events (count : nat) (s : state) (l : list duration) (s' : state) :
  stray s = [] ->
  _cycle w this count s = (Fulfilled l, s') ->
  exists suf,
    log s' = log s ++ suf
    /\ stray s' = []
    /\ emitted suf
       = (if warmup this && (concurrency this =? 1)%nat then [EvWarmup] else [])
         ++ (EvInvoke <$> observed suf)
    /\ observed suf ≡ₚ l
    /\ length l = count.
Proof.
  intros Hs Hrun.
  destruct (cycle_head count s Hs) as (head & s1 & Hlog1 & Hs1 & Hcase).
  assert (BPromise_map w this count s1 = (Fulfilled l, s')
          /\ observed head = []
          /\ emitted head
             = if warmup this && (concurrency this =? 1)%nat
               then [EvWarmup] else [])
    as (Hmap & Hobs & Hemit).
  { destruct Hcase as [(r & Hw & -> & Heq)|[(e & _ & _ & Heq)|(Hw & -> & Heq)]];
      [|congruence|]; rewrite Hw; (split; [congruence|]); done. }
  destruct (BPromise_map_results count s1 l s' Hmap)
    as (timed & Hlog & Htimed & Hstray & Hlen & _).
  destruct (timed_observed count s1 l s' Hs1 Hmap) as (timed' & Hlog' & Hperm).
  rewrite Hlog in Hlog'. apply app_inv_head in Hlog' as <-.
  exists (head ++ timed).
  split; [by rewrite Hlog, Hlog1, <- app_assoc|].
  split; [congruence|].
  rewrite emitted_app, observed_app, Hobs, Hemit, (timed_emitted timed Htimed).
  done.
Qed.

Lemma sweep_events (memorySteps : list Z) (report : gmap Z (@StepReport Rank))
    (s : state) (R : gmap Z (@StepReport Rank)) (s' : state) :
  stray s = [] ->
  BPromise_reduce memorySteps (sweep_step w this) report s = (Fulfilled R, s') ->
  exists suf (cycles : list (list duration * list duration)),
    log s' = log s ++ suf
    /\ stray s' = []
    /\ length cycles = length memorySteps
    /\ Forall (fun c => c.1 ≡ₚ c.2 /\ length c.2 = repeats this) cycles
    /\ emitted suf = concat (zip_with (step_events w this) memorySteps cycles)
    /\ reports suf
       = (fun c => _parseCycleResult (percentile w) c.2) <$> cycles
    /\ R = assign_all report (zip memorySteps (reports suf)).
Proof.
  revert report s; induction memorySteps as [|m rest IH]; intros report s Hs.
  { simpl. unfold ret. intros [= <- <-]. exists [], []. by rewrite app_nil_r. }
  simpl. unfold bind.
  destruct (sweep_step w this report m s) as [[R1|e] s1] eqn:Hstep; [|done].
  destruct (sweep_step_fulfilled report m s R1 s1 Hs Hstep)
    as (sa & sb & l & Hsa_log & Hsa & Hcycle & -> & ->).
  destruct (cycle_events (repeats this) sa l sb Hsa Hcycle)
    as (csuf & Hsb_log & Hsb & Hemit & Hperm & Hlen).
  destruct (cycle_outcome_of_cycle (repeats this) sa Hsa)
    as (csuf' & Hlog' & Hall & _).
  rewrite Hcycle in Hlog'. simpl in Hlog'. rewrite Hsb_log in Hlog'.
  apply app_inv_head in Hlog' as <-.
  destruct (cycle_actions_silent csuf Hall) as (_ & _ & Hrep & _).
  intros Hrun.
  destruct (IH _ (record (Emit (EvResult (_parseCycleResult (percentile w) l)))
                         sb) Hsb Hrun)
    as (suf & cycles & Hlog & Hstray & Hcl & Hcs & Hev & Hreports & HR).
  exists ([Call (UpdateFunctionConfiguration m);
           Settled (UpdateFunctionConfiguration m) (Fulfilled Updated);
           Emit (EvStep m)] ++ csuf
          ++ [Emit (EvResult (_parseCycleResult (percentile w) l))] ++ suf),
    ((observed csuf, l) :: cycles).
  split.
  { rewrite Hlog. simpl. rewrite Hsb_log, Hsa_log, <- !app_assoc. done. }
  split; [done|]. split; [simpl; by rewrite Hcl|].
  split; [by apply Forall_cons|].
  rewrite !emitted_app, !reports_app, Hrep, Hemit, Hev, Hreports.
  split.
  { simpl. unfold step_events at 2. simpl. by rewrite <- !app_assoc. }
  split; [done|].
  rewrite HR, Hreports. done.
Qed.

(** Once the memory size is read: the sweep, then 'finish', the restoring
    request, what stray mappers do, and its settling. *)
Lemma run_log (originalMemorySize : Z) :
  getFunctionConfiguration w [Call GetFunctionConfiguration]
  = Fulfilled originalMemorySize ->
  exists o1 s1 bg ro,
    BPromise_reduce (steps this) (sweep_step w this) ∅
      {| log := [Call GetFunctionConfiguration;
                 Settled GetFunctionConfiguration
                   (Fulfilled (Configuration originalMemorySize));
                 Emit (EvStart originalMemorySize)];
         stray := [] |}
    = (o1, s1)
    /\ log (run w this init).2
       = log s1
         ++ [Emit EvFinish; Call (UpdateFunctionConfiguration originalMemorySize)]
         ++ bg
         ++ [Settled (UpdateFunctionConfiguration originalMemorySize) ro]
    /\ Forall timed_action bg
    /\ (stray s1 = [] -> bg = [])
    /\ (run w this init).1
       = match ro with
         | Rejected e => Rejected e
         | Fulfilled _ => o1
         end
    /\ match ro with
       | Rejected _ => True
       | Fulfilled u => u = Updated
       end.
Proof.
  intros Hget. unfold run, bind, _getAllocatedMemory, call. simpl.
  rewrite Hget. simpl. unfold finally.
  set (s0 := record (Emit (EvStart originalMemorySize)) _).
  change {| log := _; stray := [] |} with s0.
  destruct (BPromise_reduce (steps this) (sweep_step w this) ∅ s0)
    as [o1 s1]; simpl in *.
  unfold restore, bind, emit, _setAllocatedMemory.
  set (s2 := record (Emit EvFinish) s1).
  destruct (call_log (UpdateFunctionConfiguration originalMemorySize)
              (fun tr => updateFunctionConfiguration w tr originalMemorySize)
              (fun _ => Updated) s2) as (bg & ro & Hlog2 & Htimed & Hquiet & Hres).
  exists o1, s1, bg, ro. split; [done|].
  destruct (call w this (UpdateFunctionConfiguration originalMemorySize) _ _ s2)
    as [[[]|e] s3]; simpl in *;
    [subst ro|destruct Hres as [-> Hres]];
    (split; [rewrite Hlog2; simpl; by rewrite <- !app_assoc|]);
    (split; [done|]);
    (split; [intros Hleft; by apply Hquiet|]); done.
Qed.

Lemma fulfilled_run (R : gmap Z (@StepReport Rank)) :
  (run w this init).1 = Fulfilled R ->
  exists originalMemorySize suf (cycles : list (list duration * list duration)),
    log (run w this init).2
    = [Call GetFunctionConfiguration;
       Settled GetFunctionConfiguration
         (Fulfilled (Configuration originalMemorySize));
       Emit (EvStart originalMemorySize)]
      ++ suf
      ++ [Emit EvFinish; Call (UpdateFunctionConfiguration originalMemorySize);
          Settled (UpdateFunctionConfiguration originalMemorySize)
            (Fulfilled Updated)]
    /\ length cycles = length (steps this)
    /\ Forall (fun c => c.1 ≡ₚ c.2 /\ length c.2 = repeats this) cycles
    /\ emitted suf = concat (zip_with (step_events w this) (steps this) cycles)
    /\ reports suf
       = (fun c => _parseCycleResult (percentile w) c.2) <$> cycles
    /\ R = assign_all ∅ (zip (steps this) (reports suf)).
Proof.
  intros Hrun.
  destruct (getFunctionConfiguration w [Call GetFunctionConfiguration])
    as [originalMemorySize|e1] eqn:Hget.
  2:{ by rewrite (run_without_configuration e1 Hget) in Hrun. }
  destruct (run_log originalMemorySize Hget)
    as (o1 & s1 & bg & ro & Hreduce & Hlog & _ & Hquiet & Hres & Hro).
  rewrite Hrun in Hres. destruct ro as [u|e]; [subst o1 u|done].
  match type of Hreduce with
  | BPromise_reduce _ _ _ ?s0 = _ =>
      destruct (sweep_events (steps this) ∅ s0 R s1 eq_refl Hreduce)
        as (suf & cycles & Hlog1 & Hs1 & Hcl & Hcs & Hev & Hrep & HR)
  end.
  rewrite (Hquiet Hs1), Hlog1 in Hlog. simpl in Hlog.
  exists originalMemorySize, suf, cycles.
  split; [|done].
  by rewrite Hlog.
Qed.

Lemma assign_all_lookup_other (ms : list Z) (rs : list (@StepReport Rank))
    (report : gmap Z (@StepReport Rank)) (m : Z) :
  m ∉ ms -> assign_all report (zip ms rs) !! m = report !! m.
Proof.
  revert rs report; induction ms as [|m0 ms IH]; intros rs report Hm; [done|].
  destruct rs as [|r rs]; [done|].
  apply not_elem_of_cons in Hm as [Hne Hm].
  unfold assign_all in *. simpl. rewrite IH by done.
  by apply lookup_insert_ne.
Qed.

Lemma assign_all_lookup_last (pre : list Z) (m : Z) (post : list Z)
    (rs : list (@StepReport Rank)) (report : gmap Z (@StepReport Rank)) :
  length rs = length (pre ++ m :: post) -> m ∉ post ->
  assign_all report (zip (pre ++ m :: post) rs) !! m = rs !! length pre.
Proof.
  revert rs report; induction pre as [|m0 pre IH]; intros rs report Hlen Hm;
    (destruct rs as [|r rs]; [done|]); simpl in Hlen.
  - unfold assign_all. simpl.
    change (foldl _ ?a ?l) with (assign_all a l).
    rewrite assign_all_lookup_other by done. apply lookup_insert_eq.
  - unfold assign_all. simpl.
    change (foldl _ ?a ?l) with (assign_all a l).
    apply IH; [lia|done].
Qed.

Lemma assign_all_dom (ms : list Z) (rs : list (@StepReport Rank))
    (report : gmap Z (@StepReport Rank)) :
  length rs = length ms ->
  dom (assign_all report (zip ms rs)) = dom report ∪ list_to_set ms.
Proof.
  revert rs report; induction ms as [|m0 ms IH]; intros rs report Hlen;
    (destruct rs as [|r rs]; [|]); try done.
  - simpl. by rewrite (right_id_L ∅ (∪)).
  - simpl in Hlen. unfold assign_all. simpl.
    change (foldl _ ?a ?l) with (assign_all a l).
    rewrite IH by lia. rewrite dom_insert_L.
    by rewrite (comm_L (∪) {[m0]} (dom report)), (assoc_L (∪)).
Qed.


(** X12: the report a fulfilled run resolves to is built from the results
    announced, one for every step: its keys are the memory sizes of the steps,
    and the entry of a memory size is the result of the last step with that
    size, which overwrites the results of earlier ones. *)
Theorem report_has_the_last_result_of_every_size (R : gmap Z (@StepReport Rank)) :
  (run w this init).1 = Fulfilled R ->
  length (reports (log (run w this init).2)) = length (steps this)
  /\ R = assign_all ∅ (zip (steps this) (reports (log (run w this init).2)))
  /\ dom R = list_to_set (steps this)
  /\ forall pre m post,
       steps this = pre ++ m :: post -> m ∉ post ->
       R !! m = reports (log (run w this init).2) !! length pre.
Proof.
  intros Hrun.
  destruct (fulfilled_run R Hrun)
    as (originalMemorySize & suf & cycles & Hlog & Hcl & _ & _ & Hrep & HR).
  assert (reports (log (run w this init).2) = reports suf) as ->.
  { rewrite Hlog, !reports_app. simpl. by rewrite app_nil_r. }
  assert (length (reports suf) = length (steps this)) as Hlen.
  { by rewrite Hrep, length_fmap. }
  split; [done|]. split; [done|]. split.
  - rewrite HR, assign_all_dom by done. by rewrite dom_empty_L, (left_id_L ∅ (∪)).
  - intros pre m post Hsteps Hm. rewrite HR, Hsteps.
    apply assign_all_lookup_last; [by rewrite <- Hsteps|done].
Qed.

(** X13: when the memory size cannot be read the run is rejected with that error
    and nothing else has happened: no event, not even 'finish', no invocation,
    and no request that sets or restores a memory size. *)
Theorem unreadable_configuration_changes_nothing (e : Err) :
  getFunctionConfiguration w [Call GetFunctionConfiguration] = Rejected e ->
  (run w this init).1 = Rejected e
  /\ log (run w this init).2
     = [Call GetFunctionConfiguration;
        Settled GetFunctionConfiguration (Rejected e)]
  /\ emitted (log (run w this init).2) = []
  /\ updates (log (run w this init).2) = []
  /\ attempts (log (run w this init).2) = [].
Proof.
  intros Hget. by rewrite (run_without_configuration e Hget).
Qed.

(** ** A run without invocations to reduce *)

(** X14: with no repeats every cycle resolves to an empty sequence, and the
    report of a fulfilled run has for every step the statistics of nothing:
    [Infinity] for the minimum, [-Infinity] for the maximum and [NaN] for the
    average. *)
Theorem no_repeats_reports_no_number (R : gmap Z (@StepReport Rank)) :
  repeats this = 0%nat ->
  (run w this init).1 = Fulfilled R ->
  forall m, m ∈ steps this ->
    exists r, R !! m = Some r
              /\ min r = PosInfinity /\ max r = NegInfinity /\ avg r = NaN.
Proof.
  intros Hrepeats Hrun m Hm.
  destruct (getFunctionConfiguration w [Call GetFunctionConfiguration])
    as [originalMemorySize|e1] eqn:Hget.
  2:{ by rewrite (run_without_configuration e1 Hget) in Hrun. }
  destruct (run_log originalMemorySize Hget)
    as (o1 & s1 & bg & ro & Hreduce & _ & _ & _ & Hres & _).
  rewrite Hrun in Hres. destruct ro as [u|e]; [subst o1|done].
  eapply (sweep_reports
            (fun r => min r = PosInfinity /\ max r = NegInfinity /\ avg r = NaN));
    [| |exact Hreduce|by left]; [|done].
  intros l sa sb Hsa Hcycle.
  destruct (cycle_results (repeats this) sa l sb Hsa Hcycle) as [Hlen _].
  rewrite Hrepeats in Hlen. by destruct l.
Qed.

(** ** A rejected configuration request *)

Lemma sweep_step_rejected (report : gmap Z (@StepReport Rank)) (m : Z)
    (s : state) (e : Err) (s' : state) :
  stray s = [] ->
  sweep_step w this report m s = (Rejected e, s') ->
  (log s' = log s ++ [Call (UpdateFunctionConfiguration m);
                      Settled (UpdateFunctionConfiguration m) (Rejected e)]
   /\ stray s' = [])
  \/ exists pre a, log s' = pre ++ [a] /\ cycle_action a.
Proof.
  intros Hs. unfold sweep_step, bind, _setAllocatedMemory.
  destruct (call_log (UpdateFunctionConfiguration m)
              (fun tr => updateFunctionConfiguration w tr m)
              (fun _ => Updated) s) as (bg & o & Hlog & _ & Hquiet & Hres).
  destruct (Hquiet Hs) as [-> Hs1]. clear Hquiet. simpl in Hlog.
  destruct (call w this (UpdateFunctionConfiguration m) _ _ s) as [[[]|e0] s1];
    simpl in *.
  - destruct (cycle_outcome_of_cycle (repeats this)
                (record (Emit (EvStep m)) s1) Hs1) as (suf & Hlog2 & _ & Hout).
    destruct (_cycle w this (repeats this) (record (Emit (EvStep m)) s1))
      as [[l|e1] s2]; [done|].
    intros [= -> ->]. right. simpl in *.
    destruct Hout as (suf0 & i & p & after & -> & _ & Hafter).
    destruct after as [|b after _] using rev_ind.
    + exists (log s1 ++ [Emit (EvStep m)] ++ suf0),
        (Settled (Invoke i p) (Rejected e)).
      rewrite Hlog2. split; [by rewrite <- !app_assoc|done].
    + exists (log s1 ++ [Emit (EvStep m)] ++ suf0
              ++ [Settled (Invoke i p) (Rejected e)] ++ after), b.
      rewrite Hlog2. split; [by rewrite <- !app_assoc|].
      apply Forall_app in Hafter as [_ Hb].
      apply Forall_cons in Hb as [Hb _]. by apply timed_is_cycle_action.
  - destruct Hres as [-> _]. intros [= -> ->]. left. by rewrite Hlog.
Qed.

(** A sweep that ends with a rejected configuration request has gone
    through the steps before it, and has only sent the request of that one. *)
Lemma sweep_configuration_rejected (memorySteps : list Z)
    (report : gmap Z (@StepReport Rank)) (s : state) (e : Err) (s' : state)
    (pre : trace) (m : Z) (e' : Err) :
  stray s = [] ->
  BPromise_reduce memorySteps (sweep_step w this) report s = (Rejected e, s') ->
  log s' = pre ++ [Settled (UpdateFunctionConfiguration m) (Rejected e')] ->
  exists (k : nat) suf0,
    memorySteps !! k = Some m
    /\ e' = e
    /\ log s' = log s ++ suf0
                ++ [Call (UpdateFunctionConfiguration m);
                    Settled (UpdateFunctionConfiguration m) (Rejected e)]
    /\ emitted_steps suf0 = take k memorySteps
    /\ updates suf0 = take k memorySteps
    /\ rejections suf0 = []
    /\ stray s' = [].
Proof.
  revert report s; induction memorySteps as [|m0 rest IH]; intros report s Hs;
    [done|].
  simpl. unfold bind.
  destruct (sweep_step_shape report m0 s Hs) as (suf1 & Hlog1 & Hshape1).
  destruct (sweep_step w this report m0 s) as [[R1|e1] s1] eqn:Hstep;
    simpl in *.
  - destruct Hshape1 as (_ & Hu1 & Hst1 & Hrej1 & Hs1).
    intros Hrun Hlast.
    destruct (IH R1 s1 Hs1 Hrun Hlast)
      as (k & suf0 & Hk & -> & Hlog & Hst & Hu & Hrej & Hstray).
    exists (S k), (suf1 ++ suf0). split; [done|]. split; [done|].
    split; [by rewrite Hlog, Hlog1, <- !app_assoc|].
    rewrite emitted_steps_app, updates_app, rejections_app, Hu1, Hst1, Hrej1,
      Hst, Hu, Hrej.
    done.
  - intros [= -> ->] Hlast.
    destruct (sweep_step_rejected report m0 s e s' Hs Hstep)
      as [[Hlog Hstray]|(pre' & a & Hlog & Ha)]; rewrite Hlog in Hlast.
    + change (log s ++ [Call (UpdateFunctionConfiguration m0);
                        Settled (UpdateFunctionConfiguration m0) (Rejected e)])
        with (log s ++ [Call (UpdateFunctionConfiguration m0)]
                    ++ [Settled (UpdateFunctionConfiguration m0) (Rejected e)])
        in Hlast.
      rewrite app_assoc in Hlast.
      apply app_inj_tail in Hlast as [_ [= -> ->]].
      exists 0%nat, []. by rewrite Hlog.
    + apply app_inj_tail in Hlast as [_ ->]. done.
Qed.

Lemma finish_split (a a' b b' : trace) :
  a ++ Emit EvFinish :: b = a' ++ Emit EvFinish :: b' ->
  finishes a = 0%nat -> finishes a' = 0%nat ->
  a = a' /\ b = b'.
Proof.
  revert a'; induction a as [|x a IH]; intros [|x' a']; simpl.
  - by intros [= ->].
  - by intros [= <- _] _ Hf.
  - by intros [= -> _] Hf.
  - intros [= -> Heq] Hf Hf'.
    assert (finishes a = 0%nat /\ finishes a' = 0%nat) as [Ha Ha'].
    { unfold finishes in *. destruct x' as [[]| | |]; simpl in *; done. }
    destruct (IH a' Heq Ha Ha') as [-> ->]. done.
Qed.

(** X15: when the request that sets the memory size of a step is rejected, the
    sweep stops there: the steps before it have been gone through without a
    rejection, that step is not announced and none of its invocations is sent;
    'finish' and the restoring request follow at once with nothing after them,
    and the run is rejected, with the error of that request unless the restoring
    request is rejected too. *)
Theorem failed_configuration_stops_the_sweep (m : Z) (e : Err)
    (pre post : trace) :
  log (run w this init).2
  = pre ++ Settled (UpdateFunctionConfiguration m) (Rejected e)
        :: Emit EvFinish :: post ->
  exists originalMemorySize (k : nat) suf0 ro,
    steps this !! k = Some m
    /\ pre = [Call GetFunctionConfiguration;
              Settled GetFunctionConfiguration
                (Fulfilled (Configuration originalMemorySize));
              Emit (EvStart originalMemorySize)]
             ++ suf0 ++ [Call (UpdateFunctionConfiguration m)]
    /\ post = [Call (UpdateFunctionConfiguration originalMemorySize);
               Settled (UpdateFunctionConfiguration originalMemorySize) ro]
    /\ rejections suf0 = []
    /\ emitted_steps (log (run w this init).2) = take k (steps this)
    /\ updates (log (run w this init).2)
       = take (S k) (steps this) ++ [originalMemorySize]
    /\ (run w this init).1
       = match ro with
         | Rejected e' => Rejected e'
         | Fulfilled _ => Rejected e
         end.
Proof.
  intros Hlast.
  destruct (getFunctionConfiguration w [Call GetFunctionConfiguration])
    as [originalMemorySize|e1] eqn:Hget.
  2:{ rewrite (run_without_configuration e1 Hget) in Hlast. simpl in Hlast.
      destruct pre as [|? [|? pre]]; simpl in Hlast; try done.
      injection Hlast as _ _ Hlast. by destruct pre. }
  destruct (run_log originalMemorySize Hget)
    as (o1 & s1 & bg & ro & Hreduce & Hlog & Htimed & Hquiet & Hres & _).
  match type of Hreduce with
  | BPromise_reduce _ _ _ ?s0 = _ =>
      destruct (sweep_shape_of_reduce (steps this) ∅ s0 eq_refl)
        as (suf & Hlog1 & Hfin & Hshape)
  end.
  rewrite Hreduce in Hlog1, Hshape. cbn [fst snd log] in Hlog1, Hshape.
  destruct (cycle_actions_silent bg) as (Hub & Hsb & _ & Hfb).
  { eapply Forall_impl; [done|apply timed_is_cycle_action]. }
  assert (finishes (log s1) = 0%nat) as Hf1.
  { rewrite Hlog1, finishes_app, Hfin. done. }
  assert (finishes pre = 0%nat /\ finishes post = 0%nat) as [Hfpre Hfpost].
  { pose proof (f_equal finishes Hlast) as Hcount. rewrite Hlog in Hcount.
    revert Hcount. read_trace. rewrite Hf1, Hfb.
    change (finishes [Settled _ _]) with 0%nat.
    change (finishes [Emit EvFinish; Call _]) with 1%nat.
    change post with ([] ++ post) at 1.
    change (Settled (UpdateFunctionConfiguration m) (Rejected e)
              :: Emit EvFinish :: [] ++ post)
      with ([Settled (UpdateFunctionConfiguration m) (Rejected e);
             Emit EvFinish] ++ post).
    rewrite !finishes_app.
    change (finishes [Settled _ _; Emit EvFinish]) with 1%nat. lia. }
  assert (log s1 = pre ++ [Settled (UpdateFunctionConfiguration m) (Rejected e)]
          /\ [Call (UpdateFunctionConfiguration originalMemorySize)] ++ bg
             ++ [Settled (UpdateFunctionConfiguration originalMemorySize) ro]
             = post) as [Hs1 Hpost].
  { apply finish_split; [|done|].
    - rewrite <- app_assoc. simpl. rewrite <- Hlast, Hlog. done.
    - rewrite finishes_app, Hfpre. done. }
  destruct o1 as [R|e0].
  { destruct Hshape as (_ & _ & Hrej & _).
    pose proof (f_equal rejections Hs1) as Hr.
    rewrite Hlog1, !rejections_app, Hrej in Hr. simpl in Hr.
    by destruct (rejections pre). }
  match type of Hreduce with
  | BPromise_reduce _ _ _ ?s0 = _ =>
      destruct (sweep_configuration_rejected (steps this) ∅ s0 e0 s1 pre m e
                  eq_refl Hreduce Hs1)
        as (k & suf0 & Hk & -> & Hlog0 & Hst & Hu & Hrej & Hstray)
  end.
  rewrite (Hquiet Hstray) in Hlog, Hpost. simpl in Hlog0, Hpost.
  assert (pre = [Call GetFunctionConfiguration;
                 Settled GetFunctionConfiguration
                   (Fulfilled (Configuration originalMemorySize));
                 Emit (EvStart originalMemorySize)]
                ++ suf0 ++ [Call (UpdateFunctionConfiguration m)]) as Hpre.
  { rewrite Hs1 in Hlog0.
    change (?a :: ?b :: ?c :: suf0 ++ [?x; ?y])
      with ([a; b; c] ++ suf0 ++ [x] ++ [y]) in Hlog0.
    rewrite !app_assoc in Hlog0. apply app_inj_tail in Hlog0 as [-> _].
    by rewrite <- !app_assoc. }
  exists originalMemorySize, k, suf0, ro.
  split; [done|]. split; [done|]. split; [done|]. split; [done|].
  rewrite Hlog, Hlog0. read_trace. rewrite Hst, Hu. simpl.
  rewrite ?app_nil_r. split; [done|]. split; [|done].
  by rewrite (take_S_r _ _ _ Hk), <- app_assoc.
Qed.

End RunFacts.

(** * The claims on sample runs *)

Section Examples.

Local Abbreviation one_step := (sample_options [128] 1 1 false 0).
Local Abbreviation two_repeats := (sample_options [128] 2 1 false 0).
Local Abbreviation warm_serial := (sample_options [128] 3 1 true 500).
Local Abbreviation warm_parallel := (sample_options [128] 3 2 true 500).
Local Abbreviation two_steps := (sample_options [128; 256] 3 2 false 0).
Local Abbreviation large_sum :=
  [2251799813685248; 2251799813685248; 2251799813685249].
Local Abbreviation large_samples :=
  [9007199254740990; 9007199254740990; 9007199254740990].

(** C1 as stated fails: in a run of one step 'finish' is the thirteenth
    action, and the request that restores 512 MB is only sent after it. *)
Lemma finish_is_emitted_before_the_restore :
  ~ finish_after_restore 512 (log (run steady_world one_step init).2).
Proof.
  intros H.
  set (tr := log (run steady_world one_step init).2) in *.
  assert (tr = take 12 tr ++ Emit EvFinish :: drop 13 tr) as Hsplit
    by (vm_compute; reflexivity).
  apply H, updates_call in Hsplit.
  assert (updates (take 12 tr) = [128]) as Hu by (vm_compute; reflexivity).
  rewrite Hu in Hsplit. apply list_elem_of_singleton in Hsplit. done.
Qed.

Lemma restore_once_right_after_finish_witness :
  getFunctionConfiguration steady_world [Call GetFunctionConfiguration]
  = Fulfilled 512
  /\ finishes (log (run steady_world one_step init).2) = 1%nat.
Proof.
  split; [reflexivity|].
  destruct (restore_once_right_after_finish steady_world one_step 512 eq_refl)
    as (k & pre & post & _ & _ & _ & _ & Hfinish & _).
  exact Hfinish.
Defined.

(** C2 as stated fails: when invocation 1 of 2 is answered without a
    timing, the report is not the reduction of the one measured duration. *)
Lemma nulls_are_handed_to_the_reducer :
  ~ reduced_without_nulls nearest_rank
      (log (run first_unmeasured_world two_repeats init).2).
Proof.
  unfold reduced_without_nulls. intros H.
  apply (f_equal (fmap min)) in H. vm_compute in H. done.
Qed.

Lemma every_result_reaches_the_reducer_witness :
  stray (@init js_string unit error duration) = []
  /\ exists R,
       (sweep_step first_unmeasured_world two_repeats ∅ 128 init).1
       = Fulfilled R.
Proof.
  split; [reflexivity|].
  apply (every_result_reaches_the_reducer first_unmeasured_world two_repeats
           ∅ 128 init eq_refl).
  - intros tr. reflexivity.
  - intros tr j q. simpl. destruct (decide (j = 1%nat)); eexists; reflexivity.
Defined.

(** C3 as stated fails: when no invocation is answered with a timing, the
    run does not fail. *)
Lemma unmeasured_run_does_not_fail :
  ~ fails (run unmeasured_world two_repeats init).1.
Proof. intros [e He]. vm_compute in He. done. Qed.

Lemma unmeasured_cycles_report_zero_witness :
  getFunctionConfiguration unmeasured_world [Call GetFunctionConfiguration]
  = Fulfilled 512
  /\ repeats two_repeats <> 0%nat
  /\ exists R, (run unmeasured_world two_repeats init).1 = Fulfilled R.
Proof.
  split; [reflexivity|]. split; [simpl; lia|].
  destruct (unmeasured_cycles_report_zero unmeasured_world two_repeats 512)
    as (R & HR & _).
  - reflexivity.
  - intros tr m. reflexivity.
  - intros tr j q. exists sample_preamble.
    split; [reflexivity|vm_compute; reflexivity].
  - simpl. lia.
  - by exists R.
Defined.

(** C4 as stated fails: with a concurrency of 1 the 'warmup' event comes
    before invocation 0 is sent, and with a concurrency of 2 a cycle still
    begins with a wait of the 500 ms configured. *)
Lemma warmup_is_announced_first_and_delay_kept :
  ~ warmup_event_after_invocation
      (log (_cycle steady_world warm_serial 3 init).2)
  /\ ~ no_positive_delay (log (_cycle steady_world warm_parallel 3 init).2).
Proof.
  split.
  - intros H.
    set (tr := log (_cycle steady_world warm_serial 3 init).2) in *.
    destruct (H [] (drop 1 tr)) as [p Hp]; [vm_compute; reflexivity|].
    inversion Hp.
  - intros H.
    set (tr := log (_cycle steady_world warm_parallel 3 init).2) in *.
    assert (500 = 0); [|done]. apply H.
    apply (list_elem_of_lookup_2 _ 0%nat). vm_compute. reflexivity.
Qed.

Lemma warmup_only_when_serial_witness :
  stray (@init js_string unit error duration) = []
  /\ exists suf,
       log (_cycle steady_world warm_serial 3 init).2 = log init ++ suf.
Proof.
  split; [reflexivity|].
  destruct (warmup_only_when_serial steady_world warm_serial 3 init eq_refl)
    as (suf & Hlog & _).
  by exists suf.
Defined.


(** C8 as stated fails twice: the invocations are sent in the order 0, 1,
    3, 2, not in index order, and the warm-up invocation directly follows
    the 'warmup' event, not a wait. *)
Lemma attempts_are_neither_in_index_order_nor_all_delayed :
  ~ (attempts (log (_cycle steady_world warm_serial 3 init).2)
     = [0; 1; 2; 3]%nat
     \/ delay_before_each 500 (log (_cycle steady_world warm_serial 3 init).2)).
Proof.
  intros [H|H].
  - vm_compute in H. discriminate H.
  - set (tr := log (_cycle steady_world warm_serial 3 init).2) in *.
    destruct (H [Emit EvWarmup] 0%nat () (drop 2 tr)) as [pre Hpre];
      [vm_compute; reflexivity|].
    apply (f_equal last) in Hpre. rewrite last_snoc in Hpre. done.
Qed.

Lemma four_attempts_waits_after_the_warmup_witness :
  concurrency warm_serial = 1%nat /\ warmup warm_serial = true
  /\ stray (@init js_string unit error duration) = []
  /\ exists i2 i3,
       attempts (log (_cycle steady_world warm_serial 3 init).2)
       = [0; 1; i2; i3]%nat
       /\ [i2; i3] = [3; 2]%nat.
Proof.
  do 3 (split; [reflexivity|]).
  destruct (four_attempts_waits_after_the_warmup steady_world warm_serial
              init (_cycle steady_world warm_serial 3 init).2
              (sample <$> [101; 101; 101]) eq_refl eq_refl eq_refl)
    as (p0 & r0 & p1 & r1 & i2 & p2 & r2 & i3 & p3 & r3
        & _ & Hattempts & _ & Hpop).
  - vm_compute. reflexivity.
  - exists i2, i3. split; [exact Hattempts|]. apply Hpop. reflexivity.
Defined.

(** C9 as stated fails: when invocation 2 fails and the restoring request
    fails too, the run is rejected with [ConfigurationUpdateError] alone,
    which does not carry the [InvocationError]. *)
Lemma restore_failure_hides_the_invocation_error :
  ~ surfaces InvocationError (run twice_failing_world two_steps init).1.
Proof. intros (e & He & Hcarries). vm_compute in He. by injection He as <-. Qed.

Lemma failed_restore_replaces_the_error_witness :
  log (run twice_failing_world two_steps init).2
  = removelast (log (run twice_failing_world two_steps init).2)
    ++ [Settled (UpdateFunctionConfiguration 512)
          (Rejected ConfigurationUpdateError)]
  /\ (run twice_failing_world two_steps init).1
     = Rejected ConfigurationUpdateError.
Proof.
  assert (log (run twice_failing_world two_steps init).2
          = removelast (log (run twice_failing_world two_steps init).2)
            ++ [Settled (UpdateFunctionConfiguration 512)
                  (Rejected ConfigurationUpdateError)]) as Hlast
    by (vm_compute; reflexivity).
  split; [exact Hlast|].
  apply (failed_restore_replaces_the_error twice_failing_world two_steps
           512 ConfigurationUpdateError _ Hlast).
Defined.

(** C6 as stated fails: the sum of these three samples is below [2^53],
    so it is exact, but its third, [2^51 + 1/3], is rounded to the double
    [2^51 + 1/2] before [Math.round] rounds that up to [2^51 + 1]. *)
Lemma avg_of_a_large_sum_is_rounded_twice :
  ~ exists z : Z,
      avg (_parseCycleResult nearest_rank (sample <$> large_sum))
      = Num (inject_Z z)
      /\ (inject_Z z - (1 # 2)
          <= inject_Z (exact_sum large_sum)
             / inject_Z (Z.of_nat (length large_sum)))%Q
      /\ (inject_Z (exact_sum large_sum)
          / inject_Z (Z.of_nat (length large_sum))
          < inject_Z z + (1 # 2))%Q.
Proof.
  intros (z & Hz & Hlo & _). vm_compute in Hz. injection Hz as <-.
  vm_compute in Hlo. by apply Hlo.
Qed.

(** C6 and C7 on the samples 1, 2 and 4, whose mean 7/3 rounds to 2. *)
Lemma avg_rounds_exact_mean_half_up_witness :
  [1; 2; 4] <> []
  /\ Forall (fun z => 0 <= z) [1; 2; 4]
  /\ exact_sum [1; 2; 4] + Z.of_nat (length [1; 2; 4]%Z) <= 2 ^ 51
  /\ exists z : Z,
       avg (_parseCycleResult nearest_rank (sample <$> [1; 2; 4]))
       = Num (inject_Z z)
       /\ (inject_Z z - (1 # 2)
           <= inject_Z (exact_sum [1; 2; 4]%Z) / inject_Z (Z.of_nat 3))%Q
       /\ (inject_Z (exact_sum [1; 2; 4]%Z) / inject_Z (Z.of_nat 3)
           < inject_Z z + (1 # 2))%Q.
Proof.
  assert (Forall (fun z => 0 <= z) [1; 2; 4]) as Hpos
    by (repeat (constructor; [lia|]); constructor).
  assert (exact_sum [1; 2; 4] + Z.of_nat (length [1; 2; 4]%Z) <= 2 ^ 51)
    as Hsmall by (vm_compute; discriminate).
  split; [done|]. split; [exact Hpos|]. split; [exact Hsmall|].
  apply (avg_rounds_exact_mean_half_up nearest_rank [1; 2; 4]); done.
Defined.

(** C7 as stated fails: the sum of three samples of [2^53 - 2] is rounded
    to a double, and its third is one less than each of the samples. *)
Lemma avg_of_large_samples_is_below_min :
  ~ (number_leb
       (min (_parseCycleResult nearest_rank (sample <$> large_samples)))
       (avg (_parseCycleResult nearest_rank (sample <$> large_samples)))
     = true
     /\ number_leb
          (avg (_parseCycleResult nearest_rank (sample <$> large_samples)))
          (max (_parseCycleResult nearest_rank (sample <$> large_samples)))
        = true).
Proof. intros [H _]. vm_compute in H. discriminate H. Qed.

Lemma min_le_avg_le_max_witness :
  [1; 2; 4] <> []
  /\ Forall (fun z => 0 <= z) [1; 2; 4]
  /\ exact_sum [1; 2; 4] < 2 ^ 53
  /\ number_leb (min (_parseCycleResult nearest_rank (sample <$> [1; 2; 4])))
                (avg (_parseCycleResult nearest_rank (sample <$> [1; 2; 4])))
     = true
  /\ number_leb (avg (_parseCycleResult nearest_rank (sample <$> [1; 2; 4])))
                (max (_parseCycleResult nearest_rank (sample <$> [1; 2; 4])))
     = true.
Proof.
  assert (Forall (fun z => 0 <= z) [1; 2; 4]) as Hpos
    by (repeat (constructor; [lia|]); constructor).
  assert (exact_sum [1; 2; 4] < 2 ^ 53) as Hsmall by (vm_compute; reflexivity).
  split; [done|]. split; [exact Hpos|]. split; [exact Hsmall|].
  apply (min_le_avg_le_max nearest_rank [1; 2; 4]); done.
Defined.

(** C10 as stated fails: a REPORT line whose duration is "1.2.3" matches
    the pattern, and the cycle resolves to [NaN] for it, which is neither
    null nor an integer. *)
Lemma malformed_duration_is_neither_null_nor_an_integer :
  ~ forall l s',
      _cycle malformed_world one_step 1 init = (Fulfilled l, s') ->
      forall d, d ∈ l -> d = None \/ exists z : Z, d = Some (Num (inject_Z z)).
Proof.
  intros H.
  destruct (H [Some NaN] (_cycle malformed_world one_step 1 init).2)
    with (d := Some NaN) as [Hd|[z Hd]].
  - vm_compute. reflexivity.
  - left.
  - discriminate Hd.
  - discriminate Hd.
Qed.

(** C10 on a cycle of three invocations, two at a time. *)
Lemma cycle_results_by_index_witness :
  stray (@init js_string unit error duration) = []
  /\ _cycle steady_world warm_parallel 3 init
     = (Fulfilled (sample <$> [101; 101; 101]),
        (_cycle steady_world warm_parallel 3 init).2)
  /\ length (sample <$> [101; 101; 101]) = 3%nat.
Proof.
  split; [reflexivity|].
  assert (_cycle steady_world warm_parallel 3 init
          = (Fulfilled (sample <$> [101; 101; 101]),
             (_cycle steady_world warm_parallel 3 init).2)) as Hrun
    by (vm_compute; reflexivity).
  split; [exact Hrun|].
  apply (cycle_results_by_index steady_world warm_parallel 3 init _ _
           eq_refl Hrun).
Defined.

End Examples.

(** * More about the statistics *)

Section MoreReducerFacts.

Context {Rank : Type}.
Variable percentile : Z -> list duration -> Rank.

Lemma as_zero_readings (l : list (option Z)) :
  as_zero (reading <$> l) = sample <$> (millis <$> l).
Proof.
  unfold as_zero. rewrite <- !list_fmap_compose. apply list_fmap_ext.
  by intros _ [z|] _.
Qed.

Lemma fold_min_elem (samples : list Z) (m : Z) :
  fold_left Z.min samples m ∈ m :: samples.
Proof.
  revert m; induction samples as [|y ys IH]; intros m; simpl; [left|].
  specialize (IH (Z.min m y)).
  apply elem_of_cons in IH as [->|IH]; [|by do 2 right].
  destruct (Z.min_spec m y) as [[_ ->]|[_ ->]]; [left|right; left].
Qed.

Lemma fold_max_elem (samples : list Z) (m : Z) :
  fold_left Z.max samples m ∈ m :: samples.
Proof.
  revert m; induction samples as [|y ys IH]; intros m; simpl; [left|].
  specialize (IH (Z.max m y)).
  apply elem_of_cons in IH as [->|IH]; [|by do 2 right].
  destruct (Z.max_spec m y) as [[_ ->]|[_ ->]]; [right; left|left].
Qed.

(** The least and the greatest of integer samples, in closed form. *)
Lemma statistics_of_samples (x : Z) (xs : list Z) :
  min (_parseCycleResult percentile (sample <$> x :: xs))
  = Num (inject_Z (fold_left Z.min xs x))
  /\ max (_parseCycleResult percentile (sample <$> x :: xs))
     = Num (inject_Z (fold_left Z.max xs x)).
Proof.
  split.
  - simpl. unfold Math_min.
    change (ToNumber <$> (sample <$> x :: xs))
      with (Num (inject_Z x) :: (ToNumber <$> (sample <$> xs))).
    cbn [fold_left number_ltb]. apply Math_min_from.
  - simpl. unfold Math_max.
    change (ToNumber <$> (sample <$> x :: xs))
      with (Num (inject_Z x) :: (ToNumber <$> (sample <$> xs))).
    cbn [fold_left number_ltb]. apply Math_max_from.
Qed.

Lemma statistics_of_readings (l : list (option Z)) :
  min (_parseCycleResult percentile (reading <$> l))
  = min (_parseCycleResult percentile (sample <$> (millis <$> l)))
  /\ max (_parseCycleResult percentile (reading <$> l))
     = max (_parseCycleResult percentile (sample <$> (millis <$> l)))
  /\ avg (_parseCycleResult percentile (reading <$> l))
     = avg (_parseCycleResult percentile (sample <$> (millis <$> l))).
Proof.
  rewrite <- as_zero_readings. apply as_zero_same_statistics.
Qed.

Lemma min_and_max_are_the_extremes_aux (l : list (option Z)) :
  l <> [] ->
  exists lo hi : Z,
    min (_parseCycleResult percentile (reading <$> l)) = Num (inject_Z lo)
    /\ max (_parseCycleResult percentile (reading <$> l)) = Num (inject_Z hi)
    /\ lo ∈ millis <$> l /\ hi ∈ millis <$> l
    /\ forall d, d ∈ l -> lo <= millis d <= hi.
Proof.
  intros Hne.
  destruct (statistics_of_readings l) as (-> & -> & _).
  destruct l as [|d l]; [done|]. rewrite fmap_cons.
  destruct (statistics_of_samples (millis d) (millis <$> l)) as (-> & ->).
  exists (fold_left Z.min (millis <$> l) (millis d)),
    (fold_left Z.max (millis <$> l) (millis d)).
  split; [done|]. split; [done|].
  split; [apply fold_min_elem|]. split; [apply fold_max_elem|].
  intros d' Hd'.
  destruct (fold_min_lower_bound (millis <$> l) (millis d)) as [Hm1 Hm2].
  destruct (fold_max_upper_bound (millis <$> l) (millis d)) as [HM1 HM2].
  apply elem_of_cons in Hd' as [->|Hd']; [lia|].
  assert (millis d' ∈ millis <$> l) as Hin by (by apply list_elem_of_fmap_2).
  specialize (Hm2 _ Hin). specialize (HM2 _ Hin). lia.
Qed.

(** X1: for a non-empty cycle result of integer durations and nulls, [min] and
    [max] of the report are the least and the greatest of the entries, a null
    counting as 0: each is the value of an entry and bounds all of them. *)
Theorem min_and_max_are_the_extremes (l : list (option Z)) :
  l <> [] ->
  exists lo hi : Z,
    min (_parseCycleResult percentile (reading <$> l)) = Num (inject_Z lo)
    /\ max (_parseCycleResult percentile (reading <$> l)) = Num (inject_Z hi)
    /\ lo ∈ millis <$> l /\ hi ∈ millis <$> l
    /\ forall d, d ∈ l -> lo <= millis d <= hi.
Proof. apply min_and_max_are_the_extremes_aux. Qed.

(** The average of entries that are not negative and whose sum is below
    [2^53]: their exact mean, rounded to a double and then to an integer. *)
Lemma avg_of_readings (l : list (option Z)) :
  l <> [] -> Forall (fun d => 0 <= millis d) l ->
  exact_sum (millis <$> l) < 2 ^ 53 ->
  avg (_parseCycleResult percentile (reading <$> l))
  = Math_round (to_double (inject_Z (exact_sum (millis <$> l))
                           / inject_Z (Z.of_nat (length l)))).
Proof.
  intros Hne Hpos Hsum. destruct (statistics_of_readings l) as (_ & _ & ->).
  change (avg (_parseCycleResult percentile (sample <$> (millis <$> l))))
    with (_getAverage (sample <$> (millis <$> l))).
  rewrite average_of_samples; [by rewrite length_fmap|by destruct l| |done].
  by apply Forall_fmap.
Qed.

Lemma exact_sum_Permutation (xs ys : list Z) :
  xs ≡ₚ ys -> exact_sum xs = exact_sum ys.
Proof. induction 1; simpl; lia. Qed.

(** X2: [min] and [max] do not depend on the order of the entries of the cycle
    result; nor does [avg] when no entry is negative and their sum is below
    [2^53], so that it is added up without rounding. *)
Theorem statistics_ignore_the_order (l l' : list (option Z)) :
  l ≡ₚ l' ->
  min (_parseCycleResult percentile (reading <$> l))
  = min (_parseCycleResult percentile (reading <$> l'))
  /\ max (_parseCycleResult percentile (reading <$> l))
     = max (_parseCycleResult percentile (reading <$> l'))
  /\ (Forall (fun d => 0 <= millis d) l ->
      exact_sum (millis <$> l) < 2 ^ 53 ->
      avg (_parseCycleResult percentile (reading <$> l))
      = avg (_parseCycleResult percentile (reading <$> l'))).
Proof.
  intros Hperm.
  destruct l as [|d l].
  { apply Permutation_nil_l in Hperm. by subst l'. }
  assert (l' <> []) as Hne'.
  { intros ->. by apply Permutation_nil_r in Hperm. }
  assert (d :: l <> []) as Hne by done.
  destruct (min_and_max_are_the_extremes_aux (d :: l) Hne)
    as (lo & hi & Hmin & Hmax & Hlo & Hhi & Hbound).
  destruct (min_and_max_are_the_extremes_aux l' Hne')
    as (lo' & hi' & Hmin' & Hmax' & Hlo' & Hhi' & Hbound').
  rewrite Hmin, Hmin', Hmax, Hmax'.
  apply list_elem_of_fmap in Hlo as (a & -> & Ha), Hhi as (b & -> & Hb).
  apply list_elem_of_fmap in Hlo' as (a' & -> & Ha'), Hhi' as (b' & -> & Hb').
  pose proof (Hbound a' (proj2 (elem_of_Permutation_proper _ _ _ Hperm) Ha')).
  pose proof (Hbound b' (proj2 (elem_of_Permutation_proper _ _ _ Hperm) Hb')).
  pose proof (Hbound' a (proj1 (elem_of_Permutation_proper _ _ _ Hperm) Ha)).
  pose proof (Hbound' b (proj1 (elem_of_Permutation_proper _ _ _ Hperm) Hb)).
  split; [do 2 f_equal; lia|]. split; [do 2 f_equal; lia|].
  intros Hpos Hsum.
  assert (exact_sum (millis <$> d :: l) = exact_sum (millis <$> l')) as Hsame.
  { apply exact_sum_Permutation. by rewrite Hperm. }
  rewrite !avg_of_readings; try done.
  - by rewrite Hsame, (Permutation_length Hperm).
  - by rewrite <- Hperm.
  - by rewrite <- Hsame.
Qed.

(** X3: when all entries of a non-empty cycle result count as the same integer
    [v], as when the cycle has a single invocation, [min] and [max] are [v]; and
    so is [avg] when [v] is not negative and the sum of the entries is below
    [2^53]. *)
Theorem equal_entries_give_equal_statistics (l : list (option Z)) (v : Z) :
  l <> [] -> Forall (fun d => millis d = v) l ->
  min (_parseCycleResult percentile (reading <$> l)) = Num (inject_Z v)
  /\ max (_parseCycleResult percentile (reading <$> l)) = Num (inject_Z v)
  /\ (0 <= v -> v * Z.of_nat (length l) < 2 ^ 53 ->
      avg (_parseCycleResult percentile (reading <$> l)) = Num (inject_Z v)).
Proof.
  intros Hne Hall. rewrite Forall_forall in Hall.
  destruct (min_and_max_are_the_extremes_aux l Hne)
    as (lo & hi & -> & -> & Hlo & Hhi & _).
  apply list_elem_of_fmap in Hlo as (a & -> & Ha), Hhi as (b & -> & Hb).
  rewrite (Hall a Ha), (Hall b Hb). split; [done|]. split; [done|].
  intros Hv Hsmall.
  assert (0 < Z.of_nat (length l)) as Hlen.
  { destruct l; [done | simpl; lia]. }
  assert (v * Z.of_nat (length l) <= exact_sum (millis <$> l)
          <= v * Z.of_nat (length l)) as Hsum.
  { rewrite <- (length_fmap millis l). apply exact_sum_bounds.
    intros x Hx. apply list_elem_of_fmap in Hx as (d & -> & Hd).
    rewrite (Hall d Hd). lia. }
  rewrite avg_of_readings; [|done| |lia].
  - destruct (mean_between (exact_sum (millis <$> l)) (Z.of_nat (length l)) v v)
      as (z & -> & Hz); [done|nia|done|done|].
    do 2 f_equal. lia.
  - apply Forall_forall. intros d Hd. rewrite (Hall d Hd). done.
Qed.

Lemma lookup_fold_insert {V} (f : Z -> V) (ranks : list Z) (m : gmap Z V)
    (p : Z) :
  fold_left (fun memo i => <[i := f i]> memo) ranks m !! p
  = if decide (p ∈ ranks) then Some (f p) else m !! p.
Proof.
  revert m; induction ranks as [|i ranks IH]; intros m; simpl; [done|].
  rewrite IH. destruct (decide (p ∈ ranks)) as [Hin|Hnin].
  - by rewrite decide_True by (by right).
  - destruct (decide (p = i)) as [->|Hne].
    + rewrite decide_True by left. by rewrite lookup_insert_eq.
    + rewrite decide_False by (rewrite not_elem_of_cons; done).
      by rewrite lookup_insert_ne.
Qed.

(** X4: the [percentiles] of a report have exactly the eight ranks of
    [PERCENTILES] as keys, and the entry of a rank is what the [percentile]
    package returns for that rank and the whole cycle result. *)
Theorem percentiles_have_the_eight_ranks (cycleResult : list duration) (p : Z) :
  percentiles (_parseCycleResult percentile cycleResult) !! p
  = (if decide (p ∈ PERCENTILES) then Some (percentile p cycleResult) else None)
  /\ dom (percentiles (_parseCycleResult percentile cycleResult))
     = list_to_set PERCENTILES.
Proof.
  assert (forall q,
            percentiles (_parseCycleResult percentile cycleResult) !! q
            = if decide (q ∈ PERCENTILES) then Some (percentile q cycleResult)
              else None) as Hlookup.
  { intros q. unfold _parseCycleResult, percentiles.
    rewrite (lookup_fold_insert (fun i => percentile i cycleResult)).
    by rewrite lookup_empty. }
  split; [apply Hlookup|].
  apply set_eq. intros q. rewrite elem_of_dom, Hlookup, elem_of_list_to_set.
  destruct (decide (q ∈ PERCENTILES)) as [Hq|Hq].
  - split; [done|]. by eexists.
  - split; [intros [x Hx]; done|done].
Qed.

(** The statistics of an empty cycle result. *)
Lemma statistics_of_nothing :
  min (_parseCycleResult percentile []) = PosInfinity
  /\ max (_parseCycleResult percentile []) = NegInfinity
  /\ avg (_parseCycleResult percentile []) = NaN.
Proof. done. Qed.

End MoreReducerFacts.

(** * Reading the duration from a log *)

Section LogFacts.

Lemma literal_Some (text s rest : js_string) :
  literal text s = Some rest -> s = text ++ rest.
Proof.
  revert s; induction text as [|a text IH]; intros s; simpl.
  { by intros [= ->]. }
  destruct s as [|c s]; [done|].
  destruct (a =? c)%N eqn:E; [|done].
  apply N.eqb_eq in E as ->. intros H. by rewrite (IH _ H).
Qed.

Lemma literal_app (text rest : js_string) :
  literal text (text ++ rest) = Some rest.
Proof.
  induction text as [|a text IH]; simpl; [done|]. by rewrite N.eqb_refl.
Qed.

Lemma exactly_Some (n : nat) (class : N -> bool) (s rest : js_string) :
  exactly n class s = Some rest ->
  exists m, s = m ++ rest /\ group_of n class m = true.
Proof.
  unfold group_of.
  revert s; induction n as [|n IH]; intros s; simpl.
  { intros [= ->]. by exists []. }
  destruct s as [|c s]; [done|].
  destruct (class c) eqn:E; [|done].
  intros H. destruct (IH _ H) as (m & -> & Hm).
  exists (c :: m). simpl. by rewrite E.
Qed.

Lemma exactly_app (n : nat) (class : N -> bool) (m rest : js_string) :
  group_of n class m = true -> exactly n class (m ++ rest) = Some rest.
Proof.
  unfold group_of. revert n; induction m as [|c m IH]; intros [|n] H;
    simpl in *; try done.
  destruct (class c); [|by rewrite andb_false_r in H]. by apply IH.
Qed.

Lemma many_app (class : N -> bool) (m rest : js_string) :
  forallb class m = true ->
  match rest with
  | [] => True
  | c :: _ => class c = false
  end ->
  many class (m ++ rest) = (m, rest).
Proof.
  intros Hm Hrest. induction m as [|c m IH]; simpl in *.
  - destruct rest as [|c rest]; [done|]. simpl. by rewrite Hrest.
  - apply andb_true_iff in Hm as [-> Hm]. by rewrite IH.
Qed.

Lemma at_least_one_Some (class : N -> bool) (s m rest : js_string) :
  at_least_one class s = Some (m, rest) ->
  s = m ++ rest /\ some_of class m = true.
Proof.
  unfold at_least_one, some_of. destruct (many_split class s) as [Hs Hm].
  destruct (many class s) as [[|c m'] rest']; [done|].
  intros [= <- <-]. done.
Qed.

Lemma at_least_one_app (class : N -> bool) (m rest : js_string) :
  some_of class m = true ->
  match rest with
  | [] => True
  | c :: _ => class c = false
  end ->
  at_least_one class (m ++ rest) = Some (m, rest).
Proof.
  unfold at_least_one, some_of. intros [Hne Hm]%andb_true_iff Hrest.
  rewrite (many_app class m rest Hm Hrest). by destruct m.
Qed.

(** [REPORT_REGEX] matches at the start of a text exactly when the text is
    a well-formed REPORT line, and its second group is the duration. *)
Lemma REPORT_REGEX_at_Some (s parsedLog_2 : js_string) :
  REPORT_REGEX_at s = Some parsedLog_2 ->
  exists r, s = report_line r /\ well_formed r = true
            /\ Duration r = parsedLog_2.
Proof.
  unfold REPORT_REGEX_at. intros H.
  repeat
    (apply bind_Some in H as (? & ? & H);
     try match type of H with
         | (let '(_, _) := ?x in _) = _ => destruct x
         end).
  match type of H with
  | match ?rest with [] => _ | _ :: _ => _ end = _ => destruct rest; [|done]
  end.
  injection H as ->.
  repeat match goal with
         | H : literal _ _ = Some _ |- _ => apply literal_Some in H
         | H : exactly _ _ _ = Some _ |- _ =>
             apply exactly_Some in H as (? & ? & ?)
         | H : at_least_one _ _ = Some _ |- _ =>
             apply at_least_one_Some in H as [? ?]
         end.
  subst. rewrite app_nil_r.
  lazymatch goal with
  | |- exists r,
         _ ++ ?a ++ _ ++ ?b ++ _ ++ ?c ++ _ ++ ?d ++ _ ++ ?e
         ++ ?g1 ++ _ ++ ?du ++ _ ++ ?g2 ++ _ ++ ?bi ++ _
         ++ ?g3 ++ _ ++ ?me ++ _ ++ ?g4 ++ _ ++ ?ma ++ _ ++ ?g5 = _ /\ _ =>
      exists (mkREPORT a b c d e g1 du g2 bi g3 me g4 ma g5)
  end.
  split; [reflexivity|]. split; [|reflexivity].
  unfold well_formed. cbn [id_1 id_2 id_3 id_4 id_5 gap_1 gap_2 gap_3 gap_4
    gap_5 Duration Billed_Duration Memory_Size Max_Memory_Used].
  repeat match goal with
         | H : _ = true |- _ => rewrite H; clear H
         end.
  reflexivity.
Qed.

Lemma bind_ret {A B} (x : A) (f : A -> option B) : Some x ≫= f = f x.
Proof. reflexivity. Qed.

Lemma REPORT_REGEX_at_line (r : REPORT) :
  well_formed r = true -> REPORT_REGEX_at (report_line r) = Some (Duration r).
Proof.
  unfold well_formed. intros H. do 13 (apply andb_true_iff in H as [H ?]).
  unfold REPORT_REGEX_at, report_line. rewrite <- (app_nil_r (gap_5 r)).
  repeat
    (first [ rewrite literal_app
           | rewrite exactly_app by assumption
           | rewrite at_least_one_app
               by first [assumption | vm_compute; first [reflexivity | exact I]] ];
     rewrite bind_ret; cbv beta iota).
  reflexivity.
Qed.

Lemma REPORT_REGEX_exec_2_unfold (log : js_string) :
  REPORT_REGEX_exec_2 log
  = match REPORT_REGEX_at log with
    | Some parsedLog_2 => Some parsedLog_2
    | None =>
        match log with
        | [] => None
        | _ :: rest => REPORT_REGEX_exec_2 rest
        end
    end.
Proof. by destruct log. Qed.

Lemma REPORT_REGEX_exec_2_Some (log parsedLog_2 : js_string) :
  REPORT_REGEX_exec_2 log = Some parsedLog_2 ->
  exists before r,
    log = before ++ report_line r /\ well_formed r = true
    /\ Duration r = parsedLog_2.
Proof.
  induction log as [|c log IH]; rewrite REPORT_REGEX_exec_2_unfold.
  - destruct (REPORT_REGEX_at []) as [d|] eqn:E; [|done]. intros [= <-].
    destruct (REPORT_REGEX_at_Some _ _ E) as (r & Hr & Hwf & Hd).
    by exists [], r.
  - destruct (REPORT_REGEX_at (c :: log)) as [d|] eqn:E.
    + intros [= <-].
      destruct (REPORT_REGEX_at_Some _ _ E) as (r & Hr & Hwf & Hd).
      by exists [], r.
    + intros H. destruct (IH H) as (before & r & -> & Hwf & Hd).
      by exists (c :: before), r.
Qed.

Lemma REPORT_REGEX_at_None (s : js_string) :
  literal (units "REPORT RequestId: ") s = None -> REPORT_REGEX_at s = None.
Proof. unfold REPORT_REGEX_at. by intros ->. Qed.

Lemma REPORT_REGEX_exec_2_line (before : js_string) (r : REPORT) :
  well_formed r = true ->
  occurs_before (units "REPORT RequestId: ") (before ++ report_line r)
    (length before) = false ->
  REPORT_REGEX_exec_2 (before ++ report_line r) = Some (Duration r).
Proof.
  intros Hwf. induction before as [|c before IH];
    rewrite REPORT_REGEX_exec_2_unfold.
  - intros _. simpl. by rewrite REPORT_REGEX_at_line.
  - cbn [length occurs_before app].
    intros [Hhere Hrest]%orb_false_iff.
    rewrite REPORT_REGEX_at_None; [by apply IH|].
    apply bool_decide_eq_false in Hhere.
    destruct (literal _ (c :: before ++ report_line r)); [|done].
    exfalso. by apply Hhere.
Qed.

(** ** [Number] on a text of digits and points *)

Lemma Number_two_points (a b c : js_string) :
  Number (a ++ [46%N] ++ b ++ [46%N] ++ c) = NaN.
Proof.
  assert (forall text,
            match (many digit text).2 with
            | [] => False
            | x :: fraction => (x =? 46)%N && forallb digit fraction = false
            end -> Number text = NaN) as Hnan.
  { intros text. unfold Number.
    destruct (many digit text) as [whole [|x fraction]]; simpl; [done|].
    by intros ->. }
  apply Hnan. induction a as [|a0 a IH]; simpl.
  - rewrite forallb_app. simpl. by rewrite andb_false_r.
  - destruct (digit a0) eqn:Ha0.
    + simpl in IH. by destruct (many digit (a ++ 46%N :: b ++ 46%N :: c)).
    + simpl. destruct (a0 =? 46)%N; [|done]. simpl.
      rewrite forallb_app. simpl. by rewrite andb_false_r.
Qed.

(** X16: a REPORT line as the service writes it is read, whatever precedes it in
    the log as long as the words it begins with occur there first: the duration
    resolved is the number its second field reads as, rounded. *)
Theorem report_line_is_read (before : js_string) (r : REPORT) :
  well_formed r = true ->
  occurs_before (units "REPORT RequestId: ") (before ++ report_line r)
    (length before) = false ->
  read_duration (before ++ report_line r)
  = Some (Math_round (Number (Duration r))).
Proof.
  intros Hwf Hfirst. unfold read_duration.
  by rewrite REPORT_REGEX_exec_2_line.
Qed.

(** X17: a duration is only ever read from a log that ends with a well-formed
    REPORT line: from its second field, and from nothing else. *)
Theorem duration_is_read_from_a_report_line (log : js_string) (d : number) :
  read_duration log = Some d ->
  exists before r,
    log = before ++ report_line r
    /\ well_formed r = true
    /\ d = Math_round (Number (Duration r)).
Proof.
  unfold read_duration.
  destruct (REPORT_REGEX_exec_2 log) as [parsedLog_2|] eqn:E; [|done].
  intros [= <-].
  destruct (REPORT_REGEX_exec_2_Some _ _ E) as (before & r & -> & Hwf & <-).
  by exists before, r.
Qed.

(** X18: whatever the log, what is read from it is null, [NaN], [Infinity] or
    a natural number: never a negative number and never a fraction. *)
Theorem duration_read_is_null_NaN_Infinity_or_natural (log : js_string) :
  read_duration log = None
  \/ read_duration log = Some NaN
  \/ read_duration log = Some PosInfinity
  \/ exists n : Z, 0 <= n /\ read_duration log = Some (Num (inject_Z n)).
Proof.
  unfold read_duration.
  destruct (REPORT_REGEX_exec_2 log) as [parsedLog_2|]; [right|by left].
  destruct (round_of_Number parsedLog_2) as [->|[->|(z & Hz & ->)]];
    [by left|right; by left|].
  right. right. by exists z.
Qed.

(** X19: the pattern lets through a duration with two points or more, which is
    no numeral: such a REPORT line is read as [NaN], not as null. *)
Theorem two_points_are_read_as_NaN (before : js_string) (r : REPORT)
    (a b c : js_string) :
  well_formed r = true ->
  occurs_before (units "REPORT RequestId: ") (before ++ report_line r)
    (length before) = false ->
  Duration r = a ++ [46%N] ++ b ++ [46%N] ++ c ->
  read_duration (before ++ report_line r) = Some NaN.
Proof.
  intros Hwf Hfirst Hd. unfold read_duration.
  rewrite REPORT_REGEX_exec_2_line by done.
  by rewrite Hd, Number_two_points.
Qed.

End LogFacts.

(** * More sample runs *)

Section MoreExamples.

Local Abbreviation one_step := (sample_options [128] 1 1 false 0).
Local Abbreviation warm_serial := (sample_options [128] 3 1 true 500).
Local Abbreviation two_steps := (sample_options [128; 256] 3 2 false 0).
Local Abbreviation same_size_twice := (sample_options [128; 128] 2 1 false 0).
Local Abbreviation no_repeats := (sample_options [128; 256] 0 1 false 0).
Local Abbreviation start := (@init js_string unit error duration).

Lemma min_and_max_are_the_extremes_witness :
  [Some 7; None; Some 4] <> []
  /\ exists lo hi : Z,
       min (_parseCycleResult nearest_rank (reading <$> [Some 7; None; Some 4]))
       = Num (inject_Z lo)
       /\ max (_parseCycleResult nearest_rank
                 (reading <$> [Some 7; None; Some 4]))
          = Num (inject_Z hi).
Proof.
  split; [done|].
  destruct (min_and_max_are_the_extremes nearest_rank [Some 7; None; Some 4])
    as (lo & hi & Hlo & Hhi & _); [done|].
  by exists lo, hi.
Defined.

Lemma statistics_ignore_the_order_witness :
  [Some 7; None; Some 4] ≡ₚ [None; Some 4; Some 7]
  /\ Forall (fun d => 0 <= millis d) [Some 7; None; Some 4]
  /\ exact_sum (millis <$> [Some 7; None; Some 4]) < 2 ^ 53
  /\ avg (_parseCycleResult nearest_rank (reading <$> [Some 7; None; Some 4]))
     = avg (_parseCycleResult nearest_rank (reading <$> [None; Some 4; Some 7])).
Proof.
  assert ([Some 7; None; Some 4] ≡ₚ [None; Some 4; Some 7]) as Hperm.
  { change [Some 7; None; Some 4] with ([Some 7] ++ [None; Some 4]).
    rewrite Permutation_app_comm. done. }
  assert (Forall (fun d => 0 <= millis d) [Some 7; None; Some 4]) as Hpos
    by (repeat (constructor; [simpl; lia|]); constructor).
  assert (exact_sum (millis <$> [Some 7; None; Some 4]) < 2 ^ 53) as Hsum
    by (vm_compute; reflexivity).
  split; [exact Hperm|]. split; [exact Hpos|]. split; [exact Hsum|].
  apply (statistics_ignore_the_order nearest_rank _ _ Hperm); done.
Defined.

Lemma equal_entries_give_equal_statistics_witness :
  [Some 5; Some 5] <> []
  /\ Forall (fun d => millis d = 5) [Some 5; Some 5]
  /\ 5 * Z.of_nat (length [Some 5; Some 5]) < 2 ^ 53
  /\ avg (_parseCycleResult nearest_rank (reading <$> [Some 5; Some 5]))
     = Num (inject_Z 5).
Proof.
  assert (Forall (fun d => millis d = 5) [Some 5; Some 5]) as Hall.
  { repeat constructor. }
  assert (5 * Z.of_nat (length [Some 5; Some 5]) < 2 ^ 53) as Hsmall
    by (vm_compute; reflexivity).
  split; [done|]. split; [exact Hall|]. split; [exact Hsmall|].
  apply (equal_entries_give_equal_statistics nearest_rank [Some 5; Some 5] 5);
    [done|exact Hall|lia|exact Hsmall].
Defined.

Lemma every_index_is_invoked_once_witness :
  stray start = []
  /\ exists suf,
       log (_cycle failing_world two_steps 3 start).2 = log start ++ suf
       /\ NoDup (attempts suf).
Proof.
  split; [reflexivity|].
  destruct (every_index_is_invoked_once failing_world two_steps 3 start eq_refl)
    as (suf & Hlog & Hnd & _).
  by exists suf.
Defined.

Lemma invoke_events_announce_the_results_witness :
  stray start = []
  /\ exists l s' suf,
       _cycle steady_world two_steps 3 start = (Fulfilled l, s')
       /\ log s' = log start ++ suf
       /\ observed suf ≡ₚ l.
Proof.
  split; [reflexivity|].
  destruct (_cycle steady_world two_steps 3 start) as [o s'] eqn:Hrun.
  assert (exists l, o = Fulfilled l) as [l ->].
  { apply (f_equal fst) in Hrun. vm_compute in Hrun. subst o. by eexists. }
  destruct (invoke_events_announce_the_results steady_world two_steps 3
              start l s' eq_refl Hrun) as (suf & Hlog & Hobs & _).
  exists l, s', suf. split; [reflexivity|]. split; [exact Hlog|exact Hobs].
Defined.

Lemma concurrency_limit_is_respected_witness :
  stray start = [] /\ (1 <= concurrency two_steps)%nat
  /\ exists suf,
       log (_cycle steady_world two_steps 3 start).2 = log start ++ suf
       /\ (length (attempts suf) <= length (settlements suf) + 2)%nat.
Proof.
  split; [reflexivity|]. split; [simpl; lia|].
  destruct (concurrency_limit_is_respected steady_world two_steps 3 start)
    as (suf & Hlog & Hpre); [reflexivity|simpl; lia|].
  exists suf. split; [exact Hlog|].
  apply (Hpre suf []). by rewrite app_nil_r.
Defined.

Lemma every_invocation_carries_its_payload_witness :
  stray start = []
  /\ exists suf,
       log (_cycle steady_world warm_serial 3 start).2 = log start ++ suf
       /\ Forall (payload_by_index warm_serial) suf.
Proof.
  split; [reflexivity|].
  destruct (every_invocation_carries_its_payload steady_world warm_serial 3
              start eq_refl) as (suf & Hlog & Hall & _).
  exists suf. split; [exact Hlog|exact Hall].
Defined.

Lemma serial_cycle_is_a_sequence_of_rounds_witness :
  concurrency warm_serial = 1%nat /\ stray start = []
  /\ exists l s' head (jrs : list (nat * js_string)),
       _cycle steady_world warm_serial 3 start = (Fulfilled l, s')
       /\ log s' = log start ++ head
                    ++ concat (round steady_world warm_serial <$> jrs)
       /\ jrs.*1 ≡ₚ seq 0 3.
Proof.
  split; [reflexivity|]. split; [reflexivity|].
  destruct (_cycle steady_world warm_serial 3 start) as [o s'] eqn:Hrun.
  assert (exists l, o = Fulfilled l) as [l ->].
  { apply (f_equal fst) in Hrun. vm_compute in Hrun. subst o. by eexists. }
  destruct (serial_cycle_is_a_sequence_of_rounds steady_world warm_serial 3
              start s' l eq_refl eq_refl Hrun)
    as (head & jrs & Hlog & _ & Hperm & _).
  exists l, s', head, jrs. split; [reflexivity|].
  split; [exact Hlog|exact Hperm].
Defined.

Lemma serial_run_ends_with_the_restore_witness :
  concurrency warm_serial = 1%nat
  /\ getFunctionConfiguration failing_world [Call GetFunctionConfiguration]
     = Fulfilled 512
  /\ stray (run failing_world warm_serial init).2 = [].
Proof.
  split; [reflexivity|]. split; [reflexivity|].
  destruct (serial_run_ends_with_the_restore failing_world warm_serial 512
              eq_refl eq_refl) as (pre & ro & _ & _ & Hstray).
  exact Hstray.
Defined.


Lemma report_has_the_last_result_of_every_size_witness :
  exists R,
    (run steady_world same_size_twice init).1 = Fulfilled R
    /\ R !! 128 = reports (log (run steady_world same_size_twice init).2) !! 1%nat.
Proof.
  destruct (run steady_world same_size_twice init).1 as [R|e] eqn:Hrun;
    [|vm_compute in Hrun; discriminate Hrun].
  exists R. split; [reflexivity|].
  destruct (report_has_the_last_result_of_every_size steady_world
              same_size_twice R Hrun) as (_ & _ & _ & Hlast).
  apply (Hlast [128] 128 []); [reflexivity|apply not_elem_of_nil].
Defined.

Lemma unreadable_configuration_changes_nothing_witness :
  getFunctionConfiguration unreadable_world [Call GetFunctionConfiguration]
  = Rejected ConfigurationUpdateError
  /\ (run unreadable_world two_steps init).1 = Rejected ConfigurationUpdateError.
Proof.
  split; [reflexivity|].
  apply (unreadable_configuration_changes_nothing unreadable_world two_steps
           ConfigurationUpdateError eq_refl).
Defined.

Lemma no_repeats_reports_no_number_witness :
  repeats no_repeats = 0%nat
  /\ 256 ∈ steps no_repeats
  /\ exists R r,
       (run steady_world no_repeats init).1 = Fulfilled R
       /\ R !! 256 = Some r /\ avg r = NaN.
Proof.
  assert (256 ∈ steps no_repeats) as Hin.
  { simpl. apply elem_of_cons. right. apply elem_of_cons. by left. }
  split; [reflexivity|]. split; [exact Hin|].
  destruct (run steady_world no_repeats init).1 as [R|e] eqn:Hrun;
    [|vm_compute in Hrun; discriminate Hrun].
  exists R.
  destruct (no_repeats_reports_no_number steady_world no_repeats R eq_refl Hrun
              256 Hin) as (r & Hr & _ & _ & Havg).
  by exists r.
Defined.

Lemma failed_configuration_stops_the_sweep_witness :
  exists pre post,
    log (run unconfigurable_world two_steps init).2
    = pre ++ Settled (UpdateFunctionConfiguration 256)
               (Rejected ConfigurationUpdateError)
          :: Emit EvFinish :: post
    /\ emitted_steps (log (run unconfigurable_world two_steps init).2) = [128].
Proof.
  set (tr := log (run unconfigurable_world two_steps init).2).
  assert (exists n, tr = take n tr
                         ++ Settled (UpdateFunctionConfiguration 256)
                              (Rejected ConfigurationUpdateError)
                         :: Emit EvFinish :: drop (S (S n)) tr) as [n Hsplit].
  { exists (length tr - 4)%nat. vm_compute. reflexivity. }
  exists (take n tr), (drop (S (S n)) tr). split; [exact Hsplit|].
  destruct (failed_configuration_stops_the_sweep unconfigurable_world two_steps
              256 ConfigurationUpdateError _ _ Hsplit)
    as (m & k & suf0 & ro & Hk & _ & _ & _ & Hsteps & _).
  subst tr. rewrite Hsteps. destruct k as [|[|k]]; [done|done|].
  simpl in Hk. by rewrite lookup_nil in Hk.
Defined.

Lemma report_line_is_read_witness :
  well_formed (sample_report "100.49") = true
  /\ occurs_before (units "REPORT RequestId: ") (sample_log "100.49")
       (length sample_preamble) = false
  /\ read_duration (sample_log "100.49") = Some (Num (inject_Z 100)).
Proof.
  split; [vm_compute; reflexivity|]. split; [vm_compute; reflexivity|].
  unfold sample_log.
  rewrite (report_line_is_read sample_preamble (sample_report "100.49"));
    vm_compute; reflexivity.
Defined.

Lemma duration_is_read_from_a_report_line_witness :
  read_duration (sample_log "100.5") = Some (Num (inject_Z 101))
  /\ exists before r,
       sample_log "100.5" = before ++ report_line r /\ well_formed r = true.
Proof.
  assert (read_duration (sample_log "100.5") = Some (Num (inject_Z 101)))
    as Hread by (vm_compute; reflexivity).
  split; [exact Hread|].
  destruct (duration_is_read_from_a_report_line _ _ Hread)
    as (before & r & Hlog & Hwf & _).
  exists before, r. split; [exact Hlog|exact Hwf].
Defined.

Lemma two_points_are_read_as_NaN_witness :
  well_formed (sample_report "1.2.3") = true
  /\ occurs_before (units "REPORT RequestId: ") (sample_log "1.2.3")
       (length sample_preamble) = false
  /\ Duration (sample_report "1.2.3")
     = units "1" ++ [46%N] ++ units "2" ++ [46%N] ++ units "3"
  /\ read_duration (sample_log "1.2.3") = Some NaN.
Proof.
  split; [vm_compute; reflexivity|]. split; [vm_compute; reflexivity|].
  split; [vm_compute; reflexivity|].
  apply (two_points_are_read_as_NaN sample_preamble (sample_report "1.2.3")
           (units "1") (units "2") (units "3")); vm_compute; reflexivity.
Defined.

End MoreExamples.

End Runner.
